(** * The webtoon chapter grabber ([scripts/grab_webtoon.py]), embedded in Rocq

    The development follows the script function by function: [fetch],
    [normalize_naver_url], [extract_image_urls] (with its inner [sort_key]),
    [infer_ext], [is_image_bytes], [download_images], [slugify] and
    [parse_chapter_label].

    Modelling choices.
    - A Python [str] is a list of Unicode code points ([N]); [bytes] is a list
      of byte values ([N] below 256).
    - A Python call that may raise returns a [result]; [try]/[except] is
      [try_except].
    - The parts of the Python runtime the script calls ([re], [urllib.parse],
      [str] methods) are written out below for the fragment the script uses.
      Their Unicode tables are not part of the script; what the model needs of
      them is gathered in the record [Lib] and every function takes it as a
      parameter.  No table is consulted on ASCII text.
    - The network and the file system are a [world] threaded through the
      effectful functions, with a trace of the effects performed.  File-system
      calls succeed; console output is not recorded. *)

From Stdlib Require Import String Ascii.
From Stdlib Require Import List NArith ZArith QArith Bool Lia.
From Stdlib Require Import Permutation Sorted.
Import ListNotations.
Close Scope Q_scope.
Local Open Scope N_scope.
Local Open Scope list_scope.

(** ** Python text *)

Definition char := N.
Definition str := list char.
Definition bytes := list N.

(** A literal of the script. *)
Definition u (s : string) : str := map N_of_ascii (list_ascii_of_string s).

Fixpoint str_eqb (a b : str) : bool :=
  match a, b with
  | [], [] => true
  | x :: a', y :: b' => (x =? y) && str_eqb a' b'
  | _, _ => false
  end.

Fixpoint startswith (s p : str) {struct p} : bool :=
  match p, s with
  | [], _ => true
  | c :: p', x :: s' => (x =? c) && startswith s' p'
  | _ :: _, [] => false
  end.

Definition endswith (s p : str) : bool := startswith (rev s) (rev p).

(** [sub in s] on strings. *)
Fixpoint contains (s sub : str) : bool :=
  startswith s sub || match s with [] => false | _ :: s' => contains s' sub end.

Definition has_char (c : char) (s : str) : bool := existsb (N.eqb c) s.

(** [s.find(c)] for a one-character needle. *)
Fixpoint find_char (c : char) (s : str) : option nat :=
  match s with
  | [] => None
  | x :: s' => if x =? c then Some O else option_map S (find_char c s')
  end.

(** [s.split(c, 1)] when [c] occurs in [s]: the text before and after the
    first occurrence. *)
Fixpoint split_once (c : char) (s : str) : str * str :=
  match s with
  | [] => ([], [])
  | x :: s' => if x =? c then ([], s')
               else let '(a, b) := split_once c s' in (x :: a, b)
  end.

(** [s.split(c)]: never empty, ["".split(c) == [""]]. *)
Fixpoint split (c : char) (s : str) : list str :=
  match s with
  | [] => [[]]
  | x :: s' =>
      if x =? c then [] :: split c s'
      else match split c s' with
           | w :: ws => (x :: w) :: ws
           | [] => [[x]]
           end
  end.

Fixpoint join (sep : str) (l : list str) : str :=
  match l with
  | [] => []
  | [a] => a
  | a :: l' => a ++ sep ++ join sep l'
  end.

Fixpoint drop_while (p : char -> bool) (s : str) : str :=
  match s with
  | [] => []
  | x :: s' => if p x then drop_while p s' else s
  end.

Definition lstrip_by (p : char -> bool) (s : str) : str := drop_while p s.
Definition rstrip_by (p : char -> bool) (s : str) : str :=
  rev (drop_while p (rev s)).
Definition strip_by (p : char -> bool) (s : str) : str :=
  rstrip_by p (lstrip_by p s).

Definition remove_chars (p : char -> bool) (s : str) : str :=
  filter (fun c => negb (p c)) s.

Definition replace_char (a b : char) (s : str) : str :=
  map (fun c => if c =? a then b else c) s.

Definition in_range (lo hi c : N) : bool := (lo <=? c) && (c <=? hi).

Definition is_ascii (c : char) : bool := c <? 128.
Definition ascii_upper_letter (c : char) : bool := in_range 65 90 c.
Definition ascii_lower_letter (c : char) : bool := in_range 97 122 c.
Definition ascii_letter (c : char) : bool :=
  ascii_upper_letter c || ascii_lower_letter c.
Definition ascii_digit (c : char) : bool := in_range 48 57 c.
Definition ascii_lower_char (c : char) : char :=
  if ascii_upper_letter c then c + 32 else c.

(** [str.isspace] on one character, which is also what [\s] matches in a
    [str] pattern and what [str.strip()] removes. *)
Definition is_space (c : char) : bool :=
  in_range 9 13 c || in_range 28 32 c || (c =? 133) || (c =? 160)
  || (c =? 5760) || in_range 8192 8202 c || (c =? 8232) || (c =? 8233)
  || (c =? 8239) || (c =? 8287) || (c =? 12288).

(** [bytes.lstrip()] removes ASCII whitespace only. *)
Definition is_space_byte (c : N) : bool := in_range 9 13 c || (c =? 32).

(** ** Exceptions *)

Inductive exn :=
| ValueError (msg : str)
| HTTPError (code : N)
| URLError (reason : str)
| TimeoutError
| SSLError
| RuntimeError (msg : str)
| OtherError (tag : N).

Inductive result (A : Type) :=
| Ok (a : A)
| Raise (e : exn).
Arguments Ok {A} a.
Arguments Raise {A} e.

Definition bind {A B} (m : result A) (f : A -> result B) : result B :=
  match m with
  | Ok a => f a
  | Raise e => Raise e
  end.

Notation "'do' x <- m ;; k" := (bind m (fun x => k))
  (at level 10, x pattern, m at level 100, k at level 200).

(** [try: m  except Exception: h]. *)
Definition try_except {A} (m : result A) (h : exn -> result A) : result A :=
  match m with
  | Ok a => Ok a
  | Raise e => h e
  end.

(** ** What the model needs of the Unicode tables and codecs *)

Record Lib := {
  (** decimal value of a non-ASCII character of category Nd ([\d], [int]) *)
  uni_decimal : char -> option N;
  (** [str.lower] on a string that has a non-ASCII character *)
  uni_lower : str -> str;
  (** [html.unescape] on a string that contains ['&'] *)
  charref_unescape : str -> str;
  (** [urllib.parse.unquote] on a string that contains ['%'] *)
  percent_unquote : str -> str;
  (** [urlsplit]'s NFKC check rejects this non-ASCII netloc *)
  nfkc_rejects : str -> bool;
  (** [urlsplit] rejects this bracketed host *)
  bracketed_host_rejects : str -> bool
}.

(** The tables are empty: text is treated as ASCII-cased, entities and
    percent escapes are left as they are. *)
Definition ascii_lib : Lib := {|
  uni_decimal := fun _ => None;
  uni_lower := fun s => s;
  charref_unescape := fun s => s;
  percent_unquote := fun s => s;
  nfkc_rejects := fun _ => false;
  bracketed_host_rejects := fun _ => false
|}.

(** ** Regular expressions ([re]), the fragment the script's patterns use

    Repetition is over a single character class, which is all the script's
    patterns repeat.  The matcher backtracks with the priorities of [re]:
    alternatives left to right, greedy repetition longest first, lazy
    repetition shortest first. *)

Module Re.

Inductive regex :=
| Eps
| Chr (p : char -> bool)
| Seq (r1 r2 : regex)
| Alt (r1 r2 : regex)
| Rep (greedy : bool) (lo : nat) (hi : option nat) (p : char -> bool)
| Grp (n : nat) (r : regex)
| Eos.

Definition caps := list (nat * str).

Definition or_else {A} (a b : option A) : option A :=
  match a with Some _ => a | None => b end.

Section Matcher.
Context {A : Type}.

Fixpoint rep_greedy (p : char -> bool) (lo : nat) (hi : option nat)
    (s : str) (k : str -> option A) : option A :=
  let stop := match lo with O => k s | S _ => None end in
  match hi with
  | Some O => stop
  | _ =>
      match s with
      | x :: s' =>
          if p x
          then or_else (rep_greedy p (pred lo) (option_map pred hi) s' k) stop
          else stop
      | [] => stop
      end
  end.

Fixpoint rep_lazy (p : char -> bool) (lo : nat) (hi : option nat)
    (s : str) (k : str -> option A) : option A :=
  let more :=
    match hi with
    | Some O => None
    | _ =>
        match s with
        | x :: s' =>
            if p x then rep_lazy p (pred lo) (option_map pred hi) s' k
            else None
        | [] => None
        end
    end in
  match lo with
  | O => or_else (k s) more
  | S _ => more
  end.

(** [$] without [re.MULTILINE]: at the end, or before a final newline. *)
Definition at_eos (s : str) : bool :=
  match s with
  | [] => true
  | [c] => c =? 10
  | _ => false
  end.

Fixpoint rmatch (r : regex) (s : str) (c : caps)
    (k : str -> caps -> option A) : option A :=
  match r with
  | Eps => k s c
  | Chr p =>
      match s with
      | x :: s' => if p x then k s' c else None
      | [] => None
      end
  | Seq r1 r2 => rmatch r1 s c (fun s' c' => rmatch r2 s' c' k)
  | Alt r1 r2 => or_else (rmatch r1 s c k) (rmatch r2 s c k)
  | Rep true lo hi p => rep_greedy p lo hi s (fun s' => k s' c)
  | Rep false lo hi p => rep_lazy p lo hi s (fun s' => k s' c)
  | Grp n r' =>
      rmatch r' s c
        (fun s' c' => k s' ((n, firstn (length s - length s') s) :: c'))
  | Eos => if at_eos s then k s c else None
  end.
End Matcher.

(** A match object: the matched text and the groups. *)
Record mobj := { m_text : str; m_caps : caps }.

Fixpoint lookup (n : nat) (c : caps) : option str :=
  match c with
  | [] => None
  | (i, v) :: c' => if Nat.eqb i n then Some v else lookup n c'
  end.

(** [m.group(n)]; [None] when the group took no part in the match. *)
Definition group (m : mobj) (n : nat) : option str := lookup n (m_caps m).

(** [pattern.match(s)]: a match that starts at the beginning of [s]. *)
Definition match_here (r : regex) (s : str) : option mobj :=
  rmatch r s []
    (fun s' c => Some {| m_text := firstn (length s - length s') s;
                         m_caps := c |}).

(** [re.search]: the leftmost match. *)
Fixpoint search (r : regex) (s : str) : option mobj :=
  match match_here r s with
  | Some m => Some m
  | None => match s with [] => None | _ :: s' => search r s' end
  end.

(** [re.finditer]: matches left to right, each search resuming where the
    previous match ended.  [skip] counts the characters of the current match
    still to step over.  (None of the patterns scanned this way matches the
    empty string; after an empty match the scan moves on by one character.) *)
Fixpoint finditer_from (r : regex) (s : str) (skip : nat) : list mobj :=
  match skip with
  | S n => match s with [] => [] | _ :: s' => finditer_from r s' n end
  | O =>
      match match_here r s with
      | Some m =>
          m :: match s with
               | [] => []
               | _ :: s' => finditer_from r s' (pred (length (m_text m)))
               end
      | None => match s with [] => [] | _ :: s' => finditer_from r s' O end
      end
  end.

Definition finditer (r : regex) (s : str) : list mobj := finditer_from r s O.

(** [re.sub(r, repl, s)] for a replacement text without group references. *)
Fixpoint sub_from (r : regex) (repl : str) (s : str) (skip : nat) : str :=
  match skip with
  | S n => match s with [] => [] | _ :: s' => sub_from r repl s' n end
  | O =>
      match match_here r s with
      | Some m =>
          match length (m_text m), s with
          | O, x :: s' => repl ++ x :: sub_from r repl s' O
          | S n, _ :: s' => repl ++ sub_from r repl s' n
          | _, [] => repl
          end
      | None => match s with [] => [] | x :: s' => x :: sub_from r repl s' O end
      end
  end.

Definition sub (r : regex) (repl s : str) : str := sub_from r repl s O.

(** *** Building patterns *)

Definition chr_is (c : char) : char -> bool := fun x => x =? c.
Definition one_of (l : str) : char -> bool := fun x => existsb (N.eqb x) l.
Definition none_of (l : str) : char -> bool := fun x => negb (one_of l x).
Definition any_char : char -> bool := fun _ => true.

(** What an ASCII pattern character matches under [re.IGNORECASE]: both
    cases, and the four non-ASCII letters that fold to [i], [s] and [k]. *)
Definition is_nocase (c : char) : char -> bool := fun x =>
  let lc := ascii_lower_char c in
  (ascii_lower_char x =? lc)
  || ((lc =? 105) && ((x =? 304) || (x =? 305)))
  || ((lc =? 115) && (x =? 383))
  || ((lc =? 107) && (x =? 8490)).

Fixpoint seqs (l : list regex) : regex :=
  match l with
  | [] => Eps
  | [r] => r
  | r :: l' => Seq r (seqs l')
  end.

Fixpoint alts (l : list regex) : regex :=
  match l with
  | [] => Chr (fun _ => false)
  | [r] => r
  | r :: l' => Alt r (alts l')
  end.

Definition lit (s : str) : regex := seqs (map (fun c => Chr (chr_is c)) s).
Definition lit_nocase (s : str) : regex :=
  seqs (map (fun c => Chr (is_nocase c)) s).
Definition star (p : char -> bool) : regex := Rep true 0 None p.
Definition plus (p : char -> bool) : regex := Rep true 1 None p.
Definition opt (r : regex) : regex := Alt r Eps.

End Re.

(** ** More of [str] *)

Definition is_empty (s : str) : bool :=
  match s with [] => true | _ => false end.

Definition mem (x : str) (l : list str) : bool := existsb (str_eqb x) l.

(** [str.lower]. *)
Definition lower (L : Lib) (s : str) : str :=
  if forallb is_ascii s then map ascii_lower_char s else uni_lower L s.

(** The text before the first character that satisfies [p], and the rest. *)
Fixpoint span_until (p : char -> bool) (s : str) : str * str :=
  match s with
  | [] => ([], [])
  | x :: s' => if p x then ([], s)
               else let '(a, b) := span_until p s' in (x :: a, b)
  end.

(** [\d] in a [str] pattern: any decimal digit. *)
Definition is_digit (L : Lib) (c : char) : bool :=
  ascii_digit c
  || (negb (is_ascii c) && match uni_decimal L c with Some _ => true | None => false end).

Definition digit_value (L : Lib) (c : char) : option Z :=
  if ascii_digit c then Some (Z.of_N (c - 48))
  else if is_ascii c then None
  else option_map Z.of_N (uni_decimal L c).

Fixpoint int_digits (L : Lib) (acc : Z) (s : str) : option Z :=
  match s with
  | [] => Some acc
  | c :: s' =>
      match digit_value L c with
      | Some d => int_digits L (10 * acc + d)%Z s'
      | None => None
      end
  end.

(** [int(s)] on a text without sign, blanks or underscores; [None] stands for
    [ValueError] (no digit, a character that is not a digit, or more than the
    interpreter's limit of 4300 digits). *)
Definition py_int (L : Lib) (s : str) : option Z :=
  if is_empty s then None
  else if (4300 <? length s)%nat then None
  else int_digits L 0%Z s.

(** ** [urllib.parse] *)

Module Url.

Record parsed := {
  scheme : str;
  netloc : str;
  path : str;
  params : str;
  query : str;
  fragment : str
}.

Definition uses_relative : list str :=
  map u [""; "ftp"; "http"; "gopher"; "nntp"; "imap"; "wais"; "file"; "https";
         "shttp"; "mms"; "prospero"; "rtsp"; "rtsps"; "rtspu"; "sftp"; "svn";
         "svn+ssh"; "ws"; "wss"]%string.

Definition uses_netloc : list str :=
  map u [""; "ftp"; "http"; "gopher"; "nntp"; "telnet"; "imap"; "wais"; "file";
         "mms"; "https"; "shttp"; "snews"; "prospero"; "rtsp"; "rtsps";
         "rtspu"; "rsync"; "svn"; "svn+ssh"; "sftp"; "nfs"; "git"; "git+ssh";
         "ws"; "wss"; "itms-services"]%string.

Definition uses_params : list str :=
  map u [""; "ftp"; "hdl"; "prospero"; "http"; "imap"; "https"; "shttp";
         "rtsp"; "rtsps"; "rtspu"; "sip"; "sips"; "mms"; "sftp"; "tel"]%string.

Definition scheme_char (c : char) : bool :=
  ascii_letter c || ascii_digit c || (c =? 43) || (c =? 45) || (c =? 46).

Definition c0_or_space (c : char) : bool := c <=? 32.
Definition unsafe_url_char (c : char) : bool :=
  (c =? 9) || (c =? 13) || (c =? 10).

(** The scheme test of [urlsplit]: a colon at a positive index, an ASCII
    letter first, scheme characters up to the colon. *)
Definition split_scheme (url dflt : str) : str * str :=
  match find_char 58 url, url with
  | Some (S i), c0 :: _ =>
      if ascii_letter c0 && forallb scheme_char (firstn (S i) url)
      then (map ascii_lower_char (firstn (S i) url), skipn (S (S i)) url)
      else (dflt, url)
  | _, _ => (dflt, url)
  end.

Definition netloc_delim (c : char) : bool :=
  (c =? 47) || (c =? 63) || (c =? 35).

Section WithLib.
Variable L : Lib.

Definition check_brackets (nl : str) : result unit :=
  let has_open := has_char 91 nl in
  let has_close := has_char 93 nl in
  if (has_open && negb has_close) || (has_close && negb has_open)
  then Raise (ValueError (u "Invalid IPv6 URL"))
  else if has_open && has_close
  then
    let bracketed_host := fst (split_once 93 (snd (split_once 91 nl))) in
    if bracketed_host_rejects L bracketed_host
    then Raise (ValueError (u "invalid bracketed host"))
    else Ok tt
  else Ok tt.

Definition checknetloc (nl : str) : result unit :=
  if is_empty nl || forallb is_ascii nl then Ok tt
  else if nfkc_rejects L nl
  then Raise (ValueError (u "netloc contains invalid characters under NFKC normalization"))
  else Ok tt.

(** [urlsplit(url, scheme)]: scheme, netloc, path, query, fragment. *)
Definition urlsplit (url0 scheme0 : str)
    : result (str * str * str * str * str) :=
  let url := remove_chars unsafe_url_char (lstrip_by c0_or_space url0) in
  let dflt := remove_chars unsafe_url_char (strip_by c0_or_space scheme0) in
  let '(sch, url) := split_scheme url dflt in
  do (nl, url) <-
    (if startswith url (u "//")
     then let '(nl, rest) := span_until netloc_delim (skipn 2 url) in
          do _ <- check_brackets nl ;; Ok (nl, rest)
     else Ok ([], url)) ;;
  let '(url, frag) :=
    if has_char 35 url then split_once 35 url else (url, []) in
  let '(url, qry) :=
    if has_char 63 url then split_once 63 url else (url, []) in
  do _ <- checknetloc nl ;;
  Ok (sch, nl, url, qry, frag).

Definition splitparams (url : str) : str * str :=
  if has_char 47 url then
    let last_seg := rev (fst (split_once 47 (rev url))) in
    let head := firstn (length url - length last_seg) url in
    if has_char 59 last_seg
    then let '(a, b) := split_once 59 last_seg in (head ++ a, b)
    else (url, [])
  else split_once 59 url.

(** [urlparse(url, scheme)]. *)
Definition urlparse (url scheme0 : str) : result parsed :=
  do (sch, nl, p, qry, frag) <- urlsplit url scheme0 ;;
  let '(p, prm) :=
    if mem sch uses_params && has_char 59 p then splitparams p else (p, []) in
  Ok {| scheme := sch; netloc := nl; path := p; params := prm;
        query := qry; fragment := frag |}.

End WithLib.

Definition urlunsplit (sch nl url qry frag : str) : str :=
  let url :=
    if negb (is_empty nl)
       || (negb (is_empty sch) && mem sch uses_netloc
           && negb (startswith url (u "//")))
    then
      let url := if negb (is_empty url) && negb (startswith url (u "/"))
                 then u "/" ++ url else url in
      u "//" ++ nl ++ url
    else url in
  let url := if negb (is_empty sch) then sch ++ u ":" ++ url else url in
  let url := if negb (is_empty qry) then url ++ u "?" ++ qry else url in
  if negb (is_empty frag) then url ++ u "#" ++ frag else url.

Definition urlunparse (p : parsed) : str :=
  let url := if negb (is_empty (params p))
             then path p ++ u ";" ++ params p else path p in
  urlunsplit (scheme p) (netloc p) url (query p) (fragment p).

(** [segments[1:-1] = filter(None, segments[1:-1])]. *)
Definition filter_middle (l : list str) : list str :=
  match l with
  | [] => []
  | a :: t =>
      match rev t with
      | [] => [a]
      | z :: m => a :: filter (fun s => negb (is_empty s)) (rev m) ++ [z]
      end
  end.

(** The dot-segment loop of [urljoin]; the stack is kept last-first. *)
Definition resolve_segments (segments : list str) : list str :=
  rev (fold_left
         (fun stack seg =>
            if str_eqb seg (u "..") then tl stack
            else if str_eqb seg (u ".") then stack
            else seg :: stack)
         segments []).

Section WithLib.
Variable L : Lib.

(** [urljoin(base, url)]. *)
Definition urljoin (base url : str) : result str :=
  if is_empty base then Ok url
  else if is_empty url then Ok base
  else
    do b <- urlparse L base [] ;;
    do p <- urlparse L url (scheme b) ;;
    if negb (str_eqb (scheme p) (scheme b)) || negb (mem (scheme p) uses_relative)
    then Ok url
    else if mem (scheme p) uses_netloc && negb (is_empty (netloc p))
    then Ok (urlunparse p)
    else
      let nl := if mem (scheme p) uses_netloc then netloc b else netloc p in
      if is_empty (path p) && is_empty (params p)
      then
        Ok (urlunparse
              {| scheme := scheme p; netloc := nl; path := path b;
                 params := params b;
                 query := if is_empty (query p) then query b else query p;
                 fragment := fragment p |})
      else
        let base_parts := split 47 (path b) in
        let base_parts :=
          if is_empty (last base_parts []) then base_parts
          else removelast base_parts in
        let segments :=
          if startswith (path p) (u "/") then split 47 (path p)
          else filter_middle (base_parts ++ split 47 (path p)) in
        let resolved := resolve_segments segments in
        let resolved :=
          if str_eqb (last segments []) (u ".")
             || str_eqb (last segments []) (u "..")
          then resolved ++ [[]] else resolved in
        let joined := join (u "/") resolved in
        Ok (urlunparse
              {| scheme := scheme p; netloc := nl;
                 path := if is_empty joined then u "/" else joined;
                 params := params p; query := query p;
                 fragment := fragment p |}).

(** [unquote]. *)
Definition unquote (s : str) : str :=
  if has_char 37 s then percent_unquote L s else s.

(** [parse_qsl(qs)] with the default arguments. *)
Definition parse_qsl (qs : str) : list (str * str) :=
  flat_map
    (fun name_value =>
       if is_empty name_value then []
       else if has_char 61 name_value
       then
         let '(n, v) := split_once 61 name_value in
         if is_empty v then []
         else [(unquote (replace_char 43 32 n), unquote (replace_char 43 32 v))]
       else [])
    (split 38 qs).

(** [parse_qs(qs)]: name to the list of its values, names in order of first
    appearance. *)
Fixpoint group_pairs (pairs : list (str * str)) (d : list (str * list str))
    : list (str * list str) :=
  match pairs with
  | [] => d
  | (n, v) :: rest =>
      group_pairs rest
        (if existsb (fun e => str_eqb (fst e) n) d
         then map (fun e => if str_eqb (fst e) n
                            then (fst e, snd e ++ [v]) else e) d
         else d ++ [(n, [v])])
  end.

Definition parse_qs (qs : str) : list (str * list str) :=
  group_pairs (parse_qsl qs) [].

End WithLib.

(** [d.get(name)] on the result of [parse_qs]. *)
Fixpoint dict_get (d : list (str * list str)) (name : str)
    : option (list str) :=
  match d with
  | [] => None
  | (n, vs) :: d' => if str_eqb n name then Some vs else dict_get d' name
  end.

End Url.

(** ** Sorting and lists of Python *)

(** [l.index(x)]; [x] is always an element where the script calls it. *)
Fixpoint index_of (x : str) (l : list str) : nat :=
  match l with
  | [] => O
  | y :: l' => if str_eqb y x then O else S (index_of x l')
  end.

(** [list(dict.fromkeys(l))]: the first occurrence of each element, in
    order. *)
Definition fromkeys (l : list str) : list str :=
  fold_left (fun acc x => if mem x acc then acc else acc ++ [x]) l [].

(** Order of the key tuples [(int, int)]. *)
Definition key_le (a b : Z * nat) : bool :=
  (fst a <? fst b)%Z || ((fst a =? fst b)%Z && (snd a <=? snd b)%nat).

Fixpoint insert_by (key : str -> Z * nat) (x : str) (l : list str)
    : list str :=
  match l with
  | [] => [x]
  | y :: l' => if key_le (key x) (key y) then x :: l
               else y :: insert_by key x l'
  end.

(** [sorted(l, key=key)]: the stable sort. *)
Definition sorted (key : str -> Z * nat) (l : list str) : list str :=
  fold_right (insert_by key) [] l.

Fixpoint foldM {A B} (f : A -> B -> result A) (l : list B) (a : A)
    : result A :=
  match l with
  | [] => Ok a
  | x :: l' => do a' <- f a x ;; foldM f l' a'
  end.

(** ** The script: pure functions *)

Section Script.
Variable L : Lib.

Import Re.

(** *** [normalize_naver_url] *)

Definition normalize_naver_url (url : str) : result (str * bool) :=
  try_except
    (do p <- Url.urlparse L url [] ;;
     let host := lower L (Url.netloc p) in
     if endswith host (u "comic.naver.com") && negb (startswith host (u "m."))
     then
       if contains (Url.path p) (u "/webtoon/detail")
       then
         let new_netloc := u "m.comic.naver.com" in
         let new_url :=
           Url.urlunparse
             {| Url.scheme := if is_empty (Url.scheme p) then u "https"
                              else Url.scheme p;
                Url.netloc := new_netloc;
                Url.path := Url.path p;
                Url.params := Url.params p;
                Url.query := Url.query p;
                Url.fragment := Url.fragment p |} in
         Ok (new_url, true)
       else Ok (url, false)
     else Ok (url, false))
    (fun _ => Ok (url, false)).

(** *** [extract_image_urls] *)

Definition quote_char : char -> bool := one_of [39; 34].
Definition not_quote : char -> bool := none_of [39; 34].
Definition not_gt : char -> bool := none_of (u ">").

(** [<img[^>]+(?:data-src|data-original|data-image|src)\s*=\s*Q([^Q]+)Q[^>]*>]
    with [re.IGNORECASE], where [Q] stands for the class of the two quote
    characters (code points 39 and 34) and [^Q] for its complement. *)
Definition img_attr_pattern : regex :=
  seqs [lit_nocase (u "<img");
        plus not_gt;
        alts [lit_nocase (u "data-src"); lit_nocase (u "data-original");
              lit_nocase (u "data-image"); lit_nocase (u "src")];
        star is_space; lit (u "="); star is_space;
        Chr quote_char;
        Grp 1 (plus not_quote);
        Chr quote_char;
        star not_gt;
        lit (u ">")].

(** [/webtoon/|/episode/|/content/|/image/] *)
Definition content_path_pattern : regex :=
  alts [lit (u "/webtoon/"); lit (u "/episode/"); lit (u "/content/");
        lit (u "/image/")].

(** [/(\d{2,})/|_p(\d+)|page=(\d+)] *)
Definition sort_key_pattern : regex :=
  alts [seqs [lit (u "/"); Grp 1 (Rep true 2 None (is_digit L)); lit (u "/")];
        seqs [lit (u "_p"); Grp 2 (plus (is_digit L))];
        seqs [lit (u "page="); Grp 3 (plus (is_digit L))]].

Definition url_body_char : char -> bool :=
  fun c => not_quote c && negb (is_space c) && not_gt c.

(** [https?://B+\.(?:jpg|jpeg|png|webp)(?:\?B{0,})?] with [re.I], where [B]
    is the class of the characters that are neither a quote, nor white
    space, nor [>] (the source writes the last repetition with a star). *)
Definition bare_url_pattern : regex :=
  seqs [lit_nocase (u "http"); opt (Chr (is_nocase 115)); lit (u "://");
        plus url_body_char;
        lit (u ".");
        alts [lit_nocase (u "jpg"); lit_nocase (u "jpeg");
              lit_nocase (u "png"); lit_nocase (u "webp")];
        opt (Seq (lit (u "?")) (star url_body_char))].

(** The value of group [n], which takes part in every match of the pattern
    it is read from. *)
Definition group_text (m : mobj) (n : nat) : str :=
  match group m n with Some v => v | None => [] end.

(** The inner function [sort_key]. *)
Fixpoint first_int (gs : list (option str)) : option Z :=
  match gs with
  | [] => None
  | Some g :: gs' =>
      if is_empty g then first_int gs'
      else match py_int L g with
           | Some z => Some z
           | None => first_int gs'
           end
  | None :: gs' => first_int gs'
  end.

Definition sort_key (url : str) : Z :=
  match search sort_key_pattern url with
  | Some m =>
      match first_int [group m 1; group m 2; group m 3] with
      | Some z => z
      | None => 1000000%Z
      end
  | None => 1000000%Z
  end.

Definition trusted_host (host : str) : bool :=
  contains host (u "pstatic.net") || contains host (u "comic.naver.net")
  || contains host (u "naver.net").

(** One turn of the first loop: the state is [(urls, seen)]. *)
Definition attr_step (base : str) (st : list str * list str) (m : mobj)
    : result (list str * list str) :=
  let '(urls, seen) := st in
  let raw := group_text m 1 in
  if startswith raw (u "data:") then Ok st
  else
    do url <- Url.urljoin L base raw ;;
    do p <- Url.urlparse L url [] ;;
    let host := Url.netloc p in
    if is_empty host then Ok st
    else if negb (trusted_host host)
            && match search content_path_pattern url with
               | Some _ => false
               | None => true
               end
    then Ok st
    else if mem url seen then Ok st
    else Ok (urls ++ [url], url :: seen).

(** One turn of the second loop. *)
Definition bare_step (st : list str * list str) (m : mobj)
    : result (list str * list str) :=
  let '(urls, seen) := st in
  let url := m_text m in
  do p <- Url.urlparse L url [] ;;
  let host := Url.netloc p in
  if trusted_host host
  then if mem url seen then Ok st else Ok (urls ++ [url], url :: seen)
  else Ok st.

(** The list [urls] once both loops have run. *)
Definition collect_urls (html base : str) : result (list str) :=
  do st <- foldM (attr_step base) (finditer img_attr_pattern html) ([], []) ;;
  do st <- foldM bare_step (finditer bare_url_pattern html) st ;;
  Ok (fst st).

Definition order_urls (urls : list str) : list str :=
  sorted (fun x => (sort_key x, index_of x urls)) (fromkeys urls).

Definition extract_image_urls (html base : str) : result (list str) :=
  do urls <- collect_urls html base ;;
  Ok (order_urls urls).

(** *** [infer_ext] *)

Fixpoint first_suffix (p : str) (exts : list str) (fallback : str) : str :=
  match exts with
  | [] => fallback
  | e :: exts' => if endswith p e then e else first_suffix p exts' fallback
  end.

Definition infer_ext (url : str) : result str :=
  do p <- Url.urlparse L url [] ;;
  Ok (first_suffix (lower L (Url.path p))
        [u ".jpg"; u ".jpeg"; u ".png"; u ".webp"] (u ".jpg")).

(** *** [is_image_bytes] *)

Definition jpeg_magic : bytes := [255; 216; 255].
Definition png_magic : bytes := [137; 80; 78; 71; 13; 10; 26; 10].

Definition ctype_is_image (ctype : option str) : bool :=
  match ctype with
  | Some ct => negb (is_empty ct) && startswith (lower L ct) (u "image/")
  | None => false
  end.

Definition is_image_bytes (data : bytes) (ctype : option str) : bool :=
  if ctype_is_image ctype then true
  else
    let sig := firstn 16 data in
    (startswith sig jpeg_magic
     || startswith sig png_magic
     || (startswith sig (u "RIFF") && contains (firstn 64 data) (u "WEBP")))
    && negb (let t := lstrip_by is_space_byte sig in
             startswith t (u "<") || startswith t (u "{")
             || startswith t (u "<!")).

(** *** [slugify] *)

Definition slugify (s : str) : str :=
  let s := sub (plus (fun c => is_space c || (c =? 95))) (u "-")
               (strip_by is_space s) in
  let s := sub (plus (fun c => negb (ascii_letter c || ascii_digit c
                                     || (c =? 45)))) [] s in
  let s := sub (plus (chr_is 45)) (u "-") s in
  firstn 80 (strip_by (chr_is 45) s).

End Script.

(** *** [parse_chapter_label] *)

Record chapter_meta := {
  meta_site : str;
  meta_titleId : str;
  meta_no : str;
  meta_episode_title : option str;
  meta_episode_title_main : option str;
  meta_episode_subtitle : option str;
  meta_episode_no_extracted : option str;
  meta_url : str
}.

(** Truth value of an optional text: [None] and the empty text are false. *)
Definition truthy (o : option str) : bool :=
  match o with
  | Some s => negb (is_empty s)
  | None => false
  end.

(** [a or b] on optional texts. *)
Definition or_opt (a b : option str) : option str :=
  if truthy a then a else b.

Section Label.
Variable L : Lib.

Import Re.

Definition unescape (s : str) : str :=
  if has_char 38 s then charref_unescape L s else s.

(** [<[^>]*id=Q{id}Q[^>]*>(.*?)</[^>]+>] with [re.I | re.S], [Q] the class of
    the two quote characters. *)
Definition by_id_pattern (el_id : str) : regex :=
  seqs [lit (u "<"); star not_gt; lit_nocase (u "id="); Chr quote_char;
        lit_nocase el_id; Chr quote_char; star not_gt; lit (u ">");
        Grp 1 (Rep false 0 None any_char);
        lit (u "</"); plus not_gt; lit (u ">")].

(** [<[^>]+>] *)
Definition tag_pattern : regex := seqs [lit (u "<"); plus not_gt; lit (u ">")].

Definition extract_by_id (doc el_id : str) : option str :=
  match search (by_id_pattern el_id) doc with
  | None => None
  | Some m =>
      let inner := group_text m 1 in
      let inner := sub tag_pattern (u " ") inner in
      let inner := unescape inner in
      Some (strip_by is_space (sub (plus is_space) (u " ") inner))
  end.

(** [(\d{1,5})] *)
Definition number_pattern : regex := Grp 1 (Rep true 1 (Some 5%nat) (is_digit L)).

(** [<meta[^>]+property=Qog:titleQ[^>]+content=Q([^Q]+)Q] with [re.I]. *)
Definition og_title_pattern : regex :=
  seqs [lit_nocase (u "<meta"); plus not_gt; lit_nocase (u "property=");
        Chr quote_char; lit_nocase (u "og:title"); Chr quote_char;
        plus not_gt; lit_nocase (u "content="); Chr quote_char;
        Grp 1 (plus not_quote); Chr quote_char].

(** [<title>([^<]+)</title>] with [re.I]. *)
Definition title_pattern : regex :=
  seqs [lit_nocase (u "<title>"); Grp 1 (plus (none_of (u "<")));
        lit_nocase (u "</title>")].

(** [-\d+$] *)
Definition trailing_number_pattern : regex :=
  seqs [lit (u "-"); plus (is_digit L); Eos].

(** [qget]. *)
Definition qget (qs : list (str * list str)) (name : str) : str :=
  match Url.dict_get qs name with
  | Some (v :: _) => v
  | _ => []
  end.

(** The three title texts and the number read from the subtitle:
    [(ep_title, ep_main, ep_sub, ep_no_text)]. *)
Definition page_titles (html : option str)
    : option str * option str * option str * option str :=
  if truthy html then
    let doc := match html with Some d => d | None => [] end in
    let ep_main := extract_by_id doc (u "titleName_toolbar") in
    let ep_sub := extract_by_id doc (u "subTitle_toolbar") in
    let ep_no_text :=
      if truthy ep_sub then
        match search number_pattern
                (match ep_sub with Some t => t | None => [] end) with
        | Some mnum => group mnum 1
        | None => None
        end
      else None in
    let ep_title :=
      match search og_title_pattern doc with
      | Some m => group m 1
      | None =>
          match search title_pattern doc with
          | Some m2 => group m2 1
          | None => None
          end
      end in
    (ep_title, ep_main, ep_sub, ep_no_text)
  else (None, None, None, None).

(** The slug of the label. *)
Definition chapter_slug (ep_main ep_title : option str) : option str :=
  let slug_base := or_opt ep_main ep_title in
  let slug :=
    if truthy slug_base
    then Some (slugify (match slug_base with Some t => t | None => [] end))
    else None in
  if truthy slug
     && match search trailing_number_pattern
                (match slug with Some t => t | None => [] end) with
        | Some _ => true
        | None => false
        end
  then option_map (sub trailing_number_pattern []) slug
  else slug.

(** The label from its parts. *)
Definition compose_label (site title_id chapter_no : str) (slug : option str)
    : str :=
  let label :=
    if negb (is_empty title_id) || negb (is_empty chapter_no)
    then site ++ u "_" ++ title_id ++ u "_" ++ chapter_no
    else match or_opt slug (Some (u "episode")) with
         | Some t => t
         | None => []
         end in
  if truthy slug
  then label ++ u "_" ++ match slug with Some t => t | None => [] end
  else label.

Definition parse_chapter_label (url : str) (html : option str)
    : result (str * chapter_meta) :=
  do parsed <- Url.urlparse L url [] ;;
  let qs := Url.parse_qs L (Url.query parsed) in
  let title_id := qget qs (u "titleId") in
  let no := qget qs (u "no") in
  let site := u "naver" in
  let '(ep_title, ep_main, ep_sub, ep_no_text) := page_titles html in
  let slug := chapter_slug ep_main ep_title in
  let chapter_no :=
    match or_opt ep_no_text (Some []) with
    | Some t => if is_empty t then no else t
    | None => no
    end in
  let label := compose_label site title_id chapter_no slug in
  Ok (label,
      {| meta_site := site; meta_titleId := title_id; meta_no := no;
         meta_episode_title := ep_title; meta_episode_title_main := ep_main;
         meta_episode_subtitle := ep_sub;
         meta_episode_no_extracted := ep_no_text; meta_url := url |}).

End Label.

(** ** The world: network and files *)

(** A [pathlib.Path], as the list of its components. *)
Definition path := list str.

(** [d / name], for a [name] that is a single component. *)
Definition path_join (d : path) (name : str) : path := d ++ [name].

Fixpoint path_eqb (a b : path) : bool :=
  match a, b with
  | [], [] => true
  | x :: a', y :: b' => str_eqb x y && path_eqb a' b'
  | _, _ => false
  end.

Inductive content :=
| Text (s : str)
| Binary (b : bytes).

(** Length of the UTF-8 encoding of a text. *)
Definition utf8_char_len (c : char) : nat :=
  if c <? 128 then 1%nat else if c <? 2048 then 2%nat
  else if c <? 65536 then 3%nat else 4%nat.

Definition utf8_len (s : str) : nat :=
  fold_right (fun c n => (utf8_char_len c + n)%nat) O s.

(** [st_size]. *)
Definition content_size (c : content) : nat :=
  match c with
  | Text s => utf8_len s
  | Binary b => length b
  end.

(** A dictionary with text keys and values, first entry of a key first. *)
Definition dict := list (str * str).

Fixpoint dict_lookup (d : dict) (k : str) : option str :=
  match d with
  | [] => None
  | (k', v) :: d' => if str_eqb k' k then Some v else dict_lookup d' k
  end.

(** What one [urlopen] and [read] comes to: the body and [dict(resp.headers)],
    or the exception raised. *)
Inductive attempt :=
| Response (data : bytes) (info : dict)
| Fails (e : exn).

Inductive event :=
| EvMkdir (p : path)
| EvWriteText (p : path) (s : str)
| EvWriteBytes (p : path) (b : bytes)
| EvRequest (url : str) (hdrs : dict)
| EvSleep (seconds : Q).

Record world := {
  (** the files that exist, with their contents *)
  files : path -> option content;
  (** how the [n]-th request of the run is answered *)
  net : nat -> str -> dict -> attempt;
  (** requests made so far *)
  requests : nat;
  (** the effects performed so far, oldest first *)
  trace : list event
}.

Definition log (e : event) (w : world) : world :=
  {| files := files w; net := net w; requests := requests w;
     trace := trace w ++ [e] |}.

(** A computation of the script: it may raise, and it changes the world. *)
Definition M (A : Type) : Type := world -> result A * world.

Definition ret {A} (a : A) : M A := fun w => (Ok a, w).

Definition bindM {A B} (m : M A) (f : A -> M B) : M B :=
  fun w =>
    match m w with
    | (Ok a, w') => f a w'
    | (Raise e, w') => (Raise e, w')
    end.

Definition lift {A} (r : result A) : M A := fun w => (r, w).

(** [try: m  except Exception as e: ...], the outcome handed to the caller. *)
Definition catch {A} (m : M A) : M (result A) :=
  fun w => let '(r, w') := m w in (Ok r, w').

Notation "'io' x <- m ;; k" := (bindM m (fun x => k))
  (at level 10, x pattern, m at level 100, k at level 200).

Definition mkdir (p : path) : M unit := fun w => (Ok tt, log (EvMkdir p) w).

Definition write_file (p : path) (c : content) (e : event) : M unit :=
  fun w =>
    (Ok tt,
     log e {| files := fun p' => if path_eqb p' p then Some c else files w p';
              net := net w; requests := requests w; trace := trace w |}).

Definition write_text (p : path) (s : str) : M unit :=
  write_file p (Text s) (EvWriteText p s).

Definition write_bytes (p : path) (b : bytes) : M unit :=
  write_file p (Binary b) (EvWriteBytes p b).

Definition path_exists (p : path) : M bool :=
  fun w => (Ok (match files w p with Some _ => true | None => false end), w).

Definition stat_size (p : path) : M nat :=
  fun w => (Ok (match files w p with Some c => content_size c | None => O end), w).

Definition sleep (seconds : Q) : M unit :=
  fun w => (Ok tt, log (EvSleep seconds) w).

(** [urlopen(req)] followed by [resp.read()]. *)
Definition urlopen (url : str) (hdrs : dict) : world -> attempt * world :=
  fun w =>
    (net w (requests w) url hdrs,
     log (EvRequest url hdrs)
       {| files := files w; net := net w; requests := S (requests w);
          trace := trace w |}).

(** ** The script: effectful functions *)

Definition UA : str :=
  u "Mozilla/5.0 (Macintosh; Intel Mac OS X 14_0) AppleWebKit/537.36 (KHTML, like Gecko) Chrome/127.0.0.0 Safari/537.36".

(** The exceptions [fetch] catches: [HTTPError], [URLError], [TimeoutError],
    [ssl.SSLError]. *)
Definition caught_by_fetch (e : exn) : bool :=
  match e with
  | HTTPError _ | URLError _ | TimeoutError | SSLError => true
  | _ => false
  end.

Definition fetch_headers (referer : option str) : dict :=
  [(u "User-Agent", UA);
   (u "Accept",
    u "text/html,application/xhtml+xml,application/xml;q=0.9,image/avif,image/webp,*/*;q=0.8");
   (u "Accept-Language", u "en-US,en;q=0.9")]
  ++ (if truthy referer
      then [(u "Referer", match referer with Some r => r | None => [] end)]
      else []).

(** What follows the loop of [fetch]. *)
Definition fetch_give_up {A} (last_exc : option exn) : result A :=
  match last_exc with
  | Some e => Raise e
  | None => Raise (RuntimeError (u "fetch failed without exception"))
  end.

(** The loop [for i in range(1, attempts + 1)], with [remaining] turns to
    go. *)
Fixpoint fetch_loop (remaining : nat) (i attempts : Z) (url : str)
    (hdrs : dict) (return_info : bool) (delay : Q) (last_exc : option exn)
    : M (bytes * option dict) :=
  fun w =>
    match remaining with
    | O => (fetch_give_up last_exc, w)
    | S n =>
        match urlopen url hdrs w with
        | (Response data info, w1) =>
            (Ok (data, if return_info then Some info else None), w1)
        | (Fails e, w1) =>
            if caught_by_fetch e then
              if (i >=? attempts)%Z then (fetch_give_up (Some e), w1)
              else
                fetch_loop n (i + 1)%Z attempts url hdrs return_info
                  (delay * 2)%Q (Some e) (log (EvSleep delay) w1)
            else (Raise e, w1)
        end
    end.

(** [fetch(url, referer, binary, attempts=..., return_info=...)]; without
    [return_info] the second component is [None].  ([binary] is not used by
    the source; the time-out is part of how the world answers.) *)
Definition fetch (url : str) (referer : option str) (attempts : Z)
    (return_info : bool) : M (bytes * option dict) :=
  fetch_loop (Z.to_nat attempts) 1%Z attempts url (fetch_headers referer)
    return_info (1 # 2)%Q None.

Record image_meta := {
  meta_index : nat;
  meta_filename : str;
  meta_image_url : str;
  meta_size : nat
}.

Fixpoint uint_chars (d : Decimal.uint) : str :=
  match d with
  | Decimal.Nil => []
  | Decimal.D0 d' => 48 :: uint_chars d'
  | Decimal.D1 d' => 49 :: uint_chars d'
  | Decimal.D2 d' => 50 :: uint_chars d'
  | Decimal.D3 d' => 51 :: uint_chars d'
  | Decimal.D4 d' => 52 :: uint_chars d'
  | Decimal.D5 d' => 53 :: uint_chars d'
  | Decimal.D6 d' => 54 :: uint_chars d'
  | Decimal.D7 d' => 55 :: uint_chars d'
  | Decimal.D8 d' => 56 :: uint_chars d'
  | Decimal.D9 d' => 57 :: uint_chars d'
  end.

(** [str(n)]. *)
Definition str_of_nat (n : nat) : str := uint_chars (Nat.to_uint n).

(** The format [{n:0{pad}d}]. *)
Definition zero_pad (pad n : nat) : str :=
  let digits := str_of_nat n in
  repeat 48 (pad - length digits) ++ digits.

(** [info.get("Content-Type") if isinstance(info, dict) else None]. *)
Definition content_type (info : option dict) : option str :=
  match info with
  | Some d => dict_lookup d (u "Content-Type")
  | None => None
  end.

Section Download.
Variable L : Lib.

Variable dest_dir : path.
Variable referer : str.
Variable overwrite : bool.
Variable pad : nat.

(** The body of the loop [for idx, u in enumerate(urls, 1)]: the path and the
    record to append, or [None] where the source goes on to the next item
    without appending. *)
Definition download_item (idx : nat) (url : str)
    : M (option (path * image_meta)) :=
  io ext <- lift (infer_ext L url) ;;
  let name := zero_pad pad idx ++ ext in
  let out := path_join dest_dir name in
  io there <- path_exists out ;;
  if there && negb overwrite then
    io size <- stat_size out ;;
    ret (Some (out, {| meta_index := idx; meta_filename := name;
                       meta_image_url := url; meta_size := size |}))
  else
    io got <- catch (fetch url (Some referer) 3 true) ;;
    match got with
    | Raise _ => ret None
    | Ok (data, info) =>
        let ctype := content_type info in
        if negb (is_image_bytes L data ctype) then ret None
        else
          io _ <- write_bytes out data ;;
          let size := length data in
          io _ <- sleep (1 # 20)%Q ;;
          ret (Some (out, {| meta_index := idx; meta_filename := name;
                             meta_image_url := url; meta_size := size |}))
    end.

(** The loop, from index [idx] on. *)
Fixpoint download_loop (urls : list str) (idx : nat) (saved_paths : list path)
    (metas : list image_meta) : M (list path * list image_meta) :=
  match urls with
  | [] => ret (saved_paths, metas)
  | url :: rest =>
      io kept <- download_item idx url ;;
      match kept with
      | Some (out, m) =>
          download_loop rest (S idx) (saved_paths ++ [out]) (metas ++ [m])
      | None => download_loop rest (S idx) saved_paths metas
      end
  end.

End Download.

Definition download_images (L : Lib) (urls : list str) (dest_dir : path)
    (referer : str) (overwrite : bool) (meta_dir : option path)
    : M (list path * list image_meta) :=
  io _ <- mkdir dest_dir ;;
  let meta_dir := match meta_dir with Some d => d | None => dest_dir end in
  io _ <- mkdir meta_dir ;;
  let total := length urls in
  let pad := Nat.max 3 (length (str_of_nat total)) in
  io _ <- write_text (path_join meta_dir (u ".urls.txt"))
         (join [10] urls ++ [10]) ;;
  download_loop L dest_dir referer overwrite pad urls 1 [] [].

(** ** Vocabulary of the statements *)

(** *** Normalizer *)

(** The page the normalizer recognises: a host that ends in
    [comic.naver.com] and does not start with [m.], and a path that contains
    [/webtoon/detail]. *)
Definition is_desktop_detail (L : Lib) (url : str) : bool :=
  match Url.urlparse L url [] with
  | Ok p =>
      let host := lower L (Url.netloc p) in
      endswith host (u "comic.naver.com") && negb (startswith host (u "m."))
      && contains (Url.path p) (u "/webtoon/detail")
  | Raise _ => false
  end.

Definition desktop_url : str :=
  u "https://comic.naver.com/webtoon/detail?titleId=1&no=5".
Definition mobile_url : str :=
  u "https://m.comic.naver.com/webtoon/detail?titleId=1&no=5".

(** *** Fetcher *)

(** The delay before retry [k] (from 0): half a second, doubled [k] times. *)
Definition backoff (k : nat) : Q := Qmake (2 ^ Z.of_nat k) 2.

(** The effects of [n] attempts that all fail, the first sleep being
    [backoff k]: a request, a sleep, a request, ..., a request. *)
Fixpoint retry_events (url : str) (hdrs : dict) (k n : nat) : list event :=
  match n with
  | O => []
  | S O => [EvRequest url hdrs]
  | S n' =>
      EvRequest url hdrs :: EvSleep (backoff k)
      :: retry_events url hdrs (S k) n'
  end.

Definition sleeps (evs : list event) : list Q :=
  flat_map (fun e => match e with EvSleep d => [d] | _ => [] end) evs.

Definition request_count (evs : list event) : nat :=
  length (filter (fun e => match e with EvRequest _ _ => true | _ => false end)
            evs).

(** A world where every request times out. *)
Definition dead_network : world :=
  {| files := fun _ => None;
     net := fun _ _ _ => Fails TimeoutError;
     requests := O;
     trace := [] |}.

(** *** Download orchestrator *)

(** [w'] is [w] after some more effects. *)
Definition extends (w w' : world) : Prop :=
  exists evs, trace w' = trace w ++ evs.

Definition out_of (dest_dir : path) (r : image_meta) : path :=
  path_join dest_dir (meta_filename r).

(** The record was appended on the skip path: the target existed and
    overwriting is off. *)
Definition kept_existing (overwrite : bool) (w : world) (out : path)
    (r : image_meta) : Prop :=
  overwrite = false
  /\ exists c, files w out = Some c /\ meta_size r = content_size c.

(** The record was appended after a fetch whose payload passed
    [is_image_bytes]. *)
Definition kept_downloaded (L : Lib) (referer : str) (w : world)
    (r : image_meta) : Prop :=
  exists data info w1,
    fetch (meta_image_url r) (Some referer) 3 true w = (Ok (data, info), w1)
    /\ is_image_bytes L data (content_type info) = true
    /\ meta_size r = length data.

Definition justified (L : Lib) (dest_dir : path) (referer : str)
    (overwrite : bool) (w : world) (r : image_meta) : Prop :=
  kept_existing overwrite w (out_of dest_dir r) r
  \/ kept_downloaded L referer w r.

Definition meta_dir_of (dest_dir : path) (meta_dir : option path) : path :=
  match meta_dir with Some d => d | None => dest_dir end.

Definition pad_of (urls : list str) : nat :=
  Nat.max 3 (length (str_of_nat (length urls))).

Definition listing_path (dest_dir : path) (meta_dir : option path) : path :=
  path_join (meta_dir_of dest_dir meta_dir) (u ".urls.txt").

(** The world once [download_images] has made its directories and written
    the listing. *)
Definition listing_written (urls : list str) (dest_dir : path)
    (meta_dir : option path) (w : world) : world :=
  snd (write_text (listing_path dest_dir meta_dir) (join [10] urls ++ [10])
         (log (EvMkdir (meta_dir_of dest_dir meta_dir))
            (log (EvMkdir dest_dir) w))).

(** The world in which item [k + 1] of [urls] is processed. *)
Definition world_before (L : Lib) (urls : list str) (dest_dir : path)
    (referer : str) (overwrite : bool) (meta_dir : option path) (w : world)
    (k : nat) : world :=
  snd (download_loop L dest_dir referer overwrite (pad_of urls)
         (firstn k urls) 1 [] []
         (listing_written urls dest_dir meta_dir w)).

(** *** Extractor *)

(** The candidate one match of the attribute scan contributes, before
    deduplication. *)
Definition attr_candidate (L : Lib) (base : str) (m : Re.mobj)
    : result (option str) :=
  let raw := group_text m 1 in
  if startswith raw (u "data:") then Ok None
  else
    do url <- Url.urljoin L base raw ;;
    do p <- Url.urlparse L url [] ;;
    let host := Url.netloc p in
    if is_empty host then Ok None
    else if negb (trusted_host host)
            && match Re.search content_path_pattern url with
               | Some _ => false
               | None => true
               end
    then Ok None
    else Ok (Some url).

(** The candidate one match of the bare-URL scan contributes. *)
Definition bare_candidate (L : Lib) (m : Re.mobj) : result (option str) :=
  let url := Re.m_text m in
  do p <- Url.urlparse L url [] ;;
  if trusted_host (Url.netloc p) then Ok (Some url) else Ok None.

Fixpoint candidates_of (f : Re.mobj -> result (option str))
    (ms : list Re.mobj) : result (list str) :=
  match ms with
  | [] => Ok []
  | m :: ms' =>
      do c <- f m ;;
      do cs <- candidates_of f ms' ;;
      Ok (match c with Some x => x :: cs | None => cs end)
  end.

(** Every candidate of the page, in the order the two scans meet them,
    duplicates included. *)
Definition candidates (L : Lib) (html base : str) : result (list str) :=
  do cs1 <- candidates_of (attr_candidate L base)
              (Re.finditer img_attr_pattern html) ;;
  do cs2 <- candidates_of (bare_candidate L)
              (Re.finditer (bare_url_pattern) html) ;;
  Ok (cs1 ++ cs2).

Definition add_seen (st : list str * list str) (url : str)
    : list str * list str :=
  if mem url (snd st) then st else (fst st ++ [url], url :: snd st).

Definition add_opt (st : list str * list str) (c : option str)
    : list str * list str :=
  match c with Some url => add_seen st url | None => st end.

(** The sort key of [extract_image_urls]: the guessed page number, then the
    first-seen position. *)
Definition url_key (L : Lib) (urls : list str) (x : str) : Z * nat :=
  (sort_key L x, index_of x urls).

Definition key_leP (key : str -> Z * nat) (a b : str) : Prop :=
  key_le (key a) (key b) = true.

(** The values the attribute scan reads, tag after tag. *)
Definition img_attr_values (html : str) : list str :=
  map (fun m => group_text m 1) (Re.finditer img_attr_pattern html).

(** An attribute value as it stands between double quotes in a tag: not
    empty, free of quotes and of [>], and not ending in [=] or white
    space. *)
Definition attr_value (v : str) : Prop :=
  v <> []
  /\ Forall (fun c => not_quote c = true /\ not_gt c = true) v
  /\ (forall v0 c, v = v0 ++ [c] -> c <> 61 /\ is_space c = false).

Definition attr_valueb (v : str) : bool :=
  negb (is_empty v)
  && forallb (fun c => not_quote c && not_gt c) v
  && negb (last v 0 =? 61) && negb (is_space (last v 0)).

(** The part of [img_attr_pattern] that follows [<img[^>]+]. *)
Definition img_attr_tail : Re.regex :=
  Re.seqs [Re.alts [Re.lit_nocase (u "data-src");
                    Re.lit_nocase (u "data-original");
                    Re.lit_nocase (u "data-image"); Re.lit_nocase (u "src")];
           Re.star is_space; Re.lit (u "="); Re.star is_space;
           Re.Chr quote_char;
           Re.Grp 1 (Re.plus not_quote);
           Re.Chr quote_char;
           Re.star not_gt;
           Re.lit (u ">")].

(** The repetition stops at [t]: [t] is empty or its first character is not
    in the class. *)
Definition stops (p : char -> bool) (t : str) : Prop :=
  match t with
  | [] => True
  | y :: _ => p y = false
  end.

(** [<img data-src="lazy" src="plain">] *)
Definition tag_lazy_first (lazy plain : str) : str :=
  u "<img data-src=" ++ [34] ++ lazy ++ [34] ++ u " src=" ++ [34] ++ plain
  ++ [34] ++ u ">".

(** [<img src="plain" data-src="lazy">] *)
Definition tag_plain_first (lazy plain : str) : str :=
  u "<img src=" ++ [34] ++ plain ++ [34] ++ u " data-src=" ++ [34] ++ lazy
  ++ [34] ++ u ">".

(** *** Chapter label *)

(** The characters [slugify] lets through. *)
Definition slug_char (c : char) : bool :=
  ascii_letter c || ascii_digit c || (c =? 45).

(** A path separator. *)
Definition separator (c : char) : bool := (c =? 47) || (c =? 92).

(** *** Regular expressions: the texts a pattern matches *)

Fixpoint Lang (r : Re.regex) (m : str) : Prop :=
  match r with
  | Re.Eps => m = []
  | Re.Chr p => exists x, m = [x] /\ p x = true
  | Re.Seq r1 r2 => exists a b, m = a ++ b /\ Lang r1 a /\ Lang r2 b
  | Re.Alt r1 r2 => Lang r1 m \/ Lang r2 m
  | Re.Rep _ lo hi p =>
      Forall (fun x => p x = true) m /\ (lo <= length m)%nat
      /\ match hi with Some h => (length m <= h)%nat | None => True end
  | Re.Grp _ r' => Lang r' m
  | Re.Eos => m = []
  end.

(** *** Sample inputs *)

Definition html_payload : bytes := u "<html><body>Forbidden</body></html>".

Definition page1_url : str :=
  u "https://image-comic.pstatic.net/webtoon/20230101/p1.jpg".
Definition cover_url : str :=
  u "https://image-comic.pstatic.net/webtoon/cover.jpg".

(** A page whose first image has a numeric hint above the sentinel and whose
    second image has none. *)
Definition keyed_then_unkeyed_page : str :=
  u "<img src='https://image-comic.pstatic.net/webtoon/20230101/p1.jpg'><img src='https://image-comic.pstatic.net/webtoon/cover.jpg'>".

(** A page whose images carry the page numbers 12 and 3, in that order. *)
Definition numbered_page : str :=
  u "<img src='https://image-comic.pstatic.net/webtoon/x_p12.jpg'><img src='https://image-comic.pstatic.net/webtoon/x_p3.jpg'>".
Definition page12_url : str :=
  u "https://image-comic.pstatic.net/webtoon/x_p12.jpg".
Definition page3_url : str :=
  u "https://image-comic.pstatic.net/webtoon/x_p3.jpg".

(** A page that names one image three times. *)
Definition repeated_page : str :=
  u "<img src='https://image-comic.pstatic.net/webtoon/1/01.jpg'><img data-src='https://image-comic.pstatic.net/webtoon/1/01.jpg'> https://image-comic.pstatic.net/webtoon/1/01.jpg".
Definition repeated_url : str :=
  u "https://image-comic.pstatic.net/webtoon/1/01.jpg".

(** A lazy-loading tag: the page art in [data-src], a placeholder in
    [src]. *)
Definition lazy_page : str :=
  u "<img data-src='//image-comic.pstatic.net/webtoon/1/01.jpg' src='//image-comic.pstatic.net/ui/blank.gif'>".
Definition placeholder_url : str :=
  u "https://image-comic.pstatic.net/ui/blank.gif".

Definition traversal_url : str :=
  u "https://m.comic.naver.com/webtoon/detail?titleId=1/../../x&no=5".

Definition sample_dest : path := [u "samples_in"; u "naver_1_5"].

(** A world without network where the first image is already on disk. *)
Definition resumed_world : world :=
  {| files := fun p =>
       if path_eqb p (path_join sample_dest (u "001.jpg"))
       then Some (Binary [255; 216; 255; 224]) else None;
     net := fun _ _ _ => Fails TimeoutError;
     requests := O;
     trace := [] |}.

Definition resumed_record : image_meta :=
  {| meta_index := 1; meta_filename := u "001.jpg";
     meta_image_url := repeated_url; meta_size := 4 |}.

(** A chapter page whose toolbar shows the episode number 127, reached by a
    URL that says [no=126]. *)
Definition chapter_url : str :=
  u "https://m.comic.naver.com/webtoon/detail?titleId=765804&no=126".
Definition chapter_page : str :=
  u "<title>x</title><span id='titleName_toolbar'>News Table</span><span id='subTitle_toolbar'>Ep 127</span>".
Definition chapter_page_meta : chapter_meta :=
  {| meta_site := u "naver"; meta_titleId := u "765804"; meta_no := u "126";
     meta_episode_title := Some (u "x");
     meta_episode_title_main := Some (u "News Table");
     meta_episode_subtitle := Some (u "Ep 127");
     meta_episode_no_extracted := Some (u "127");
     meta_url := chapter_url |}.

(** ** Vocabulary of the further statements *)

From Stdlib Require Import DecimalNat.

(** The extensions [infer_ext] knows, in the order it tries them. *)
Definition known_exts : list str :=
  [u ".jpg"; u ".jpeg"; u ".png"; u ".webp"].

(** The signature test of [is_image_bytes]: JPEG, PNG, or RIFF with a WEBP
    tag in the first 64 bytes. *)
Definition has_image_magic (data : bytes) : bool :=
  let sig := firstn 16 data in
  startswith sig jpeg_magic
  || startswith sig png_magic
  || (startswith sig (u "RIFF") && contains (firstn 64 data) (u "WEBP")).

(** An effect on the network side: a request or a sleep. *)
Definition is_net_event (e : event) : bool :=
  match e with
  | EvRequest _ _ | EvSleep _ => true
  | _ => false
  end.

Definition no_attempt_error : exn :=
  RuntimeError (u "fetch failed without exception").

(** A world whose network answers every request with [ValueError]. *)
Definition refusing_network : world :=
  {| files := fun _ => None;
     net := fun _ _ _ => Fails (ValueError (u "unknown url type"));
     requests := O;
     trace := [] |}.

(** The record's file name is its index, padded, and the extension
    [infer_ext] gives for its URL. *)
Definition named_by_index (L : Lib) (pad : nat) (r : image_meta) : Prop :=
  exists ext,
    infer_ext L (meta_image_url r) = Ok ext
    /\ meta_filename r = zero_pad pad (meta_index r) ++ ext.

(** The record's file exists, with the recorded size. *)
Definition on_disk (dest_dir : path) (w : world) (r : image_meta) : Prop :=
  exists c,
    files w (out_of dest_dir r) = Some c /\ content_size c = meta_size r.

(** The URL goes through [urlparse]. *)
Definition parses (L : Lib) (url : str) : Prop :=
  exists p, Url.urlparse L url [] = Ok p.

(** Where item [k] (from 0) of the list is stored when its URL gives the
    extension [ext]. *)
Definition target (dest_dir : path) (pad k : nat) (ext : str) : path :=
  path_join dest_dir (zero_pad pad (S k) ++ ext).

(** A world with no file where every request is answered with a small JPEG
    payload. *)
Definition serving_network : world :=
  {| files := fun _ => None;
     net := fun _ _ _ =>
       Response [255; 216; 255; 224] [(u "Content-Type", u "image/jpeg")];
     requests := O;
     trace := [] |}.

(** What the extractor asks of a URL it keeps: it goes through [urlparse],
    has a host, and the host is a trusted one or the URL shows one of the
    content markers. *)
Definition hosted_image (L : Lib) (url : str) : Prop :=
  exists p,
    Url.urlparse L url [] = Ok p
    /\ Url.netloc p <> []
    /\ (trusted_host (Url.netloc p) = true
        \/ exists m, Re.search content_path_pattern url = Some m).

(** A page whose two images carry no page number. *)
Definition unnumbered_page : str :=
  u "<img src='https://image-comic.pstatic.net/webtoon/b.jpg'><img src='https://image-comic.pstatic.net/webtoon/a.jpg'>".
Definition image_b_url : str :=
  u "https://image-comic.pstatic.net/webtoon/b.jpg".
Definition image_a_url : str :=
  u "https://image-comic.pstatic.net/webtoon/a.jpg".

(** What [re.sub] does with a pattern [class+]: each maximal run of
    characters of the class is replaced by [repl].  [in_run] says that the
    character before was of the class. *)
Fixpoint squeeze (p : char -> bool) (repl : str) (s : str) (in_run : bool)
    : str :=
  match s with
  | [] => []
  | x :: s' =>
      if p x
      then if in_run then squeeze p repl s' true
           else repl ++ squeeze p repl s' true
      else x :: squeeze p repl s' false
  end.

(** An ASCII letter or digit. *)
Definition ascii_alnum (c : char) : bool := ascii_letter c || ascii_digit c.

(** No two hyphens side by side. *)
Fixpoint single_hyphens (s : str) : bool :=
  match s with
  | x :: ((y :: _) as s') =>
      negb ((x =? 45) && (y =? 45)) && single_hyphens s'
  | _ => true
  end.

(** *** The attribute scan, tag by tag *)

(** The pattern holds no group. *)
Fixpoint group_free (r : Re.regex) : bool :=
  match r with
  | Re.Seq r1 r2 | Re.Alt r1 r2 => group_free r1 && group_free r2
  | Re.Grp _ _ => false
  | _ => true
  end.

(** The pattern holds no [$]. *)
Fixpoint eos_free (r : Re.regex) : bool :=
  match r with
  | Re.Seq r1 r2 | Re.Alt r1 r2 => eos_free r1 && eos_free r2
  | Re.Grp _ r' => eos_free r'
  | Re.Eos => false
  | _ => true
  end.

(** The four attribute names of [img_attr_pattern], without regard to
    case. *)
Definition src_like_name : Re.regex :=
  Re.alts [Re.lit_nocase (u "data-src"); Re.lit_nocase (u "data-original");
           Re.lit_nocase (u "data-image"); Re.lit_nocase (u "src")].

(** [text] is an assignment as the pattern reads it, with the rest of the
    tag: one of the four names, [=] with white space around it at will, the
    value [v] between two quote characters (not empty, free of quotes), and
    what follows up to the first [>]. *)
Definition assignment (text v : str) : Prop :=
  exists name ws1 ws2 q1 q2 after,
    text = name ++ ws1 ++ [61] ++ ws2 ++ [q1] ++ v ++ [q2] ++ after ++ [62]
    /\ Lang src_like_name name
    /\ Forall (fun c => is_space c = true) ws1
    /\ Forall (fun c => is_space c = true) ws2
    /\ quote_char q1 = true /\ quote_char q2 = true
    /\ v <> [] /\ Forall (fun c => not_quote c = true) v
    /\ Forall (fun c => not_gt c = true) after.

(** The texts stand in [s] one after the other, in this order, without
    overlap. *)
Fixpoint in_order (texts : list str) (s : str) : Prop :=
  match texts with
  | [] => True
  | t :: texts' =>
      exists before rest, s = before ++ t ++ rest /\ in_order texts' rest
  end.

(** What the first loop of [extract_image_urls] makes of the value [raw] it
    read from a tag: the candidate, or [None] when the value is skipped. *)
Definition value_candidate (L : Lib) (base raw : str) : result (option str) :=
  if startswith raw (u "data:") then Ok None
  else
    do url <- Url.urljoin L base raw ;;
    do p <- Url.urlparse L url [] ;;
    let host := Url.netloc p in
    if is_empty host then Ok None
    else if negb (trusted_host host)
            && match Re.search content_path_pattern url with
               | Some _ => false
               | None => true
               end
    then Ok None
    else Ok (Some url).

(** A tag with a longer attribute name that ends in [src], after a plain
    [src] and a [data-src]. *)
Definition tag_with_lazy_src : str :=
  u "<img src='P' data-src='L' data-lazy-src='X'>".

(** The match of the scan on that tag. *)
Definition lazy_src_match : Re.mobj :=
  {| Re.m_text := tag_with_lazy_src; Re.m_caps := [(1%nat, u "X")] |}.

(** *** Why a record is there, and why one is missing *)

(** The record was appended on the skip path: overwriting is off, the
    target was on disk with the recorded size, and the item changed
    nothing. *)
Definition skipped_existing (overwrite : bool) (out : path)
    (w w_after : world) (r : image_meta) : Prop :=
  overwrite = false
  /\ (exists c, files w out = Some c /\ meta_size r = content_size c)
  /\ w_after = w.

(** The record was appended after a download: the target was not to be
    kept, the fetch answered, the payload passed [is_image_bytes] and was
    written to the target, which holds it when the item is over. *)
Definition downloaded_and_written (L : Lib) (referer : str)
    (overwrite : bool) (out : path) (w w_after : world) (r : image_meta)
    : Prop :=
  (overwrite = true \/ files w out = None)
  /\ exists data info w1,
       fetch (meta_image_url r) (Some referer) 3 true w = (Ok (data, info), w1)
       /\ is_image_bytes L data (content_type info) = true
       /\ meta_size r = length data
       /\ trace w_after
          = trace w1 ++ [EvWriteBytes out data; EvSleep (1 # 20)%Q]
       /\ files w_after out = Some (Binary data).

Definition record_cause (L : Lib) (dest_dir : path) (referer : str)
    (overwrite : bool) (w w_after : world) (r : image_meta) : Prop :=
  skipped_existing overwrite (out_of dest_dir r) w w_after r
  \/ downloaded_and_written L referer overwrite (out_of dest_dir r)
       w w_after r.

(** The item left no record: its target was not to be kept, and the fetch
    raised or its payload did not pass [is_image_bytes]; nothing was
    written. *)
Definition item_dropped (L : Lib) (dest_dir : path) (referer : str)
    (overwrite : bool) (pad idx : nat) (url : str) (w w_after : world)
    : Prop :=
  exists ext,
    infer_ext L url = Ok ext
    /\ (overwrite = true
        \/ files w (path_join dest_dir (zero_pad pad idx ++ ext)) = None)
    /\ files w_after = files w
    /\ ((exists e, fetch url (Some referer) 3 true w = (Raise e, w_after))
        \/ exists data info,
             fetch url (Some referer) 3 true w = (Ok (data, info), w_after)
             /\ is_image_bytes L data (content_type info) = false).

(** A world with the third image on disk, where the first URL is answered
    with a JPEG payload and every other one with an HTML page. *)
Definition mixed_world : world :=
  {| files := fun p =>
       if path_eqb p [u "samples_in"; u "naver_1_5"; u "003.jpg"]
       then Some (Binary [255; 216; 255; 224; 0]) else None;
     net := fun _ url _ =>
       if str_eqb url (u "https://image-comic.pstatic.net/webtoon/x_p3.jpg")
       then Response [255; 216; 255; 224]
              [(u "Content-Type", u "application/octet-stream")]
       else Response (u "<html><body>Forbidden</body></html>")
              [(u "Content-Type", u "text/html")];
     requests := O;
     trace := [] |}.

Definition mixed_urls : list str := [page3_url; page12_url; cover_url].

Definition mixed_records : list image_meta :=
  [{| meta_index := 1; meta_filename := u "001.jpg";
      meta_image_url := page3_url; meta_size := 4 |};
   {| meta_index := 3; meta_filename := u "003.jpg";
      meta_image_url := cover_url; meta_size := 5 |}].

(** * Properties *)

(** ** Texts and lists *)

Lemma str_eqb_eq a : forall b, str_eqb a b = true <-> a = b.
Proof.
  induction a as [|x a IH]; intros [|y b]; cbn; split; try easy.
  - rewrite andb_true_iff, N.eqb_eq, IH. now intros [-> ->].
  - intros H; inversion H; subst. now rewrite N.eqb_refl, (proj2 (IH b)).
Qed.

Lemma str_eqb_refl a : str_eqb a a = true.
Proof. now apply str_eqb_eq. Qed.

Lemma mem_In x l : mem x l = true <-> In x l.
Proof.
  unfold mem. rewrite existsb_exists. split.
  - intros [y [Hy E]]. apply str_eqb_eq in E. now subst.
  - intros H. exists x. split; [assumption|apply str_eqb_refl].
Qed.

Lemma mem_not_In x l : mem x l = false <-> ~ In x l.
Proof.
  rewrite <- mem_In. destruct (mem x l); split; congruence.
Qed.

(** ** [dict.fromkeys] keeps the first occurrences *)

Lemma fromkeys_fold_spec l : forall acc,
  NoDup acc ->
  let r := fold_left (fun acc x => if mem x acc then acc else acc ++ [x]) l acc in
  NoDup r /\ (forall x, In x r <-> In x acc \/ In x l)
  /\ (NoDup (acc ++ l) -> r = acc ++ l).
Proof.
  induction l as [|y l IH]; intros acc Hacc; cbn.
  - split; [assumption|]. split; [intros x; tauto|]. now rewrite app_nil_r.
  - destruct (mem y acc) eqn:Hm.
    + destruct (IH acc Hacc) as [H1 [H2 H3]]. split; [exact H1|].
      split.
      * intros x. rewrite H2. apply mem_In in Hm. split; [tauto|].
        intros [H|[<-|H]]; tauto.
      * intros Hnd. exfalso. apply mem_In in Hm.
        apply NoDup_remove_2 in Hnd. apply Hnd. apply in_or_app. now left.
    + assert (Hacc' : NoDup (acc ++ [y])).
      { apply NoDup_app; [assumption|repeat constructor; easy|].
        intros x Hx [<-|[]]. apply mem_not_In in Hm. contradiction. }
      destruct (IH _ Hacc') as [H1 [H2 H3]]. split; [exact H1|].
      split.
      * intros x. rewrite H2, in_app_iff. cbn. tauto.
      * intros Hnd. rewrite <- app_assoc in H3. cbn in H3. now apply H3.
Qed.

Lemma fromkeys_NoDup l : NoDup (fromkeys l).
Proof. apply (fromkeys_fold_spec l [] (NoDup_nil _)). Qed.

Lemma fromkeys_In l x : In x (fromkeys l) <-> In x l.
Proof.
  destruct (fromkeys_fold_spec l [] (NoDup_nil _)) as [_ [H _]].
  unfold fromkeys. rewrite H. cbn. tauto.
Qed.

Lemma fromkeys_id l : NoDup l -> fromkeys l = l.
Proof.
  intros H. now apply (fromkeys_fold_spec l [] (NoDup_nil _)).
Qed.

(** ** [sorted] is a stable insertion: a sorted permutation *)

Lemma key_le_spec a b :
  key_le a b = true <->
  (fst a < fst b)%Z \/ (fst a = fst b /\ (snd a <= snd b)%nat).
Proof.
  unfold key_le.
  rewrite orb_true_iff, andb_true_iff, Z.ltb_lt, Z.eqb_eq, Nat.leb_le. tauto.
Qed.

Lemma key_le_total a b : key_le a b = false -> key_le b a = true.
Proof.
  intros H. apply key_le_spec.
  assert (N : ~ ((fst a < fst b)%Z \/ (fst a = fst b /\ (snd a <= snd b)%nat))).
  { rewrite <- key_le_spec. congruence. }
  lia.
Qed.

Lemma key_le_trans a b c :
  key_le a b = true -> key_le b c = true -> key_le a c = true.
Proof. rewrite !key_le_spec. lia. Qed.

Lemma insert_by_perm key x l : Permutation (insert_by key x l) (x :: l).
Proof.
  induction l as [|y l IH]; cbn; [reflexivity|].
  destruct (key_le (key x) (key y)); [reflexivity|].
  rewrite IH. apply perm_swap.
Qed.

Lemma sorted_perm key l : Permutation (sorted key l) l.
Proof.
  induction l as [|x l IH]; cbn; [reflexivity|].
  unfold sorted in IH. rewrite insert_by_perm. now constructor.
Qed.

Lemma insert_by_sorted key x l :
  StronglySorted (key_leP key) l ->
  StronglySorted (key_leP key) (insert_by key x l).
Proof.
  induction 1 as [|y l Hs IH Hall]; cbn; [repeat constructor|].
  destruct (key_le (key x) (key y)) eqn:E.
  - constructor; [now constructor|]. constructor; [exact E|].
    eapply Forall_impl; [|exact Hall]. intros z Hz.
    unfold key_leP in *. eapply key_le_trans; eassumption.
  - constructor; [exact IH|].
    eapply Permutation_Forall.
    + symmetry. apply insert_by_perm.
    + constructor; [|exact Hall]. now apply key_le_total.
Qed.

Lemma sorted_sorted key l : StronglySorted (key_leP key) (sorted key l).
Proof.
  induction l as [|x l IH]; cbn; [constructor|]. now apply insert_by_sorted.
Qed.

(** ** Positions in a list *)

Lemma index_of_inj l x y :
  In x l -> index_of x l = index_of y l -> x = y.
Proof.
  induction l as [|z l IH]; cbn; [easy|].
  destruct (str_eqb z x) eqn:Ex, (str_eqb z y) eqn:Ey; try discriminate.
  - apply str_eqb_eq in Ex, Ey. congruence.
  - intros [->|H] E; [now rewrite str_eqb_refl in Ex|].
    apply IH; [assumption|lia].
Qed.

(** In a sorted list, the element at the smaller position is related to the
    one at the larger position. *)
Lemma sorted_positions (R : str -> str -> Prop) l :
  StronglySorted R l ->
  forall a b, In b l -> (index_of a l < index_of b l)%nat -> R a b.
Proof.
  induction 1 as [|y l Hs IH Hall]; cbn; [easy|].
  intros a b Hb. destruct (str_eqb y a) eqn:Ea, (str_eqb y b) eqn:Eb; try lia.
  - intros _. apply str_eqb_eq in Ea. subst y.
    destruct Hb as [->|Hb]; [now rewrite str_eqb_refl in Eb|].
    rewrite Forall_forall in Hall. now apply Hall.
  - intros Hlt. destruct Hb as [->|Hb]; [now rewrite str_eqb_refl in Eb|].
    apply IH; [assumption|lia].
Qed.

(** ** The two scans of [extract_image_urls] and the candidates *)

Lemma attr_step_candidate L base st m :
  attr_step L base st m =
  do c <- attr_candidate L base m ;; Ok (add_opt st c).
Proof.
  unfold attr_step, attr_candidate. destruct st as [urls seen].
  destruct (startswith _ _); [reflexivity|].
  destruct (Url.urljoin L base _) as [url|e]; [|reflexivity]. cbn [bind].
  destruct (Url.urlparse L url []) as [p|e]; [|reflexivity]. cbn [bind].
  destruct (is_empty _); [reflexivity|].
  destruct (negb _ && _); [reflexivity|].
  cbn [bind add_opt]. unfold add_seen. cbn [fst snd].
  now destruct (mem url seen).
Qed.

Lemma bare_step_candidate L st m :
  bare_step L st m = do c <- bare_candidate L m ;; Ok (add_opt st c).
Proof.
  unfold bare_step, bare_candidate. destruct st as [urls seen].
  destruct (Url.urlparse L _ []) as [p|e]; [|reflexivity]. cbn [bind].
  destruct (trusted_host _); [|reflexivity].
  cbn [bind add_opt]. unfold add_seen. cbn [fst snd].
  now destruct (mem _ seen).
Qed.

Lemma foldM_candidates
    (step : list str * list str -> Re.mobj -> result (list str * list str)) f :
  (forall st m, step st m = do c <- f m ;; Ok (add_opt st c)) ->
  forall ms st,
    foldM step ms st =
    do cs <- candidates_of f ms ;; Ok (fold_left add_seen cs st).
Proof.
  intros Hstep. induction ms as [|m ms IH]; intros st; cbn [foldM candidates_of].
  - reflexivity.
  - rewrite Hstep. destruct (f m) as [c|e]; [|reflexivity]. cbn [bind].
    rewrite IH. destruct (candidates_of f ms) as [cs|e]; [|reflexivity].
    cbn [bind]. now destruct c.
Qed.

Lemma add_seen_fromkeys cs : forall urls seen,
  (forall x, In x seen <-> In x urls) ->
  fst (fold_left add_seen cs (urls, seen)) =
  fold_left (fun acc x => if mem x acc then acc else acc ++ [x]) cs urls.
Proof.
  induction cs as [|c cs IH]; intros urls seen Hseen; cbn [fold_left].
  - reflexivity.
  - unfold add_seen at 2. cbn [fst snd].
    assert (E : mem c seen = mem c urls).
    { destruct (mem c urls) eqn:Hu.
      - apply mem_In. apply Hseen. now apply mem_In.
      - apply mem_not_In. rewrite Hseen. now apply mem_not_In. }
    rewrite E. destruct (mem c urls); [now apply IH|].
    apply IH. intros x. cbn. rewrite in_app_iff, Hseen. cbn. tauto.
Qed.

(** The list [urls] of the source is the candidates of both scans with
    later duplicates dropped. *)
Lemma collect_urls_fromkeys L html base :
  collect_urls L html base =
  do cs <- candidates L html base ;; Ok (fromkeys cs).
Proof.
  unfold collect_urls, candidates.
  rewrite (foldM_candidates _ _ (attr_step_candidate L base)).
  destruct (candidates_of _ _) as [cs1|e]; [|reflexivity]. cbn [bind].
  rewrite (foldM_candidates _ _ (bare_step_candidate L)).
  destruct (candidates_of _ _) as [cs2|e]; [|reflexivity]. cbn [bind].
  f_equal. rewrite <- fold_left_app. now apply add_seen_fromkeys.
Qed.

Lemma order_urls_spec L urls :
  NoDup urls ->
  NoDup (order_urls L urls) /\ Permutation (order_urls L urls) urls
  /\ StronglySorted (key_leP (url_key L urls)) (order_urls L urls).
Proof.
  intros Hnd. unfold order_urls. rewrite (fromkeys_id _ Hnd).
  split; [|split].
  - eapply Permutation_NoDup; [|exact Hnd]. symmetry. apply sorted_perm.
  - apply sorted_perm.
  - apply sorted_sorted.
Qed.

(** What [extract_image_urls] returns: the deduplicated candidates, sorted
    by guessed page number and then by first-seen position. *)
Lemma extract_image_urls_spec L html base out :
  extract_image_urls L html base = Ok out ->
  exists cs,
    candidates L html base = Ok cs
    /\ NoDup out
    /\ Permutation out (fromkeys cs)
    /\ StronglySorted (key_leP (url_key L (fromkeys cs))) out.
Proof.
  unfold extract_image_urls. rewrite collect_urls_fromkeys.
  destruct (candidates L html base) as [cs|e]; [|discriminate]. cbn [bind].
  intros H. inversion H; subst; clear H.
  destruct (order_urls_spec L (fromkeys cs) (fromkeys_NoDup cs)) as [H1 [H2 H3]].
  exists cs. repeat split; assumption.
Qed.

(** A URL with the smaller guessed page number stands first. *)
Lemma extract_image_urls_key_order L html base out a b :
  extract_image_urls L html base = Ok out ->
  In a out -> In b out -> (sort_key L a < sort_key L b)%Z ->
  (index_of a out < index_of b out)%nat.
Proof.
  intros H Ha Hb Hlt.
  destruct (extract_image_urls_spec _ _ _ _ H) as [cs [_ [_ [_ Hs]]]].
  destruct (Nat.lt_trichotomy (index_of a out) (index_of b out)) as [Hi|[Hi|Hi]].
  - exact Hi.
  - apply (index_of_inj out a b Ha) in Hi. subst. lia.
  - pose proof (sorted_positions _ _ Hs b a Ha Hi) as Hk.
    unfold key_leP in Hk. apply key_le_spec in Hk. unfold url_key in Hk.
    cbn [fst snd] in Hk. lia.
Qed.

(** ** Payload validation *)

(** The two payloads of the validation example, as the code treats them: a
    payload that starts with the JPEG magic [FF D8 FF] is accepted when no
    content type is declared; a payload that starts with [<html] is rejected
    whenever the declared content type is absent or does not start with
    [image/], and goes through when the declared content type is
    [image/jpeg]. *)
Lemma is_image_bytes_magic_and_markup (L : Lib) (rest : bytes)
    (ctype : option str) :
  is_image_bytes L (jpeg_magic ++ rest) None = true
  /\ is_image_bytes L (u "<html" ++ rest) (Some (u "image/jpeg")) = true
  /\ (ctype_is_image L ctype = false ->
      is_image_bytes L (u "<html" ++ rest) ctype = false).
Proof.
  split; [|split].
  - vm_compute. reflexivity.
  - vm_compute. reflexivity.
  - intros H. unfold is_image_bytes. rewrite H. vm_compute. reflexivity.
Qed.

(** C1 fails on the code: an HTML error page declared [image/jpeg] is
    accepted.  The test for leading markup is there (the last line of
    [is_image_bytes]) but stands behind the early return on the content
    type, on the signature branch alone. *)
Lemma is_image_bytes_accepts_markup_as_jpeg :
  is_image_bytes ascii_lib html_payload (Some (u "image/jpeg")) = true
  /\ startswith html_payload (u "<html") = true.
Proof. split; vm_compute; reflexivity. Qed.

(** ** URL normalizer *)

Lemma normalize_naver_url_total L url :
  exists r, normalize_naver_url L url = Ok r.
Proof.
  unfold normalize_naver_url.
  destruct (Url.urlparse L url []) as [p|e]; cbn [bind try_except].
  - destruct (_ && _); [destruct (contains _ _)|]; cbn; eauto.
  - eauto.
Qed.

(** C6: the desktop detail page of the spec is rewritten to the mobile host
    with path and query kept; a URL that is not a desktop detail page (the
    mobile URL for one) comes back unchanged with [false]; no input makes the
    normalizer raise. *)
Theorem normalize_naver_url_spec (L : Lib) (url : str) :
  normalize_naver_url L desktop_url = Ok (mobile_url, true)
  /\ normalize_naver_url L mobile_url = Ok (mobile_url, false)
  /\ (exists r, normalize_naver_url L url = Ok r)
  /\ (is_desktop_detail L url = false ->
      normalize_naver_url L url = Ok (url, false))
  /\ (is_desktop_detail L url = true ->
      exists p,
        Url.urlparse L url [] = Ok p
        /\ normalize_naver_url L url =
           Ok (Url.urlunparse
                 {| Url.scheme := if is_empty (Url.scheme p) then u "https"
                                  else Url.scheme p;
                    Url.netloc := u "m.comic.naver.com";
                    Url.path := Url.path p;
                    Url.params := Url.params p;
                    Url.query := Url.query p;
                    Url.fragment := Url.fragment p |}, true)).
Proof.
  split; [vm_compute; reflexivity|].
  split; [vm_compute; reflexivity|].
  split; [apply normalize_naver_url_total|].
  unfold normalize_naver_url, is_desktop_detail.
  destruct (Url.urlparse L url []) as [p|e]; cbn [bind try_except].
  - cbv zeta. destruct (endswith _ _ && negb _); cbn [andb].
    + split.
      * intros ->. reflexivity.
      * intros ->. exists p. split; reflexivity.
    + split; [reflexivity|discriminate].
  - split; [reflexivity|discriminate].
Qed.

Lemma normalize_naver_url_spec_witness :
  normalize_naver_url ascii_lib mobile_url = Ok (mobile_url, false).
Proof.
  apply (normalize_naver_url_spec ascii_lib mobile_url).
  vm_compute. reflexivity.
Defined.

(** ** Fetcher *)

Lemma backoff_double k : (backoff k * 2)%Q = backoff (S k).
Proof.
  unfold backoff, Qmult. cbn [Qnum Qden].
  f_equal.
  rewrite Nat2Z.inj_succ, Z.pow_succ_r by lia. lia.
Qed.

Lemma retry_events_S url hdrs k n :
  retry_events url hdrs k (S (S n)) =
  EvRequest url hdrs :: EvSleep (backoff k)
  :: retry_events url hdrs (S k) (S n).
Proof. reflexivity. Qed.

Lemma retry_events_requests url hdrs n :
  forall k, request_count (retry_events url hdrs k n) = n.
Proof.
  induction n as [|[|n] IH]; intros k; try reflexivity.
  rewrite retry_events_S. unfold request_count in *.
  cbn [filter length]. now rewrite IH.
Qed.

Lemma retry_events_sleeps url hdrs n :
  forall k, sleeps (retry_events url hdrs k n) = map backoff (seq k (n - 1)).
Proof.
  induction n as [|[|n] IH]; intros k; try reflexivity.
  rewrite retry_events_S. unfold sleeps in *.
  cbn [flat_map app]. rewrite IH. cbn. now rewrite Nat.sub_0_r.
Qed.

(** Every attempt fails with an exception [fetch] catches: the loop makes all
    its attempts, sleeping in between, and raises the last exception. *)
Lemma fetch_loop_exhausted url hdrs ri attempts :
  forall n i k last w,
    (Z.of_nat n + i = attempts + 1)%Z -> (1 <= n)%nat ->
    (forall j, (j < n)%nat -> exists e,
        net w (requests w + j)%nat url hdrs = Fails e
        /\ caught_by_fetch e = true) ->
    exists e w',
      fetch_loop n i attempts url hdrs ri (backoff k) last w = (Raise e, w')
      /\ net w (requests w + (n - 1))%nat url hdrs = Fails e
      /\ trace w' = trace w ++ retry_events url hdrs k n.
Proof.
  induction n as [|n IH]; intros i k last w Hi Hn Hfail; [lia|].
  destruct (Hfail O ltac:(lia)) as [e [He Hc]].
  rewrite Nat.add_0_r in He.
  cbn [fetch_loop]. unfold urlopen. rewrite He, Hc.
  destruct n as [|n].
  - assert (Hge : (i >=? attempts)%Z = true) by lia.
    rewrite Hge. exists e. eexists. split; [reflexivity|].
    unfold log. cbn [trace retry_events Nat.sub].
    rewrite Nat.add_0_r. split; [assumption|reflexivity].
  - assert (Hlt : (i >=? attempts)%Z = false) by lia.
    rewrite Hlt, backoff_double.
    match goal with
    | |- context [fetch_loop _ _ _ _ _ _ _ _ ?w1] => set (w1' := w1)
    end.
    destruct (IH (i + 1)%Z (S k) (Some e) w1') as [e' [w' [Hrun [Hlast Htr]]]].
    + lia.
    + lia.
    + intros j Hj. destruct (Hfail (S j) ltac:(lia)) as [e2 [He2 Hc2]].
      exists e2. split; [|assumption]. subst w1'. unfold log.
      cbn [trace requests files net].
      replace (S (requests w) + j)%nat with (requests w + S j)%nat by lia.
      assumption.
    + exists e', w'. split; [exact Hrun|].
      subst w1'. unfold log in Hlast, Htr.
      cbn [trace requests files net] in Hlast, Htr.
      replace (requests w + (S (S n) - 1))%nat
        with (S (requests w) + (S n - 1))%nat by lia.
      split; [assumption|].
      rewrite Htr, retry_events_S, <- !app_assoc. reflexivity.
Qed.

(** [k] attempts fail with an exception [fetch] catches and the next one is
    answered: the loop returns the answer after [k] sleeps. *)
Lemma fetch_loop_answered url hdrs ri attempts data info :
  forall k n i j last w,
    (Z.of_nat n + i = attempts + 1)%Z -> (k < n)%nat ->
    (forall a, (a < k)%nat -> exists e,
        net w (requests w + a)%nat url hdrs = Fails e
        /\ caught_by_fetch e = true) ->
    net w (requests w + k)%nat url hdrs = Response data info ->
    exists w',
      fetch_loop n i attempts url hdrs ri (backoff j) last w
      = (Ok (data, if ri then Some info else None), w')
      /\ trace w' = trace w ++ retry_events url hdrs j (S k).
Proof.
  induction k as [|k IH]; intros n i j last w Hi Hn Hfail Hok.
  - destruct n as [|n]; [lia|].
    rewrite Nat.add_0_r in Hok.
    cbn [fetch_loop]. unfold urlopen. rewrite Hok.
    eexists. split; reflexivity.
  - destruct n as [|n]; [lia|].
    destruct (Hfail O ltac:(lia)) as [e [He Hc]].
    rewrite Nat.add_0_r in He.
    cbn [fetch_loop]. unfold urlopen. rewrite He, Hc.
    assert (Hlt : (i >=? attempts)%Z = false) by lia.
    rewrite Hlt, backoff_double.
    match goal with
    | |- context [fetch_loop _ _ _ _ _ _ _ _ ?w1] => set (w1' := w1)
    end.
    destruct (IH n (i + 1)%Z (S j) (Some e) w1') as [w' [Hrun Htr]].
    + lia.
    + lia.
    + intros a Ha. destruct (Hfail (S a) ltac:(lia)) as [e2 [He2 Hc2]].
      exists e2. split; [|assumption]. subst w1'. unfold log.
      cbn [trace requests files net].
      replace (S (requests w) + a)%nat with (requests w + S a)%nat by lia.
      assumption.
    + subst w1'. unfold log. cbn [trace requests files net].
      replace (S (requests w) + k)%nat with (requests w + S k)%nat by lia.
      assumption.
    + exists w'. split; [exact Hrun|].
      subst w1'. unfold log in Htr. cbn [trace] in Htr.
      rewrite Htr, retry_events_S, <- !app_assoc. reflexivity.
Qed.

(** C7: when every one of the [attempts] attempts fails with an exception
    [fetch] catches, [fetch] makes exactly [attempts] requests, sleeps
    [0.5], [1], [2], ... seconds between them, and raises the exception of
    the last attempt; when an attempt is answered after [k < attempts] such
    failures, it returns that answer after [k] sleeps. *)
Theorem fetch_retries_then_reraises (url : str) (referer : option str)
    (attempts : Z) (return_info : bool) (w : world) :
  let hdrs := fetch_headers referer in
  let n := Z.to_nat attempts in
  ((1 <= attempts)%Z ->
   (forall j, (j < n)%nat -> exists e,
       net w (requests w + j)%nat url hdrs = Fails e
       /\ caught_by_fetch e = true) ->
   exists e w',
     fetch url referer attempts return_info w = (Raise e, w')
     /\ net w (requests w + (n - 1))%nat url hdrs = Fails e
     /\ trace w' = trace w ++ retry_events url hdrs 0 n
     /\ request_count (retry_events url hdrs 0 n) = n
     /\ sleeps (retry_events url hdrs 0 n) = map backoff (seq 0 (n - 1)))
  /\ (forall k data info,
       (k < n)%nat ->
       (forall j, (j < k)%nat -> exists e,
           net w (requests w + j)%nat url hdrs = Fails e
           /\ caught_by_fetch e = true) ->
       net w (requests w + k)%nat url hdrs = Response data info ->
       exists w',
         fetch url referer attempts return_info w
         = (Ok (data, if return_info then Some info else None), w')
         /\ trace w' = trace w ++ retry_events url hdrs 0 (S k)
         /\ sleeps (retry_events url hdrs 0 (S k)) = map backoff (seq 0 k)).
Proof.
  intros hdrs n. split.
  - intros Hpos Hfail.
    destruct (fetch_loop_exhausted url hdrs return_info attempts n 1%Z O None w)
      as [e [w' [Hrun [Hlast Htr]]]]; [subst n; lia|subst n; lia|exact Hfail|].
    exists e, w'. split; [exact Hrun|]. split; [exact Hlast|].
    split; [exact Htr|]. split.
    + apply retry_events_requests.
    + apply retry_events_sleeps.
  - intros k data info Hk Hfail Hok.
    destruct (fetch_loop_answered url hdrs return_info attempts data info
                k n 1%Z O None w) as [w' [Hrun Htr]];
      [subst n; lia|exact Hk|exact Hfail|exact Hok|].
    exists w'. split; [exact Hrun|]. split; [exact Htr|].
    rewrite retry_events_sleeps. now rewrite Nat.sub_succ, Nat.sub_0_r.
Qed.

Lemma fetch_retries_then_reraises_witness :
  exists e w',
    fetch mobile_url None 3 false dead_network = (Raise e, w')
    /\ net dead_network (requests dead_network + (Z.to_nat 3 - 1))%nat
         mobile_url (fetch_headers None) = Fails e
    /\ trace w' =
       trace dead_network ++ retry_events mobile_url (fetch_headers None) 0 (Z.to_nat 3)
    /\ request_count (retry_events mobile_url (fetch_headers None) 0 (Z.to_nat 3))
       = Z.to_nat 3
    /\ sleeps (retry_events mobile_url (fetch_headers None) 0 (Z.to_nat 3))
       = map backoff (seq 0 (Z.to_nat 3 - 1)).
Proof.
  apply (proj1 (fetch_retries_then_reraises mobile_url None 3 false dead_network)).
  - lia.
  - intros j _. exists TimeoutError. split; reflexivity.
Defined.

(** ** Download orchestrator *)

Lemma extends_refl w : extends w w.
Proof. exists []. now rewrite app_nil_r. Qed.

Lemma extends_trans w1 w2 w3 : extends w1 w2 -> extends w2 w3 -> extends w1 w3.
Proof.
  intros [a Ha] [b Hb]. exists (a ++ b). now rewrite Hb, Ha, app_assoc.
Qed.

Lemma fetch_loop_extends url hdrs ri attempts :
  forall n i d last w r w',
    fetch_loop n i attempts url hdrs ri d last w = (r, w') -> extends w w'.
Proof.
  induction n as [|n IH]; intros i d last w r w' H; cbn [fetch_loop] in H.
  - inversion H; subst. apply extends_refl.
  - unfold urlopen in H.
    destruct (net w (requests w) url hdrs) as [data info|e].
    + inversion H; subst. exists [EvRequest url hdrs]. reflexivity.
    + destruct (caught_by_fetch e).
      * destruct (i >=? attempts)%Z.
        -- inversion H; subst. exists [EvRequest url hdrs]. reflexivity.
        -- apply IH in H. eapply extends_trans; [|exact H].
           exists [EvRequest url hdrs; EvSleep d]. unfold log; cbn [trace].
           now rewrite <- app_assoc.
      * inversion H; subst. exists [EvRequest url hdrs]. reflexivity.
Qed.

Section Loop.
Variable L : Lib.
Variable dest_dir : path.
Variable referer : str.
Variable overwrite : bool.
Variable pad : nat.

Local Abbreviation item := (download_item L dest_dir referer overwrite pad).
Local Abbreviation loop := (download_loop L dest_dir referer overwrite pad).

Ltac fetched_case Hfetch :=
  let data := fresh "data" in
  let info := fresh "info" in
  let err := fresh "err" in
  let w1 := fresh "w1" in
  match goal with
  | |- context [fetch ?url ?r ?a ?i ?w] =>
      destruct (fetch url r a i w) as [[[data info]|err] w1] eqn:Hfetch
  end.

Ltac downloaded_case Hfetch :=
  let Hext1 := fresh "Hext1" in
  let Himg := fresh "Himg" in
  let H := fresh "H" in
  pose proof (fetch_loop_extends _ _ _ _ _ _ _ _ _ _ _ Hfetch) as Hext1;
  match goal with
  | |- context [is_image_bytes L ?d ?c] =>
      destruct (is_image_bytes L d c) eqn:Himg; cbn [negb]
  end;
  [ unfold write_bytes, write_file, sleep;
    intros H; inversion H; subst; clear H;
    split;
    [ eapply extends_trans; [exact Hext1|];
      unfold log; cbn [trace]; eexists [_; _]; now rewrite <- app_assoc
    | cbn [meta_index meta_image_url]; repeat split;
      right; do 3 eexists; cbn [meta_image_url meta_size];
      repeat split; eassumption ]
  | intros H; inversion H; subst; split; [exact Hext1|exact I] ].

(** What one turn of the loop appends, and when. *)
Lemma download_item_spec idx url w kept w' :
  item idx url w = (Ok kept, w') ->
  extends w w'
  /\ match kept with
     | None => True
     | Some (out, r) =>
         meta_index r = idx /\ meta_image_url r = url
         /\ out = out_of dest_dir r
         /\ justified L dest_dir referer overwrite w r
     end.
Proof.
  unfold download_item, bindM, lift, path_exists, stat_size, catch, ret.
  destruct (infer_ext L url) as [ext|e] eqn:Hext; [|discriminate].
  set (out := path_join dest_dir (zero_pad pad idx ++ ext)).
  destruct (files w out) as [c|] eqn:Hf; cbn [andb].
  - destruct overwrite eqn:Hov; cbn [negb].
    + fetched_case Hfetch.
      * downloaded_case Hfetch.
      * intros H; inversion H; subst. split; [|exact I].
        eapply fetch_loop_extends; exact Hfetch.
    + intros H; inversion H; subst; clear H. split; [apply extends_refl|].
      cbn [meta_index meta_image_url]. repeat split.
      left. split; [reflexivity|]. exists c. split; [exact Hf|].
      cbn [meta_size]. fold out. now rewrite Hf.
  - fetched_case Hfetch.
    + downloaded_case Hfetch.
    + intros H; inversion H; subst. split; [|exact I].
      eapply fetch_loop_extends; exact Hfetch.
Qed.


(** The accumulators only collect: a run from any accumulators is the run
    from empty ones with its result appended. *)
Lemma download_loop_acc urls :
  forall idx saved metas w,
    loop urls idx saved metas w =
    match loop urls idx [] [] w with
    | (Ok (s, m), w') => (Ok (saved ++ s, metas ++ m), w')
    | (Raise e, w') => (Raise e, w')
    end.
Proof.
  induction urls as [|url rest IH]; intros idx saved metas w.
  - cbn. now rewrite !app_nil_r.
  - cbn [download_loop]. unfold bindM.
    destruct (item idx url w) as [[[[out m]|]|e] w1]; [| |reflexivity].
    + rewrite (IH (S idx) (saved ++ [out]) (metas ++ [m]) w1).
      rewrite (IH (S idx) ([] ++ [out]) ([] ++ [m]) w1).
      destruct (loop rest (S idx) [] [] w1) as [[[s0 m0]|e] w2]; [|reflexivity].
      now rewrite <- !app_assoc.
    + apply IH.
Qed.

(** The invariant of the loop. *)
Lemma download_loop_inv urls :
  forall idx w s m w',
    loop urls idx [] [] w = (Ok (s, m), w') ->
    s = map (out_of dest_dir) m
    /\ StronglySorted lt (map meta_index m)
    /\ Forall (fun r =>
         (idx <= meta_index r < idx + length urls)%nat
         /\ nth_error urls (meta_index r - idx) = Some (meta_image_url r)
         /\ justified L dest_dir referer overwrite
              (snd (loop (firstn (meta_index r - idx) urls) idx [] [] w))
              r) m.
Proof.
  induction urls as [|url rest IH]; intros idx w s m w' H.
  - cbn in H. inversion H; subst. cbn. repeat split; constructor.
  - cbn [download_loop] in H. unfold bindM in H.
    destruct (item idx url w) as [[kept|e] w1] eqn:Hitem; [|discriminate].
    pose proof (download_item_spec _ _ _ _ _ Hitem) as [_ Hkept].
    assert (Hlater : forall s0 m0,
               loop rest (S idx) [] [] w1 = (Ok (s0, m0), w') ->
               s0 = map (out_of dest_dir) m0
               /\ StronglySorted lt (map meta_index m0)
               /\ Forall (fun r =>
                    (S idx <= meta_index r < idx + length (url :: rest))%nat
                    /\ nth_error (url :: rest) (meta_index r - idx)
                       = Some (meta_image_url r)
                    /\ justified L dest_dir referer overwrite
                         (snd (loop (firstn (meta_index r - idx) (url :: rest))
                                 idx [] [] w)) r) m0).
    { intros s0 m0 H0. destruct (IH _ _ _ _ _ H0) as [Hs [Hsorted Hall]].
      repeat split; try assumption.
      eapply Forall_impl; [|exact Hall].
      intros r [Hidx [Hnth Hj]]. cbn [length].
      replace (meta_index r - idx)%nat with (S (meta_index r - S idx)) by lia.
      cbn [nth_error firstn download_loop]. unfold bindM. rewrite Hitem.
      repeat split; try lia; try assumption.
      destruct kept as [[out m1]|]; [|exact Hj].
      rewrite download_loop_acc.
      destruct (loop (firstn (meta_index r - S idx) rest) (S idx) [] [] w1)
        as [[[s2 m2]|e2] w2]; exact Hj. }
    destruct kept as [[out m1]|].
    + rewrite download_loop_acc in H.
      destruct (loop rest (S idx) [] [] w1) as [[[s0 m0]|e] w2] eqn:Hrest;
        [|discriminate].
      inversion H; subst; clear H.
      destruct (Hlater _ _ eq_refl) as [Hs [Hsorted Hall]].
      destruct Hkept as [Hi [Hu [Hout Hj]]].
      cbn [app map]. split; [|split].
      * subst out. f_equal. exact Hs.
      * constructor; [exact Hsorted|].
        rewrite Forall_map. eapply Forall_impl; [|exact Hall].
        intros r [Hidx _]. lia.
      * constructor;
          [|eapply Forall_impl; [|exact Hall];
            intros r [Hidx Hr]; split; [lia|exact Hr]].
        rewrite Hi, Nat.sub_diag.
        cbn [nth_error firstn download_loop ret snd length].
        repeat split; try lia; try (now rewrite Hu). exact Hj.
    + destruct (Hlater _ _ H) as [Hs [Hsorted Hall]].
      repeat split; try assumption.
      eapply Forall_impl; [|exact Hall].
      intros r [Hidx Hr]. split; [lia|exact Hr].
Qed.


End Loop.

Lemma download_images_unfold L urls dest_dir referer overwrite meta_dir w :
  download_images L urls dest_dir referer overwrite meta_dir w =
  download_loop L dest_dir referer overwrite (pad_of urls) urls 1 [] []
    (listing_written urls dest_dir meta_dir w).
Proof. reflexivity. Qed.






(** ** Image-URL extractor *)

(** C5: the list [extract_image_urls] returns has no duplicate.  It holds
    exactly the candidates of the attribute scan and of the bare-URL scan,
    each once however often and in whichever scan it was met, and is sorted
    by guessed page number with ties in first-seen order. *)
Theorem extract_image_urls_no_duplicates (L : Lib) (html base : str)
    (out : list str) :
  extract_image_urls L html base = Ok out ->
  NoDup out
  /\ exists cs,
       candidates L html base = Ok cs
       /\ Permutation out (fromkeys cs)
       /\ (forall x, In x out <-> In x cs)
       /\ StronglySorted (key_leP (url_key L (fromkeys cs))) out.
Proof.
  intros H.
  destruct (extract_image_urls_spec _ _ _ _ H) as [cs [Hc [Hnd [Hp Hs]]]].
  split; [exact Hnd|]. exists cs. repeat split; try assumption.
  - intros Hx. apply fromkeys_In. eapply Permutation_in; eassumption.
  - intros Hx. eapply Permutation_in; [symmetry; exact Hp|].
    now apply fromkeys_In.
Qed.

Lemma extract_image_urls_no_duplicates_witness : NoDup [repeated_url].
Proof.
  apply (extract_image_urls_no_duplicates ascii_lib repeated_page mobile_url
           [repeated_url]).
  vm_compute. reflexivity.
Defined.

(** C4, as the code has it: of two URLs of the output whose sort keys (the
    first numeric hint the key pattern finds: a path segment of two or more
    digits, [_p] and digits, or [page=] and digits) are 3 and 12, the one
    with 3 stands first, whatever their order in the page; a URL without a
    hint gets the key 1000000, is kept, and stands after every URL whose key
    is below 1000000. *)
Theorem extract_image_urls_page_order (L : Lib) (html base : str)
    (out : list str) :
  extract_image_urls L html base = Ok out ->
  (forall a b, In a out -> In b out ->
     sort_key L a = 3%Z -> sort_key L b = 12%Z ->
     (index_of a out < index_of b out)%nat)
  /\ (forall a, Re.search (sort_key_pattern L) a = None ->
        sort_key L a = 1000000%Z)
  /\ (forall a b, In a out -> In b out ->
        Re.search (sort_key_pattern L) a = None ->
        (sort_key L b < 1000000)%Z ->
        (index_of b out < index_of a out)%nat)
  /\ (forall cs x, candidates L html base = Ok cs -> In x cs -> In x out).
Proof.
  intros H.
  assert (Hno : forall a, Re.search (sort_key_pattern L) a = None ->
                          sort_key L a = 1000000%Z).
  { intros a Ha. unfold sort_key. now rewrite Ha. }
  split; [|split; [exact Hno|split]].
  - intros a b Ha Hb Ka Kb.
    apply (extract_image_urls_key_order _ _ _ _ _ _ H Ha Hb). lia.
  - intros a b Ha Hb Hnone Kb.
    apply (extract_image_urls_key_order _ _ _ _ _ _ H Hb Ha).
    rewrite (Hno a Hnone). exact Kb.
  - intros cs x Hcs Hx.
    destruct (extract_image_urls_spec _ _ _ _ H) as [cs' [Hcs' [_ [Hp _]]]].
    rewrite Hcs in Hcs'. inversion Hcs'; subst.
    eapply Permutation_in; [symmetry; exact Hp|]. now apply fromkeys_In.
Qed.

Lemma extract_image_urls_page_order_witness :
  (index_of page3_url [page3_url; page12_url]
   < index_of page12_url [page3_url; page12_url])%nat.
Proof.
  apply (proj1 (extract_image_urls_page_order ascii_lib numbered_page
                  mobile_url [page3_url; page12_url] eq_refl)).
  - left. reflexivity.
  - right. left. reflexivity.
  - vm_compute. reflexivity.
  - vm_compute. reflexivity.
Defined.

(** C4 as stated fails: the URL without a numeric hint is ordered before a
    URL that has one, although it comes later in the page. *)
Lemma extract_image_urls_unkeyed_before_keyed :
  extract_image_urls ascii_lib keyed_then_unkeyed_page mobile_url
  = Ok [cover_url; page1_url]
  /\ Re.search (sort_key_pattern ascii_lib) cover_url = None
  /\ sort_key ascii_lib page1_url = 20230101%Z
  /\ img_attr_values keyed_then_unkeyed_page = [page1_url; cover_url].
Proof. repeat split; vm_compute; reflexivity. Qed.

(** C3 as stated fails: the tag carries the page art in [data-src] and a
    placeholder in [src], and the extractor takes the placeholder. *)
Lemma extract_image_urls_takes_plain_src :
  extract_image_urls ascii_lib lazy_page mobile_url = Ok [placeholder_url]
  /\ img_attr_values lazy_page = [u "//image-comic.pstatic.net/ui/blank.gif"].
Proof. split; vm_compute; reflexivity. Qed.

(** ** Chapter label *)

(** C2 fails on the code: the [titleId] of the URL goes into the label as it
    is, path separators and [..] included. *)
Lemma parse_chapter_label_separator_in_label :
  exists meta,
    parse_chapter_label ascii_lib traversal_url None
    = Ok (u "naver_1/../../x_5", meta)
    /\ has_char 47 (u "naver_1/../../x_5") = true.
Proof. eexists. split; vm_compute; reflexivity. Qed.

(** ** The matcher *)

Lemma rep_greedy_sound {A} (p : char -> bool) :
  forall s lo hi (k : str -> option A) v,
    Re.rep_greedy p lo hi s k = Some v ->
    exists run rest,
      s = run ++ rest
      /\ Forall (fun x => p x = true) run
      /\ (lo <= length run)%nat
      /\ match hi with Some h => (length run <= h)%nat | None => True end
      /\ k rest = Some v.
Proof.
  assert (Hstop : forall s lo hi (k : str -> option A) v,
    match lo with O => k s | S _ => None end = Some v ->
    exists run rest,
      s = run ++ rest
      /\ Forall (fun x => p x = true) run
      /\ (lo <= length run)%nat
      /\ match hi with Some h => (length run <= h)%nat | None => True end
      /\ k rest = Some v).
  { intros s lo hi k v H. destruct lo; [|discriminate].
    exists [], s. cbn. repeat split; auto; destruct hi; auto; lia. }
  induction s as [|x s IH]; intros lo hi k v H.
  - apply Hstop. destruct hi as [[|h]|]; exact H.
  - cbn [Re.rep_greedy] in H.
    assert (Hmore :
      (if p x
       then Re.or_else (Re.rep_greedy p (pred lo) (option_map pred hi) s k)
              match lo with O => k (x :: s) | S _ => None end
       else match lo with O => k (x :: s) | S _ => None end) = Some v ->
      match hi with Some O => False | _ => True end ->
      exists run rest,
        x :: s = run ++ rest
        /\ Forall (fun x => p x = true) run
        /\ (lo <= length run)%nat
        /\ match hi with Some h => (length run <= h)%nat | None => True end
        /\ k rest = Some v).
    { intros Hm Hhi. destruct (p x) eqn:Hp; [|now apply Hstop].
      destruct (Re.rep_greedy p (pred lo) (option_map pred hi) s k) as [v'|] eqn:Hrec;
        [|now apply Hstop].
      cbn in Hm. inversion Hm; subst v'.
      destruct (IH _ _ _ _ Hrec) as [run [rest [Hs [Hall [Hlo [Hh Hk]]]]]].
      exists (x :: run), rest. subst s. cbn [app length].
      repeat split; auto; [lia|].
      destruct hi as [[|h]|]; cbn in *; auto; try lia; contradiction. }
    destruct hi as [[|h]|].
    + exact (Hstop (x :: s) lo (Some O) k v H).
    + now apply Hmore.
    + now apply Hmore.
Qed.

Lemma rep_lazy_sound {A} (p : char -> bool) :
  forall s lo hi (k : str -> option A) v,
    Re.rep_lazy p lo hi s k = Some v ->
    exists run rest,
      s = run ++ rest
      /\ Forall (fun x => p x = true) run
      /\ (lo <= length run)%nat
      /\ match hi with Some h => (length run <= h)%nat | None => True end
      /\ k rest = Some v.
Proof.
  induction s as [|x s IH]; intros lo hi k v H.
  - exists [], []. cbn [Re.rep_lazy] in H.
    assert (Hk : lo = O /\ k [] = Some v).
    { destruct lo; destruct hi as [[|h]|]; cbn in H;
        try discriminate; destruct (k []); inversion H; auto. }
    destruct Hk as [-> Hk]. cbn. repeat split; auto. destruct hi; auto; lia.
  - cbn [Re.rep_lazy] in H.
    set (more := match hi with
                 | Some O => None
                 | _ => if p x
                        then Re.rep_lazy p (pred lo) (option_map pred hi) s k
                        else None
                 end) in H.
    assert (Hmore : more = Some v ->
      exists run rest,
        x :: s = run ++ rest
        /\ Forall (fun x => p x = true) run
        /\ (lo <= length run)%nat
        /\ match hi with Some h => (length run <= h)%nat | None => True end
        /\ k rest = Some v).
    { subst more. intros Hm.
      assert (Hrec : p x = true
                     /\ Re.rep_lazy p (pred lo) (option_map pred hi) s k = Some v
                     /\ match hi with Some O => False | _ => True end).
      { destruct hi as [[|h]|]; try discriminate;
          destruct (p x); try discriminate; auto. }
      destruct Hrec as [Hp [Hrec Hhi]].
      destruct (IH _ _ _ _ Hrec) as [run [rest [Hs [Hall [Hlo [Hh Hk]]]]]].
      exists (x :: run), rest. subst s. cbn [app length].
      repeat split; auto; [lia|].
      destruct hi as [[|h]|]; cbn in *; auto; try lia. }
    destruct lo as [|lo].
    + destruct (k (x :: s)) as [v'|] eqn:Hk.
      * cbn in H. inversion H; subst v'.
        exists [], (x :: s). cbn. repeat split; auto. destruct hi; auto; lia.
      * cbn in H. now apply Hmore.
    + now apply Hmore.
Qed.

(** A successful match consumes a text of the pattern's language. *)
Lemma rmatch_sound {A} (r : Re.regex) :
  forall s c (k : str -> Re.caps -> option A) v,
    Re.rmatch r s c k = Some v ->
    exists m rest c', s = m ++ rest /\ Lang r m /\ k rest c' = Some v.
Proof.
  induction r as [|p|r1 IH1 r2 IH2|r1 IH1 r2 IH2|g lo hi p|n r IH|];
    intros s c k v H; cbn [Re.rmatch] in H; cbn [Lang].
  - exists [], s, c. auto.
  - destruct s as [|x s]; [discriminate|].
    destruct (p x) eqn:Hp; [|discriminate].
    exists [x], s, c. repeat split; eauto.
  - apply IH1 in H. destruct H as [m1 [rest1 [c1 [Hs [Hl1 H]]]]].
    apply IH2 in H. destruct H as [m2 [rest2 [c2 [Hs2 [Hl2 H]]]]].
    exists (m1 ++ m2), rest2, c2. subst. rewrite <- app_assoc.
    repeat split; eauto.
  - destruct (Re.rmatch r1 s c k) as [v'|] eqn:H1.
    + cbn in H. inversion H; subst v'.
      apply IH1 in H1. destruct H1 as [m [rest [c' [Hs [Hl Hk]]]]].
      exists m, rest, c'. auto.
    + cbn in H. apply IH2 in H. destruct H as [m [rest [c' [Hs [Hl Hk]]]]].
      exists m, rest, c'. auto.
  - destruct g.
    + apply rep_greedy_sound in H.
      destruct H as [run [rest [Hs [Hall [Hlo [Hh Hk]]]]]].
      exists run, rest, c. auto.
    + apply rep_lazy_sound in H.
      destruct H as [run [rest [Hs [Hall [Hlo [Hh Hk]]]]]].
      exists run, rest, c. auto.
  - apply IH in H. destruct H as [m [rest [c' [Hs [Hl Hk]]]]].
    exists m, rest. eexists. repeat split; eauto.
  - destruct (Re.at_eos s); [|discriminate]. exists [], s, c. auto.
Qed.

(** [re.search] finds its match at some position of the text. *)
Lemma search_position (r : Re.regex) :
  forall s m, Re.search r s = Some m ->
              exists pre s', s = pre ++ s' /\ Re.match_here r s' = Some m.
Proof.
  induction s as [|x s IH]; intros m H; cbn [Re.search] in H.
  - destruct (Re.match_here r []) eqn:E; [|discriminate].
    inversion H; subst. exists [], []. auto.
  - destruct (Re.match_here r (x :: s)) eqn:E.
    + inversion H; subst. exists [], (x :: s). auto.
    + apply IH in H. destruct H as [pre [s' [Hs Hm]]].
      exists (x :: pre), s'. subst. auto.
Qed.

Lemma firstn_app_exact (a b : str) : firstn (length (a ++ b) - length b) (a ++ b) = a.
Proof.
  rewrite length_app, Nat.add_sub.
  rewrite firstn_app, Nat.sub_diag, firstn_all. cbn. apply app_nil_r.
Qed.

(** Greedy repetition gives back one character at a time: of the ways to
    split the run, the longest prefix after which the rest of the pattern
    matches is taken. *)
Lemma rep_greedy_stop {A} p (k : str -> option A) t :
  stops p t -> Re.rep_greedy p 0 None t k = k t.
Proof. destruct t; cbn; [reflexivity|intros ->; reflexivity]. Qed.

Lemma rep_greedy_backtrack0 {A} p (k : str -> option A) t :
  stops p t ->
  forall suf,
    Forall (fun x => p x = true) suf ->
    (forall s1 s2, suf = s1 ++ s2 -> s1 <> [] -> k (s2 ++ t) = None) ->
    Re.rep_greedy p 0 None (suf ++ t) k = k (suf ++ t).
Proof.
  intros Ht. induction 1 as [|x suf Hx Hall IH]; intros Hfail.
  - now apply rep_greedy_stop.
  - cbn [app Re.rep_greedy]. rewrite Hx. cbn [pred option_map].
    rewrite IH.
    + rewrite (Hfail [x] suf eq_refl); [reflexivity|discriminate].
    + intros s1 s2 E Hne. apply (Hfail (x :: s1) s2); [now subst|discriminate].
Qed.

Lemma rep_greedy_backtrack {A} p (k : str -> option A) t suf v :
  stops p t ->
  Forall (fun x => p x = true) suf ->
  k (suf ++ t) = Some v ->
  (forall s1 s2, suf = s1 ++ s2 -> s1 <> [] -> k (s2 ++ t) = None) ->
  forall pre lo,
    Forall (fun x => p x = true) pre -> (lo <= length pre)%nat ->
    Re.rep_greedy p lo None (pre ++ suf ++ t) k = Some v.
Proof.
  intros Ht Hsuf Hk Hfail. induction pre as [|x pre IH]; intros lo Hpre Hlo.
  - cbn in Hlo. assert (lo = O) by lia. subst lo. cbn [app].
    rewrite rep_greedy_backtrack0; assumption.
  - inversion Hpre; subst. cbn [app Re.rep_greedy].
    match goal with H : p x = true |- _ => rewrite H end.
    cbn [option_map]. rewrite IH; [reflexivity|assumption|cbn in Hlo; lia].
Qed.

(** ** The attribute scan reads the last [src]-like attribute of a tag *)

Lemma img_attr_pattern_eq :
  img_attr_pattern =
  Re.Seq (Re.lit_nocase (u "<img")) (Re.Seq (Re.plus not_gt) img_attr_tail).
Proof. reflexivity. Qed.

(** The tail cannot start at a character that begins none of the attribute
    names. *)
Lemma tail_first_char {A} x s c (k : str -> Re.caps -> option A) :
  Re.is_nocase 100 x = false -> Re.is_nocase 115 x = false ->
  Re.rmatch img_attr_tail (x :: s) c k = None.
Proof.
  intros Hd Hs. unfold img_attr_tail.
  cbn -[Re.is_nocase]. rewrite Hd, Hs. reflexivity.
Qed.

(** The tail at [src="v">]. *)
Lemma tail_at_src {A} v t c (k : str -> Re.caps -> option A) r :
  v <> [] -> Forall (fun x => not_quote x = true) v ->
  k t ((1%nat, v) :: c) = Some r ->
  Re.rmatch img_attr_tail (115 :: 114 :: 99 :: 61 :: 34 :: v ++ 34 :: 62 :: t) c k
  = Some r.
Proof.
  intros Hne Hv Hk. unfold img_attr_tail.
  cbn -[firstn length Nat.sub].
  apply (rep_greedy_backtrack not_quote _ (34 :: 62 :: t) [] r).
  - reflexivity.
  - constructor.
  - cbn -[firstn length Nat.sub].
    rewrite (firstn_app_exact v (34 :: 62 :: t)). exact Hk.
  - intros s1 s2 E Hs1. destruct s1; [contradiction|discriminate].
  - exact Hv.
  - destruct v; [contradiction|cbn; lia].
Qed.

Lemma finditer_skip r x : forall rest,
  Re.finditer_from r (x ++ rest) (length x) = Re.finditer_from r rest O.
Proof.
  induction x as [|a x IH]; intros rest; [reflexivity|].
  cbn [app length Re.finditer_from]. apply IH.
Qed.

(** A match that covers a non-empty prefix is followed by the matches of
    the rest. *)
Lemma finditer_first r tag rest m :
  tag <> [] ->
  Re.match_here r (tag ++ rest) = Some m -> Re.m_text m = tag ->
  Re.finditer r (tag ++ rest) = m :: Re.finditer r rest.
Proof.
  intros Hne Hm Ht. unfold Re.finditer.
  destruct tag as [|a tag]; [contradiction|].
  cbn [app Re.finditer_from]. cbn [app] in Hm. rewrite Hm, Ht.
  cbn [length pred]. now rewrite finditer_skip.
Qed.

Lemma quote_char_cases x : quote_char x = true -> x = 39 \/ x = 34.
Proof.
  unfold quote_char, Re.one_of. cbn [existsb].
  rewrite !orb_true_iff, !N.eqb_eq. intros [H|[H|H]]; auto. discriminate.
Qed.

Lemma not_quote_quote_char x : not_quote x = true -> quote_char x = false.
Proof.
  unfold not_quote, Re.none_of, quote_char. now rewrite negb_true_iff.
Qed.

Lemma nocase_no_quote a x :
  Re.is_nocase a 34 = false -> Re.is_nocase a 39 = false ->
  Re.is_nocase a x = true -> quote_char x = false.
Proof.
  intros H34 H39 Hx. destruct (quote_char x) eqn:Hq; [|reflexivity].
  destruct (quote_char_cases _ Hq); subst; congruence.
Qed.

Lemma space_no_quote x : is_space x = true -> quote_char x = false.
Proof.
  intros Hx. destruct (quote_char x) eqn:Hq; [|reflexivity].
  destruct (quote_char_cases _ Hq); subst; discriminate.
Qed.

Lemma lang_lit_nocase_no_quote w :
  forallb (fun a => negb (Re.is_nocase a 34) && negb (Re.is_nocase a 39)) w
  = true ->
  forall m, Lang (Re.lit_nocase w) m ->
            Forall (fun x => quote_char x = false) m.
Proof.
  induction w as [|a w IH]; intros Hw m Hm.
  - cbn in Hm. subst. constructor.
  - cbn [forallb] in Hw. apply andb_true_iff in Hw. destruct Hw as [Ha Hw].
    apply andb_true_iff in Ha. destruct Ha as [H34 H39].
    apply negb_true_iff in H34, H39.
    destruct w as [|a' w].
    + cbn in Hm. destruct Hm as [x [-> Hx]].
      constructor; [|constructor]. eapply nocase_no_quote; eassumption.
    + change (Re.lit_nocase (a :: a' :: w))
        with (Re.Seq (Re.Chr (Re.is_nocase a)) (Re.lit_nocase (a' :: w))) in Hm.
      cbn [Lang] in Hm. destruct Hm as [m1 [m2 [-> [[x [-> Hx]] Hm2]]]].
      constructor; [eapply nocase_no_quote; eassumption|].
      now apply IH.
Qed.

(** A text the tail matches: up to its first quote it holds an attribute
    name, white space and [=], and so ends in [=] or white space. *)
Lemma lang_img_attr_tail m :
  Lang img_attr_tail m ->
  exists a q b,
    m = a ++ q :: b /\ quote_char q = true
    /\ Forall (fun x => quote_char x = false) a
    /\ exists a0 c, a = a0 ++ [c] /\ (c = 61 \/ is_space c = true).
Proof.
  unfold img_attr_tail. cbn [Re.seqs Lang]. intros H.
  destruct H as (mw & m1 & -> & Hw & H).
  destruct H as (mws & m2 & -> & Hws & H).
  destruct H as (meq & m3 & -> & Heq & H).
  destruct H as (mws2 & m4 & -> & Hws2 & H).
  destruct H as (mq & b & -> & Hq & _).
  destruct Hws as [Hws _]. destruct Hws2 as [Hws2 _].
  destruct Hq as [q [-> Hq]].
  cbn in Heq. destruct Heq as [e [-> He]].
  apply N.eqb_eq in He. subst e.
  exists (mw ++ mws ++ [61] ++ mws2), q, b.
  split; [now rewrite <- !app_assoc|]. split; [exact Hq|]. split.
  - apply Forall_app. split.
    + cbn [Re.alts Lang] in Hw.
      destruct Hw as [Hw|[Hw|[Hw|Hw]]];
        (eapply lang_lit_nocase_no_quote; [|exact Hw]); vm_compute; reflexivity.
    + apply Forall_app. split.
      * eapply Forall_impl; [|exact Hws]. apply space_no_quote.
      * constructor; [reflexivity|].
        eapply Forall_impl; [|exact Hws2]. apply space_no_quote.
  - clear Hw. induction mws2 as [|c l _] using rev_ind.
    + exists (mw ++ mws), 61. split; [|now left].
      now rewrite app_nil_r, <- app_assoc.
    + exists (mw ++ mws ++ [61] ++ l), c. split.
      * now rewrite <- !app_assoc.
      * right. apply Forall_app in Hws2. destruct Hws2 as [_ Hc].
        now inversion Hc.
Qed.

Lemma first_mark (P : char -> bool) :
  forall a1 a2 q1 q2 x y,
    Forall (fun c => P c = false) a1 -> Forall (fun c => P c = false) a2 ->
    P q1 = true -> P q2 = true ->
    a1 ++ q1 :: x = a2 ++ q2 :: y -> a1 = a2.
Proof.
  induction a1 as [|c a1 IH]; intros a2 q1 q2 x y H1 H2 Hq1 Hq2 E.
  - destruct a2 as [|d a2]; [reflexivity|].
    cbn [app] in E. injection E as E1 E2. subst d.
    apply Forall_inv in H2. congruence.
  - destruct a2 as [|d a2].
    + cbn [app] in E. injection E as E1 E2. subst c.
      apply Forall_inv in H1. congruence.
    + cbn [app] in E. injection E as E1 E2. subst d.
      f_equal. apply (IH a2 q1 q2 x y); try assumption.
      * now apply Forall_inv_tail in H1.
      * now apply Forall_inv_tail in H2.
Qed.

(** The tail does not start inside the last value. *)
Lemma tail_not_inside_value {A} v s1 s2 rest c
    (k : str -> Re.caps -> option A) :
  attr_value v -> v = s1 ++ s2 ->
  Re.rmatch img_attr_tail (s2 ++ 34 :: 62 :: rest) c k = None.
Proof.
  intros [Hne [Hv Hlast]] Ev.
  destruct (Re.rmatch img_attr_tail (s2 ++ 34 :: 62 :: rest) c k) as [r|] eqn:E;
    [exfalso|reflexivity].
  apply rmatch_sound in E. destruct E as [m [rest' [c' [Es [Hm _]]]]].
  apply lang_img_attr_tail in Hm.
  destruct Hm as [a [q [b [-> [Hq [Ha [a0 [x [-> Hx]]]]]]]]].
  rewrite <- app_assoc in Es. cbn [app] in Es.
  assert (Hs2 : Forall (fun c => quote_char c = false) s2).
  { subst v. apply Forall_app in Hv. destruct Hv as [_ Hv].
    eapply Forall_impl; [|exact Hv]. intros y [Hy _].
    now apply not_quote_quote_char. }
  apply (first_mark quote_char) in Es; try assumption; [|reflexivity].
  subst s2. rewrite app_assoc in Ev.
  destruct (Hlast _ _ Ev) as [H61 Hsp].
  destruct Hx; congruence.
Qed.

(** The tag [<img pre src="v">]: whatever stands in [pre], the value read
    is [v]. *)
Lemma img_tag_match {A} pre v rest (k : str -> Re.caps -> option A) r :
  pre <> [] -> Forall (fun x => not_gt x = true) pre -> attr_value v ->
  k rest [(1%nat, v)] = Some r ->
  Re.rmatch img_attr_pattern
    (u "<img" ++ pre ++ u "src=" ++ [34] ++ v ++ [34; 62] ++ rest) [] k
  = Some r.
Proof.
  intros Hpre Hgt Hv Hk. rewrite img_attr_pattern_eq.
  cbn -[img_attr_tail].
  match goal with
  | |- Re.rep_greedy _ _ _ ?s _ = _ =>
      replace s
        with (pre ++ (115 :: 114 :: 99 :: 61 :: 34 :: v ++ [34]) ++ 62 :: rest)
        by (cbn [app]; now rewrite <- app_assoc)
  end.
  apply rep_greedy_backtrack.
  - reflexivity.
  - destruct Hv as [_ [Hv _]]. repeat (constructor; [reflexivity|]).
    apply Forall_app. split; [|repeat constructor].
    eapply Forall_impl; [|exact Hv]. now intros y [_ Hy].
  - cbn [app]. rewrite <- app_assoc. cbn [app].
    apply tail_at_src; [apply Hv| |exact Hk].
    destruct Hv as [_ [Hv _]].
    eapply Forall_impl; [|exact Hv]. now intros y [Hy _].
  - intros s1 s2 E Hs1.
    destruct s1 as [|c1 s1]; [contradiction|]. cbn [app] in E.
    injection E as _ E.
    do 4 (destruct s1 as [|? s1];
          [cbn [app] in E; subst s2; apply tail_first_char; reflexivity|];
          cbn [app] in E; injection E as _ E).
    destruct s2 as [|z s2 _] using rev_ind.
    + apply tail_first_char; reflexivity.
    + rewrite app_assoc in E. apply app_inj_tail in E. destruct E as [E Ez].
      subst z.
      rewrite <- app_assoc. cbn [app].
      eapply tail_not_inside_value; [exact Hv|exact E].
  - exact Hgt.
  - destruct pre; [contradiction|cbn; lia].
Qed.

Lemma attr_valueb_sound v : attr_valueb v = true -> attr_value v.
Proof.
  unfold attr_valueb, attr_value. rewrite !andb_true_iff, !negb_true_iff.
  intros [[[Hne Hall] H61] Hsp]. split; [|split].
  - now destruct v.
  - rewrite forallb_forall in Hall. apply Forall_forall. intros x Hx.
    apply Hall in Hx. now apply andb_true_iff in Hx.
  - intros v0 c ->. rewrite last_last in H61, Hsp.
    split; [now apply N.eqb_neq|assumption].
Qed.

Lemma img_tag_values pre v rest :
  pre <> [] -> Forall (fun x => not_gt x = true) pre -> attr_value v ->
  img_attr_values
    ((u "<img" ++ pre ++ u "src=" ++ [34] ++ v ++ [34; 62]) ++ rest)
  = v :: img_attr_values rest.
Proof.
  intros Hpre Hgt Hv. unfold img_attr_values.
  set (tag := u "<img" ++ pre ++ u "src=" ++ [34] ++ v ++ [34; 62]).
  rewrite (finditer_first img_attr_pattern tag rest
             {| Re.m_text := tag; Re.m_caps := [(1%nat, v)] |}).
  - reflexivity.
  - subst tag. discriminate.
  - unfold Re.match_here.
    replace (tag ++ rest)
      with (u "<img" ++ pre ++ u "src=" ++ [34] ++ v ++ [34; 62] ++ rest)
      by (subst tag; now rewrite <- !app_assoc).
    apply img_tag_match; try assumption.
    replace (u "<img" ++ pre ++ u "src=" ++ [34] ++ v ++ [34; 62] ++ rest)
      with (tag ++ rest) by (subst tag; now rewrite <- !app_assoc).
    now rewrite firstn_app_exact.
  - reflexivity.
Qed.

(** Of a lazy-load attribute and a plain [src] attribute in one tag, with
    nothing after them, the scan reads the one written last: the plain
    [src] in the tag of [tag_lazy_first], the lazy one in the tag of
    [tag_plain_first]; the values of the tags follow in document order. *)
Lemma img_attr_last_attribute_wins (lazy plain rest : str) :
  attr_valueb lazy = true -> attr_valueb plain = true ->
  img_attr_values (tag_lazy_first lazy plain ++ rest)
  = plain :: img_attr_values rest
  /\ img_attr_values (tag_plain_first lazy plain ++ rest)
     = lazy :: img_attr_values rest.
Proof.
  intros Hl Hp. apply attr_valueb_sound in Hl, Hp.
  assert (Gl : Forall (fun x => not_gt x = true) lazy).
  { destruct Hl as [_ [H _]]. eapply Forall_impl; [|exact H]. now intros y [_ Hy]. }
  assert (Gp : Forall (fun x => not_gt x = true) plain).
  { destruct Hp as [_ [H _]]. eapply Forall_impl; [|exact H]. now intros y [_ Hy]. }
  split.
  - replace (tag_lazy_first lazy plain)
      with (u "<img" ++ (u " data-src=" ++ [34] ++ lazy ++ [34; 32])
            ++ u "src=" ++ [34] ++ plain ++ [34; 62]).
    + apply img_tag_values; [discriminate| |exact Hp].
      repeat (apply Forall_app; split); try exact Gl; repeat constructor.
    + unfold tag_lazy_first. rewrite <- !app_assoc. reflexivity.
  - replace (tag_plain_first lazy plain)
      with (u "<img" ++ (u " src=" ++ [34] ++ plain ++ [34] ++ u " data-")
            ++ u "src=" ++ [34] ++ lazy ++ [34; 62]).
    + apply img_tag_values; [discriminate| |exact Hl].
      repeat (apply Forall_app; split); try exact Gp; repeat constructor.
    + unfold tag_plain_first. rewrite <- !app_assoc. reflexivity.
Qed.

(** ** The attribute scan reads the right-most assignment of a tag *)

(** A pattern without groups leaves the groups as they are. *)
Lemma rmatch_sound_plain {A} (r : Re.regex) :
  group_free r = true ->
  forall s c (k : str -> Re.caps -> option A) v,
    Re.rmatch r s c k = Some v ->
    exists m rest, s = m ++ rest /\ Lang r m /\ k rest c = Some v.
Proof.
  induction r as [|p|r1 IH1 r2 IH2|r1 IH1 r2 IH2|g lo hi p|n r IH|];
    intros Hg s c k v H; cbn [Re.rmatch] in H; cbn [Lang];
    cbn [group_free] in Hg.
  - exists [], s. auto.
  - destruct s as [|x s]; [discriminate|].
    destruct (p x) eqn:Hp; [|discriminate].
    exists [x], s. repeat split; eauto.
  - apply andb_true_iff in Hg. destruct Hg as [Hg1 Hg2].
    apply (IH1 Hg1) in H. destruct H as [m1 [rest1 [Hs [Hl1 H]]]].
    apply (IH2 Hg2) in H. destruct H as [m2 [rest2 [Hs2 [Hl2 H]]]].
    exists (m1 ++ m2), rest2. subst. rewrite <- app_assoc.
    repeat split; eauto.
  - apply andb_true_iff in Hg. destruct Hg as [Hg1 Hg2].
    destruct (Re.rmatch r1 s c k) as [v1|] eqn:E1; cbn [Re.or_else] in H.
    + injection H as <-. apply (IH1 Hg1) in E1.
      destruct E1 as [m [rest [Hs [Hl Hk]]]]. exists m, rest. auto.
    + apply (IH2 Hg2) in H.
      destruct H as [m [rest [Hs [Hl Hk]]]]. exists m, rest. auto.
  - destruct g.
    + apply rep_greedy_sound in H.
      destruct H as [run [rest [Hs [Hp [Hlo [Hhi Hk]]]]]].
      exists run, rest. auto.
    + apply rep_lazy_sound in H.
      destruct H as [run [rest [Hs [Hp [Hlo [Hhi Hk]]]]]].
      exists run, rest. auto.
  - discriminate.
  - destruct (Re.at_eos s); [|discriminate]. exists [], s. auto.
Qed.

Lemma or_else_right {A} (a b : option A) : b <> None -> Re.or_else a b <> None.
Proof. destruct a; cbn; [discriminate|auto]. Qed.

Lemma or_else_left {A} (a b : option A) : a <> None -> Re.or_else a b <> None.
Proof. destruct a; cbn; [discriminate|contradiction]. Qed.

(** Where a split of the text fits the repetition and what follows is
    matched, the repetition does not fail. *)
Lemma rep_greedy_complete {A} p (k : str -> option A) rest :
  k rest <> None ->
  forall m lo hi,
    Forall (fun x => p x = true) m -> (lo <= length m)%nat ->
    match hi with Some h => (length m <= h)%nat | None => True end ->
    Re.rep_greedy p lo hi (m ++ rest) k <> None.
Proof.
  intros Hk. induction m as [|x m IH]; intros lo hi Hp Hlo Hhi.
  - cbn [length] in Hlo. assert (lo = O) by lia. subst lo. cbn [app].
    destruct rest as [|y rest]; cbn [Re.rep_greedy].
    + destruct hi as [[|h]|]; exact Hk.
    + destruct hi as [[|h]|]; try exact Hk;
        (destruct (p y); [apply or_else_right|]; exact Hk).
  - inversion Hp as [|? ? Hx Hm]; subst. cbn [app length] in *.
    assert (Hrec : Re.rep_greedy p (pred lo) (option_map pred hi)
                     (m ++ rest) k <> None).
    { apply IH; [exact Hm|lia|]. destruct hi as [h|]; cbn; [lia|exact I]. }
    destruct hi as [[|h]|]; [lia| |];
      cbn [Re.rep_greedy]; rewrite Hx; apply or_else_left; exact Hrec.
Qed.

Lemma rep_lazy_complete {A} p (k : str -> option A) rest :
  k rest <> None ->
  forall m lo hi,
    Forall (fun x => p x = true) m -> (lo <= length m)%nat ->
    match hi with Some h => (length m <= h)%nat | None => True end ->
    Re.rep_lazy p lo hi (m ++ rest) k <> None.
Proof.
  intros Hk. induction m as [|x m IH]; intros lo hi Hp Hlo Hhi.
  - cbn [length] in Hlo. assert (lo = O) by lia. subst lo. cbn [app].
    destruct rest as [|y rest]; cbn [Re.rep_lazy];
      apply or_else_left; exact Hk.
  - inversion Hp as [|? ? Hx Hm]; subst. cbn [app length] in *.
    assert (Hrec : Re.rep_lazy p (pred lo) (option_map pred hi)
                     (m ++ rest) k <> None).
    { apply IH; [exact Hm|lia|]. destruct hi as [h|]; cbn; [lia|exact I]. }
    destruct hi as [[|h]|]; [lia| |];
      cbn [Re.rep_lazy]; rewrite Hx;
      (destruct lo; [apply or_else_right|]; exact Hrec).
Qed.

(** The matcher finds a match wherever the pattern has one that what
    follows accepts. *)
Lemma rmatch_complete {A} (r : Re.regex) :
  eos_free r = true ->
  forall m rest c (k : str -> Re.caps -> option A),
    Lang r m -> (forall c', k rest c' <> None) ->
    Re.rmatch r (m ++ rest) c k <> None.
Proof.
  induction r as [|p|r1 IH1 r2 IH2|r1 IH1 r2 IH2|g lo hi p|n r IH|];
    intros He m rest c k Hm Hk; cbn [Lang] in Hm; cbn [Re.rmatch];
    cbn [eos_free] in He.
  - subst m. apply Hk.
  - destruct Hm as [x [-> Hx]]. cbn [app]. rewrite Hx. apply Hk.
  - apply andb_true_iff in He. destruct He as [He1 He2].
    destruct Hm as [a [b [-> [Ha Hb]]]]. rewrite <- app_assoc.
    apply (IH1 He1); [exact Ha|]. intros c'. now apply (IH2 He2).
  - apply andb_true_iff in He. destruct He as [He1 He2].
    destruct Hm as [Hm|Hm].
    + apply or_else_left. now apply (IH1 He1).
    + apply or_else_right. now apply (IH2 He2).
  - destruct Hm as [Hp [Hlo Hhi]]. destruct g.
    + apply rep_greedy_complete; auto.
    + apply rep_lazy_complete; auto.
  - apply (IH He); [exact Hm|]. intros c'. apply Hk.
  - discriminate.
Qed.

(** Greedy repetition settles on the longest run after which the rest is
    matched. *)
Lemma rep_greedy_longest {A} p (k : str -> option A) v :
  forall s lo,
    Re.rep_greedy p lo None s k = Some v ->
    exists run rest,
      s = run ++ rest
      /\ Forall (fun x => p x = true) run
      /\ (lo <= length run)%nat
      /\ k rest = Some v
      /\ forall run2 rest2,
           s = run2 ++ rest2 -> Forall (fun x => p x = true) run2 ->
           (length run < length run2)%nat -> k rest2 = None.
Proof.
  induction s as [|x s IH]; intros lo H.
  - cbn [Re.rep_greedy] in H. destruct lo; [|discriminate].
    exists [], []. repeat split; auto.
    intros run2 rest2 E _ Hl. destruct run2; [cbn in Hl; lia|discriminate].
  - cbn [Re.rep_greedy option_map] in H.
    assert (Hstop : match lo with O => k (x :: s) | S _ => None end = Some v ->
                    p x = false
                    \/ Re.rep_greedy p (pred lo) None s k = None ->
                    exists run rest,
                      x :: s = run ++ rest
                      /\ Forall (fun y => p y = true) run
                      /\ (lo <= length run)%nat
                      /\ k rest = Some v
                      /\ forall run2 rest2,
                           x :: s = run2 ++ rest2 ->
                           Forall (fun y => p y = true) run2 ->
                           (length run < length run2)%nat ->
                           k rest2 = None).
    { intros Hk Hno. destruct lo; [|discriminate].
      exists [], (x :: s). repeat split; auto.
      intros run2 rest2 E Hp2 Hl.
      destruct run2 as [|y run2]; [cbn in Hl; lia|].
      cbn [app] in E. injection E as <- E.
      inversion Hp2 as [|? ? Hy Hp2']; subst.
      destruct Hno as [Hno|Hno]; [congruence|].
      destruct (k rest2) eqn:Ek; [exfalso|reflexivity].
      assert (Hk2 : k rest2 <> None) by (rewrite Ek; discriminate).
      apply (rep_greedy_complete p k rest2 Hk2 run2 O None Hp2'
               (Nat.le_0_l _) I).
      exact Hno. }
    destruct (p x) eqn:Hx; [|apply Hstop; auto].
    destruct (Re.rep_greedy p (pred lo) None s k) as [v'|] eqn:Hrec;
      cbn [Re.or_else] in H; [|apply Hstop; auto].
    injection H as ->. apply IH in Hrec.
    destruct Hrec as [run [rest [-> [Hp [Hlo [Hk Hmax]]]]]].
    exists (x :: run), rest. cbn [app length].
    repeat split; auto; [lia|].
    intros run2 rest2 E Hp2 Hl.
    destruct run2 as [|y run2]; [cbn in Hl; lia|].
    cbn [app length] in *. injection E as <- E.
    inversion Hp2; subst. apply (Hmax run2 rest2); auto. lia.
Qed.

Lemma img_attr_tail_eq :
  img_attr_tail =
  Re.Seq src_like_name
    (Re.Seq (Re.star is_space)
       (Re.Seq (Re.Chr (Re.chr_is 61))
          (Re.Seq (Re.star is_space)
             (Re.Seq (Re.Chr quote_char)
                (Re.Seq (Re.Grp 1 (Re.plus not_quote))
                   (Re.Seq (Re.Chr quote_char)
                      (Re.Seq (Re.star not_gt) (Re.Chr (Re.chr_is 62))))))))).
Proof. reflexivity. Qed.

Lemma seq_plain {A} r1 r2 s c (k : str -> Re.caps -> option A) v :
  group_free r1 = true ->
  Re.rmatch (Re.Seq r1 r2) s c k = Some v ->
  exists m rest, s = m ++ rest /\ Lang r1 m /\ Re.rmatch r2 rest c k = Some v.
Proof.
  intros Hg H. change (Re.rmatch r1 s c (fun s' c' => Re.rmatch r2 s' c' k)
                       = Some v) in H.
  apply rmatch_sound_plain in H; [exact H|exact Hg].
Qed.

Lemma seq_group_plus {A} n p r2 s c (k : str -> Re.caps -> option A) v :
  Re.rmatch (Re.Seq (Re.Grp n (Re.plus p)) r2) s c k = Some v ->
  exists m rest,
    s = m ++ rest /\ Forall (fun x => p x = true) m /\ m <> []
    /\ Re.rmatch r2 rest ((n, m) :: c) k = Some v.
Proof.
  intros H.
  change (Re.rep_greedy p 1 None s
            (fun s' => Re.rmatch r2 s'
                         ((n, firstn (length s - length s') s) :: c) k)
          = Some v) in H.
  apply rep_greedy_sound in H.
  destruct H as [run [rest [-> [Hp [Hlo [_ H]]]]]].
  rewrite firstn_app_exact in H.
  exists run, rest. repeat split; try assumption.
  destruct run; [cbn in Hlo; lia|discriminate].
Qed.

(** What the tail of the pattern matches is an assignment, and group 1 is
    its value. *)
Lemma tail_shape {A} s c (k : str -> Re.caps -> option A) r :
  Re.rmatch img_attr_tail s c k = Some r ->
  exists text v rest,
    s = text ++ rest /\ assignment text v
    /\ k rest ((1%nat, v) :: c) = Some r.
Proof.
  rewrite img_attr_tail_eq. intros H.
  apply seq_plain in H; [|reflexivity].
  destruct H as [name [s1 [-> [Hname H]]]].
  apply seq_plain in H; [|reflexivity].
  destruct H as [ws1 [s2 [-> [[Hws1 _] H]]]].
  apply seq_plain in H; [|reflexivity].
  destruct H as [eq [s3 [-> [[x [-> Hx]] H]]]].
  apply N.eqb_eq in Hx. subst x.
  apply seq_plain in H; [|reflexivity].
  destruct H as [ws2 [s4 [-> [[Hws2 _] H]]]].
  apply seq_plain in H; [|reflexivity].
  destruct H as [q [s5 [-> [[q1 [-> Hq1]] H]]]].
  apply seq_group_plus in H.
  destruct H as [v [s6 [-> [Hv [Hne H]]]]].
  apply rmatch_sound_plain in H; [|reflexivity].
  destruct H as [m [rest [-> [Hm H]]]].
  cbn [Lang] in Hm.
  destruct Hm as [a [b [-> [[q2 [-> Hq2]] [a2 [b2 [-> [[Hafter _] Hgt]]]]]]]].
  destruct Hgt as [y [-> Hy]]. apply N.eqb_eq in Hy. subst y.
  exists (name ++ ws1 ++ [61] ++ ws2 ++ [q1] ++ v ++ [q2] ++ a2 ++ [62]),
    v, rest.
  split; [now rewrite <- !app_assoc|]. split; [|exact H].
  exists name, ws1, ws2, q1, q2, a2.
  repeat split; assumption.
Qed.

Lemma assignment_lang text v : assignment text v -> Lang img_attr_tail text.
Proof.
  intros (name & ws1 & ws2 & q1 & q2 & after & -> & Hn & H1 & H2 & Hq1 & Hq2
          & Hne & Hv & Ha).
  rewrite img_attr_tail_eq. cbn [Lang].
  exists name. eexists. split; [reflexivity|]. split; [exact Hn|].
  exists ws1. eexists. split; [reflexivity|].
  split; [repeat split; [exact H1|lia]|].
  exists [61]. eexists. split; [reflexivity|].
  split; [exists 61; split; reflexivity|].
  exists ws2. eexists. split; [reflexivity|].
  split; [repeat split; [exact H2|lia]|].
  exists [q1]. eexists. split; [reflexivity|].
  split; [exists q1; auto|].
  exists v. eexists. split; [reflexivity|].
  split; [repeat split; [exact Hv|destruct v; [contradiction|cbn; lia]]|].
  exists [q2]. eexists. split; [reflexivity|].
  split; [exists q2; auto|].
  exists after, [62]. split; [reflexivity|].
  split; [repeat split; [exact Ha|lia]|].
  exists 62. split; reflexivity.
Qed.

(** A match of the pattern: the tag's opening, a run without [>], the
    assignment read, and no assignment further to the right within the
    reach of the run. *)
Lemma img_match_shape s m :
  Re.match_here img_attr_pattern s = Some m ->
  exists opening run text v rest,
    s = opening ++ run ++ text ++ rest
    /\ Re.m_text m = opening ++ run ++ text
    /\ Lang (Re.lit_nocase (u "<img")) opening
    /\ run <> [] /\ Forall (fun c => not_gt c = true) run
    /\ assignment text v
    /\ Re.group m 1 = Some v
    /\ forall run2 text2 v2 rest2,
         run ++ text ++ rest = run2 ++ text2 ++ rest2 ->
         Forall (fun c => not_gt c = true) run2 ->
         (length run < length run2)%nat ->
         ~ assignment text2 v2.
Proof.
  unfold Re.match_here. rewrite img_attr_pattern_eq. intros H.
  apply seq_plain in H; [|reflexivity].
  destruct H as [opening [s1 [-> [Hopen H]]]].
  match type of H with
  | Re.rmatch _ _ _ ?k0 = _ =>
      change (Re.rep_greedy not_gt 1 None s1
                (fun s' => Re.rmatch img_attr_tail s' [] k0) = Some m) in H
  end.
  apply rep_greedy_longest in H.
  destruct H as [run [s2 [-> [Hrun [Hlen [H Hmax]]]]]].
  apply tail_shape in H. destruct H as [text [v [rest [-> [Hasg H]]]]].
  injection H as <-. cbn [Re.m_text Re.group Re.m_caps Re.lookup Nat.eqb].
  exists opening, run, text, v, rest.
  split; [reflexivity|]. split.
  - replace (opening ++ run ++ text ++ rest)
      with ((opening ++ run ++ text) ++ rest) by now rewrite <- !app_assoc.
    apply firstn_app_exact.
  - split; [exact Hopen|]. split; [destruct run; [cbn in Hlen; lia|discriminate]|].
    split; [exact Hrun|]. split; [exact Hasg|]. split; [reflexivity|].
    intros run2 text2 v2 rest2 E Hrun2 Hl Hasg2.
    specialize (Hmax run2 (text2 ++ rest2) E Hrun2 Hl).
    revert Hmax. apply rmatch_complete; [reflexivity| |discriminate].
    eapply assignment_lang; exact Hasg2.
Qed.

Lemma match_here_text r s m :
  Re.match_here r s = Some m -> exists rest, s = Re.m_text m ++ rest.
Proof.
  unfold Re.match_here. intros H. apply rmatch_sound in H.
  destruct H as [t [rest [c' [-> [_ H]]]]]. injection H as <-.
  cbn [Re.m_text]. exists rest. now rewrite firstn_app_exact.
Qed.

(** The scan hands over matches found in the page. *)
Lemma finditer_from_In r m :
  forall s n,
    In m (Re.finditer_from r s n) ->
    exists before s', s = before ++ s' /\ Re.match_here r s' = Some m.
Proof.
  induction s as [|x s IH]; intros n H.
  - destruct n; cbn [Re.finditer_from] in H; [|destruct H].
    destruct (Re.match_here r []) as [m0|] eqn:E; [|destruct H].
    destruct H as [<-|[]]. exists [], []. auto.
  - destruct n as [|n]; cbn [Re.finditer_from] in H.
    + destruct (Re.match_here r (x :: s)) as [m0|] eqn:E.
      * destruct H as [<-|H]; [exists [], (x :: s); auto|].
        apply IH in H. destruct H as [before [s' [-> Hm]]].
        exists (x :: before), s'. auto.
      * apply IH in H. destruct H as [before [s' [-> Hm]]].
        exists (x :: before), s'. auto.
    + apply IH in H. destruct H as [before [s' [-> Hm]]].
      exists (x :: before), s'. auto.
Qed.

Lemma in_order_cons texts x s : in_order texts s -> in_order texts (x :: s).
Proof.
  destruct texts as [|t texts]; [auto|]. cbn [in_order].
  intros [before [rest [-> H]]]. exists (x :: before), rest. auto.
Qed.

(** The matches of a scan stand in the text in the order of the list,
    without overlap. *)
Lemma finditer_from_in_order r :
  forall s n,
    in_order (map Re.m_text (Re.finditer_from r s n)) (skipn n s).
Proof.
  induction s as [|x s IH]; intros n.
  - destruct n; cbn [Re.finditer_from skipn map]; [|exact I].
    destruct (Re.match_here r []) as [m|] eqn:E; cbn [map in_order]; [|exact I].
    apply match_here_text in E. destruct E as [rest E].
    exists [], rest. auto.
  - destruct n as [|n]; cbn [Re.finditer_from skipn]; [|apply IH].
    destruct (Re.match_here r (x :: s)) as [m|] eqn:E.
    + cbn [map in_order]. apply match_here_text in E. destruct E as [rest E].
      specialize (IH (pred (length (Re.m_text m)))).
      destruct (Re.m_text m) as [|y t] eqn:Et.
      * cbn [app] in E. exists [], (x :: s). split; [reflexivity|].
        cbn [length pred skipn] in IH. now apply in_order_cons.
      * cbn [app] in E. injection E as <- ->.
        exists [], rest. split; [reflexivity|].
        cbn [length pred] in IH.
        now rewrite skipn_app, skipn_all, Nat.sub_diag in IH.
    + specialize (IH O). cbn [skipn] in IH. now apply in_order_cons.
Qed.

Lemma candidates_of_keeps f ms m x :
  forall cs,
    candidates_of f ms = Ok cs -> In m ms -> f m = Ok (Some x) -> In x cs.
Proof.
  induction ms as [|m0 ms IH]; intros cs H Hin Hf; [destruct Hin|].
  cbn [candidates_of] in H.
  destruct (f m0) as [c|e] eqn:Hf0; [|discriminate]. cbn [bind] in H.
  destruct (candidates_of f ms) as [cs0|e]; [|discriminate].
  cbn [bind] in H. injection H as <-.
  destruct Hin as [->|Hin].
  - rewrite Hf in Hf0. injection Hf0 as <-. now left.
  - specialize (IH cs0 eq_refl Hin Hf). destruct c; [now right|exact IH].
Qed.

(** The value the loop reads from a match that reaches the output. *)
Lemma attr_candidate_in_output L html base out m x :
  extract_image_urls L html base = Ok out ->
  In m (Re.finditer img_attr_pattern html) ->
  attr_candidate L base m = Ok (Some x) ->
  In x out.
Proof.
  intros H Hm Hx.
  destruct (extract_image_urls_spec _ _ _ _ H) as [cs [Hc [_ [Hp _]]]].
  eapply Permutation_in; [symmetry; exact Hp|]. apply fromkeys_In.
  unfold candidates in Hc.
  destruct (candidates_of (attr_candidate L base) _) as [cs1|e] eqn:H1;
    [|discriminate].
  cbn [bind] in Hc.
  destruct (candidates_of (bare_candidate L) _) as [cs2|e]; [|discriminate].
  cbn [bind] in Hc. injection Hc as <-.
  apply in_or_app. left. eapply candidates_of_keeps; eassumption.
Qed.

Lemma attr_candidate_value L base m v :
  Re.group m 1 = Some v ->
  attr_candidate L base m = value_candidate L base v.
Proof.
  intros H. unfold attr_candidate, value_candidate, group_text.
  now rewrite H.
Qed.

(** C3, as the code has it: from every [img] tag the scan matches, the
    extractor reads the value of the right-most assignment in the tag, an
    assignment being one of the names [data-src], [data-original],
    [data-image], [src] (in any case, also as the ending of a longer name or
    inside a value), [=], and a quoted value; resolved against the base and
    passed through the filter, that value is the tag's candidate in the
    output.  The lazy-load attributes have no priority: of a lazy-load
    attribute and a plain [src] in one tag, with nothing after them, the one
    written last is read.  The tags are taken in document order. *)
Theorem img_attr_rightmost_wins (L : Lib) (html base : str) :
  in_order (map Re.m_text (Re.finditer img_attr_pattern html)) html
  /\ (forall m,
        In m (Re.finditer img_attr_pattern html) ->
        exists before opening run text v rest,
          html = before ++ opening ++ run ++ text ++ rest
          /\ Re.m_text m = opening ++ run ++ text
          /\ Lang (Re.lit_nocase (u "<img")) opening
          /\ run <> [] /\ Forall (fun c => not_gt c = true) run
          /\ assignment text v
          /\ Re.group m 1 = Some v
          /\ (forall run2 text2 v2 rest2,
                run ++ text ++ rest = run2 ++ text2 ++ rest2 ->
                Forall (fun c => not_gt c = true) run2 ->
                (length run < length run2)%nat ->
                ~ assignment text2 v2)
          /\ attr_candidate L base m = value_candidate L base v
          /\ (forall out x,
                extract_image_urls L html base = Ok out ->
                value_candidate L base v = Ok (Some x) ->
                In x out))
  /\ (forall lazy plain rest,
        attr_valueb lazy = true -> attr_valueb plain = true ->
        img_attr_values (tag_lazy_first lazy plain ++ rest)
        = plain :: img_attr_values rest
        /\ img_attr_values (tag_plain_first lazy plain ++ rest)
           = lazy :: img_attr_values rest).
Proof.
  split; [apply (finditer_from_in_order img_attr_pattern html O)|].
  split; [|intros lazy plain rest; apply img_attr_last_attribute_wins].
  intros m Hm.
  destruct (finditer_from_In _ _ _ _ Hm) as [before [s' [-> Hmatch]]].
  destruct (img_match_shape _ _ Hmatch)
    as [opening [run [text [v [rest [-> [Ht [Ho [Hne [Hrun [Ha [Hg Hmax]]]]]]]]]]]].
  exists before, opening, run, text, v, rest.
  repeat split; try assumption.
  - now apply attr_candidate_value.
  - intros out x Hout Hx.
    eapply attr_candidate_in_output; [exact Hout|exact Hm|].
    now rewrite (attr_candidate_value L base m v Hg).
Qed.

Lemma img_attr_rightmost_wins_witness :
  (exists before opening run text v rest,
     tag_with_lazy_src = before ++ opening ++ run ++ text ++ rest
     /\ Re.m_text lazy_src_match = opening ++ run ++ text
     /\ Lang (Re.lit_nocase (u "<img")) opening
     /\ run <> [] /\ Forall (fun c => not_gt c = true) run
     /\ assignment text v
     /\ Re.group lazy_src_match 1 = Some v
     /\ (forall run2 text2 v2 rest2,
           run ++ text ++ rest = run2 ++ text2 ++ rest2 ->
           Forall (fun c => not_gt c = true) run2 ->
           (length run < length run2)%nat ->
           ~ assignment text2 v2)
     /\ attr_candidate ascii_lib mobile_url lazy_src_match
        = value_candidate ascii_lib mobile_url v
     /\ (forall out x,
           extract_image_urls ascii_lib tag_with_lazy_src mobile_url = Ok out ->
           value_candidate ascii_lib mobile_url v = Ok (Some x) ->
           In x out))
  /\ img_attr_values
       (tag_lazy_first (u "//image-comic.pstatic.net/webtoon/1/01.jpg")
          (u "//image-comic.pstatic.net/ui/blank.gif") ++ tag_with_lazy_src)
     = u "//image-comic.pstatic.net/ui/blank.gif"
       :: img_attr_values tag_with_lazy_src
  /\ img_attr_values
       (tag_plain_first (u "//image-comic.pstatic.net/webtoon/1/01.jpg")
          (u "//image-comic.pstatic.net/ui/blank.gif") ++ tag_with_lazy_src)
     = u "//image-comic.pstatic.net/webtoon/1/01.jpg"
       :: img_attr_values tag_with_lazy_src.
Proof.
  split.
  - apply (proj1 (proj2 (img_attr_rightmost_wins ascii_lib tag_with_lazy_src
                           mobile_url))).
    vm_compute. left. reflexivity.
  - apply (proj2 (proj2 (img_attr_rightmost_wins ascii_lib tag_with_lazy_src
                           mobile_url))).
    + vm_compute. reflexivity.
    + vm_compute. reflexivity.
Defined.

(** The name may be the ending of a longer one: after [src] and [data-src],
    the value of [data-lazy-src] is the one read. *)
Lemma img_attr_reads_name_ending :
  img_attr_values tag_with_lazy_src = [u "X"].
Proof. vm_compute. reflexivity. Qed.

(** ** Chapter label: composition *)

(** The number read from a subtitle: its first run of digits, cut at five. *)
Lemma number_pattern_group L s m :
  Re.search (number_pattern L) s = Some m ->
  exists pre t post,
    s = pre ++ t ++ post /\ Re.group m 1 = Some t
    /\ Forall (fun c => is_digit L c = true) t
    /\ (1 <= length t <= 5)%nat.
Proof.
  intros H. apply search_position in H. destruct H as [pre [s' [-> H]]].
  unfold Re.match_here, number_pattern in H. cbn [Re.rmatch] in H.
  apply rep_greedy_sound in H.
  destruct H as [run [rest [-> [Hall [Hlo [Hhi Hk]]]]]].
  inversion Hk; subst m; clear Hk.
  exists pre, run, rest. split; [reflexivity|].
  unfold Re.group. cbn [Re.m_caps Re.lookup Nat.eqb].
  rewrite firstn_app_exact. auto.
Qed.

Lemma page_titles_number L html ep_title ep_main ep_sub ep_no :
  page_titles L html = (ep_title, ep_main, ep_sub, ep_no) ->
  ep_no =
  (if truthy ep_sub
   then match Re.search (number_pattern L)
                (match ep_sub with Some t => t | None => [] end) with
        | Some mnum => Re.group mnum 1
        | None => None
        end
   else None).
Proof.
  unfold page_titles. destruct (truthy html).
  - intros H. inversion H; subst. reflexivity.
  - intros H. inversion H; subst. reflexivity.
Qed.



(** ** Chapter label: which part is sanitised *)

Lemma sub_from_chars (Q : char -> Prop) r repl :
  Forall Q repl ->
  forall s skip, Forall Q s -> Forall Q (Re.sub_from r repl s skip).
Proof.
  intros Hr. induction s as [|x s IH]; intros skip Hs.
  - destruct skip; cbn; [|constructor].
    destruct (Re.match_here r []) as [m|]; [|constructor].
    destruct (length (Re.m_text m)); exact Hr.
  - inversion Hs; subst. destruct skip as [|n]; cbn [Re.sub_from].
    + destruct (Re.match_here r (x :: s)) as [m|].
      * destruct (length (Re.m_text m)).
        -- apply Forall_app. split; [exact Hr|]. constructor; auto.
        -- apply Forall_app. split; [exact Hr|]. auto.
      * constructor; auto.
    + auto.
Qed.

Lemma rep_greedy_total {A} p (k : str -> option A) :
  (forall t, k t <> None) ->
  forall s, Re.rep_greedy p 0 None s k <> None.
Proof.
  intros Hk. induction s as [|x s IH]; cbn; [apply Hk|].
  destruct (p x); [|apply Hk].
  destruct (Re.rep_greedy p 0 None s k); cbn; [discriminate|apply Hk].
Qed.

Lemma match_plus_none p x s :
  Re.match_here (Re.plus p) (x :: s) = None -> p x = false.
Proof.
  unfold Re.match_here, Re.plus. cbn [Re.rmatch Re.rep_greedy pred option_map].
  destruct (p x); [|reflexivity]. intros H. exfalso.
  match type of H with
  | Re.or_else (Re.rep_greedy ?p 0 None ?s ?k) _ = None =>
      pose proof (rep_greedy_total p k ltac:(discriminate) s) as Hn;
      destruct (Re.rep_greedy p 0 None s k); [discriminate|contradiction]
  end.
Qed.

Lemma match_plus_length p s m :
  Re.match_here (Re.plus p) s = Some m -> (1 <= length (Re.m_text m))%nat.
Proof.
  unfold Re.match_here, Re.plus. cbn [Re.rmatch]. intros H.
  apply rep_greedy_sound in H.
  destruct H as [run [rest [-> [_ [Hlo [_ Hk]]]]]].
  inversion Hk; subst m. cbn [Re.m_text]. now rewrite firstn_app_exact.
Qed.

(** [re.sub(class+, "", s)] leaves no character of the class. *)
Lemma sub_plus_removes p :
  forall s skip,
    Forall (fun c => p c = false) (Re.sub_from (Re.plus p) [] s skip).
Proof.
  induction s as [|x s IH]; intros skip.
  - destruct skip; cbn; [|constructor].
    destruct (Re.match_here (Re.plus p) []) as [m|]; [|constructor].
    destruct (length (Re.m_text m)); constructor.
  - destruct skip as [|n]; cbn [Re.sub_from]; [|apply IH].
    destruct (Re.match_here (Re.plus p) (x :: s)) as [m|] eqn:Hm.
    + apply match_plus_length in Hm.
      destruct (length (Re.m_text m)); [lia|]. cbn [app]. apply IH.
    + constructor; [now apply match_plus_none in Hm|apply IH].
Qed.

Lemma drop_while_Forall (Q : char -> Prop) p s :
  Forall Q s -> Forall Q (drop_while p s).
Proof.
  induction 1 as [|x s Hx Hs IH]; cbn; [constructor|].
  destruct (p x); [exact IH|now constructor].
Qed.

Lemma strip_by_Forall (Q : char -> Prop) p s :
  Forall Q s -> Forall Q (strip_by p s).
Proof.
  intros H. unfold strip_by, rstrip_by, lstrip_by.
  apply Forall_rev, drop_while_Forall, Forall_rev, drop_while_Forall, H.
Qed.

Lemma firstn_Forall (Q : char -> Prop) n :
  forall s, Forall Q s -> Forall Q (firstn n s).
Proof.
  induction n as [|n IH]; intros s H; [constructor|].
  destruct H; cbn; constructor; auto.
Qed.

Lemma slugify_chars s : Forall (fun c => slug_char c = true) (slugify s).
Proof.
  unfold slugify. apply firstn_Forall, strip_by_Forall.
  apply sub_from_chars; [repeat constructor|].
  eapply Forall_impl; [|apply sub_plus_removes].
  intros c Hc. cbv beta in Hc. apply negb_false_iff in Hc. exact Hc.
Qed.

Lemma chapter_slug_chars L ep_main ep_title s :
  chapter_slug L ep_main ep_title = Some s ->
  Forall (fun c => slug_char c = true) s.
Proof.
  unfold chapter_slug.
  destruct (truthy (or_opt ep_main ep_title)).
  - match goal with
    | |- (if ?c then _ else _) = _ -> _ => destruct c
    end; cbn [option_map]; intros H; inversion H; subst.
    + apply sub_from_chars; [constructor|apply slugify_chars].
    + apply slugify_chars.
  - cbn. discriminate.
Qed.

Lemma slug_char_no_separator c : slug_char c = true -> separator c = false.
Proof.
  unfold slug_char, separator, ascii_letter, ascii_upper_letter,
    ascii_lower_letter, ascii_digit, in_range.
  rewrite !orb_true_iff, !andb_true_iff, !N.leb_le, N.eqb_eq.
  intros H. apply orb_false_iff. rewrite !N.eqb_neq. lia.
Qed.

Lemma is_digit_no_separator L c : is_digit L c = true -> separator c = false.
Proof.
  unfold is_digit, separator, ascii_digit, in_range, is_ascii.
  rewrite orb_true_iff, !andb_true_iff, !N.leb_le, negb_true_iff, N.ltb_ge.
  intros H. apply orb_false_iff. rewrite !N.eqb_neq. lia.
Qed.

(** The label holds a path separator only if the [titleId] or the [no] of
    the URL does: the slug and the number read from the page are clean. *)
Lemma parse_chapter_label_separators L url html label meta :
  parse_chapter_label L url html = Ok (label, meta) ->
  Forall (fun c => separator c = false) (meta_titleId meta) ->
  Forall (fun c => separator c = false) (meta_no meta) ->
  Forall (fun c => separator c = false) label.
Proof.
  unfold parse_chapter_label.
  destruct (Url.urlparse L url []) as [p|e]; [|discriminate]. cbn [bind].
  destruct (page_titles L html) as [[[ep_title ep_main] ep_sub] ep_no] eqn:Ht.
  intros H. inversion H; subst label meta; clear H.
  cbn [meta_titleId meta_no]. intros Htid Hno.
  apply page_titles_number in Ht.
  assert (Hnum : Forall (fun c => separator c = false)
                   match or_opt ep_no (Some []) with
                   | Some t => if is_empty t
                               then qget (Url.parse_qs L (Url.query p)) (u "no")
                               else t
                   | None => qget (Url.parse_qs L (Url.query p)) (u "no")
                   end).
  { unfold or_opt. destruct (truthy ep_no) eqn:Hte; cbn [is_empty]; [|exact Hno].
    destruct ep_no as [t|]; [|discriminate].
    destruct (is_empty t); [exact Hno|].
    destruct (truthy ep_sub); [|discriminate].
    destruct (Re.search (number_pattern L) _) as [m|] eqn:Hs; [|discriminate].
    destruct (number_pattern_group _ _ _ Hs) as [pre [t' [post [_ [Hg [Hd _]]]]]].
    rewrite Hg in Ht. inversion Ht; subst t'.
    eapply Forall_impl; [|exact Hd]. apply is_digit_no_separator. }
  assert (Hslug : forall s, chapter_slug L ep_main ep_title = Some s ->
                            Forall (fun c => separator c = false) s).
  { intros s Hs. apply chapter_slug_chars in Hs.
    eapply Forall_impl; [|exact Hs]. apply slug_char_no_separator. }
  unfold compose_label, or_opt.
  destruct (chapter_slug L ep_main ep_title) as [s|] eqn:Hsl.
  - specialize (Hslug s eq_refl).
    destruct (truthy (Some s));
      destruct (_ || _);
      repeat (apply Forall_app; split);
      try assumption; repeat constructor.
  - cbn [truthy].
    destruct (_ || _);
      repeat (apply Forall_app; split);
      try assumption; repeat constructor.
Qed.

(** * Further properties of the script *)

(** ** [infer_ext] *)

Lemma first_suffix_spec p exts fallback :
  (In (first_suffix p exts fallback) exts
   /\ endswith p (first_suffix p exts fallback) = true)
  \/ (first_suffix p exts fallback = fallback
      /\ Forall (fun x => endswith p x = false) exts).
Proof.
  induction exts as [|x exts IH]; cbn.
  - right. split; [reflexivity|constructor].
  - destruct (endswith p x) eqn:E.
    + left. auto.
    + destruct IH as [[Hin He]|[He Hall]].
      * left. auto.
      * right. split; [exact He|]. now constructor.
Qed.

(** X1: [infer_ext] answers with one of [.jpg], [.jpeg], [.png], [.webp]:
    the first of them the lower-cased path of the URL ends with (the query
    and the fragment play no part), and [.jpg] when it ends with none; it
    raises exactly when [urlparse] does. *)
Theorem infer_ext_known (L : Lib) (url : str) :
  (forall ext, infer_ext L url = Ok ext ->
     In ext known_exts
     /\ exists p,
          Url.urlparse L url [] = Ok p
          /\ (endswith (lower L (Url.path p)) ext = true
              \/ (ext = u ".jpg"
                  /\ Forall (fun x => endswith (lower L (Url.path p)) x = false)
                       known_exts)))
  /\ (forall e, infer_ext L url = Raise e <-> Url.urlparse L url [] = Raise e).
Proof.
  unfold infer_ext. destruct (Url.urlparse L url []) as [p|e0]; cbn [bind].
  - split.
    + intros ext [= <-].
      pose proof (first_suffix_spec (lower L (Url.path p)) known_exts
                    (u ".jpg")) as S.
      match goal with
      | |- In ?e _ /\ _ =>
          change (first_suffix (lower L (Url.path p)) known_exts (u ".jpg"))
            with e in S;
          set (x := e) in *; clearbody x
      end.
      destruct S as [[Hin He]|[He Hall]].
      * split; [exact Hin|]. exists p. split; [reflexivity|]. now left.
      * subst x. split; [now left|].
        exists p. split; [reflexivity|]. right. auto.
    + intros e. split; discriminate.
  - split; [discriminate|]. intros e. split; intros [= ->]; reflexivity.
Qed.

Lemma infer_ext_known_witness :
  In (u ".png") known_exts.
Proof.
  apply (proj1 (infer_ext_known ascii_lib
                  (u "https://image-comic.pstatic.net/a/B.PNG?x=1.jpg"))
           (u ".png")).
  vm_compute. reflexivity.
Defined.

(** ** [is_image_bytes] *)

Lemma magic_first_byte x sig :
  startswith (x :: sig) jpeg_magic
  || startswith (x :: sig) png_magic
  || (startswith (x :: sig) (u "RIFF")) = true ->
  x = 255 \/ x = 137 \/ x = 82.
Proof.
  cbn [startswith jpeg_magic png_magic].
  change (u "RIFF") with [82; 73; 70; 70]. cbn [startswith].
  destruct (N.eqb_spec x 255); [auto|].
  destruct (N.eqb_spec x 137); [auto|].
  destruct (N.eqb_spec x 82); [auto|]. cbn. discriminate.
Qed.

(** X2: without a declared image content type, [is_image_bytes] is the
    signature test and nothing more: the test for leading markup never
    changes the answer, because a payload with an image signature starts
    with a byte that is neither white space nor [<] nor [{]. *)
Theorem is_image_bytes_is_magic (L : Lib) (data : bytes)
    (ctype : option str) :
  ctype_is_image L ctype = false ->
  is_image_bytes L data ctype = has_image_magic data.
Proof.
  intros H. unfold is_image_bytes, has_image_magic. rewrite H. cbv zeta.
  destruct (firstn 16 data) as [|x sig] eqn:Hsig.
  - reflexivity.
  - match goal with
    | |- ?m && negb ?g = ?m => destruct m eqn:Hm; [|reflexivity]
    end.
    assert (Hx : x = 255 \/ x = 137 \/ x = 82).
    { apply (magic_first_byte x sig).
      apply orb_true_iff in Hm. destruct Hm as [Hm|Hm].
      - apply orb_true_iff. left. exact Hm.
      - apply andb_true_iff in Hm. destruct Hm as [Hm _].
        apply orb_true_iff. right. exact Hm. }
    destruct Hx as [-> | [-> | ->]]; reflexivity.
Qed.

Lemma is_image_bytes_is_magic_witness :
  is_image_bytes ascii_lib (u "RIFF" ++ [0; 0; 0; 0] ++ u "WEBPVP8 ")
    (Some (u "application/octet-stream"))
  = has_image_magic (u "RIFF" ++ [0; 0; 0; 0] ++ u "WEBPVP8 ").
Proof.
  apply (is_image_bytes_is_magic ascii_lib). vm_compute. reflexivity.
Defined.

(** ** [fetch] *)

Lemma request_count_app a b :
  request_count (a ++ b) = (request_count a + request_count b)%nat.
Proof. unfold request_count. now rewrite filter_app, length_app. Qed.

Lemma sleeps_app a b : sleeps (a ++ b) = sleeps a ++ sleeps b.
Proof. unfold sleeps. apply flat_map_app. Qed.

Lemma fetch_loop_footprint url hdrs ri attempts :
  forall n i d last w r w',
    n = O \/ (Z.of_nat n + i = attempts + 1)%Z ->
    fetch_loop n i attempts url hdrs ri d last w = (r, w') ->
    files w' = files w /\ net w' = net w
    /\ exists evs,
         trace w' = trace w ++ evs
         /\ forallb is_net_event evs = true
         /\ (request_count evs <= n)%nat
         /\ (1 <= n -> 1 <= request_count evs)%nat
         /\ requests w' = (requests w + request_count evs)%nat
         /\ length (sleeps evs) = (request_count evs - 1)%nat.
Proof.
  induction n as [|n IH]; intros i d last w r w' Hinv H; cbn [fetch_loop] in H.
  - inversion H; subst. repeat split; try reflexivity.
    exists []. rewrite app_nil_r. cbn. repeat split; auto; lia.
  - destruct Hinv as [Hinv|Hinv]; [discriminate|].
    unfold urlopen in H.
    assert (Hone : forall r0,
      (r0, log (EvRequest url hdrs)
             {| files := files w; net := net w; requests := S (requests w);
                trace := trace w |}) = (r, w') ->
      files w' = files w /\ net w' = net w
      /\ exists evs,
           trace w' = trace w ++ evs
           /\ forallb is_net_event evs = true
           /\ (request_count evs <= S n)%nat
           /\ (1 <= S n -> 1 <= request_count evs)%nat
           /\ requests w' = (requests w + request_count evs)%nat
           /\ length (sleeps evs) = (request_count evs - 1)%nat).
    { intros r0 E. inversion E; subst. unfold log. cbn [files net trace requests].
      repeat split; try reflexivity.
      exists [EvRequest url hdrs]. cbn. repeat split; auto; lia. }
    destruct (net w (requests w) url hdrs) as [data info|e].
    + now apply Hone in H.
    + destruct (caught_by_fetch e); [|now apply Hone in H].
      destruct (i >=? attempts)%Z eqn:Hi; [now apply Hone in H|].
      apply IH in H; [|right; lia].
      unfold log in H. cbn [files net trace requests] in H.
      destruct H as [Hf [Hn [evs [Ht [Hev [Hc [Hpos [Hr Hs]]]]]]]].
      assert (Hn1 : (1 <= n)%nat) by lia. specialize (Hpos Hn1).
      repeat split; try assumption.
      exists (EvRequest url hdrs :: EvSleep d :: evs).
      split; [rewrite Ht, <- !app_assoc; reflexivity|].
      split; [cbn; exact Hev|].
      change (EvRequest url hdrs :: EvSleep d :: evs)
        with ([EvRequest url hdrs] ++ [EvSleep d] ++ evs).
      rewrite !request_count_app, !sleeps_app, !length_app. cbn.
      repeat split; lia.
Qed.

(** The effects of the loop are requests to the one URL with sleeps in
    between, the delays doubling. *)
Lemma fetch_loop_trace url hdrs ri attempts :
  forall n i j last w r w',
    n = O \/ (Z.of_nat n + i = attempts + 1)%Z ->
    fetch_loop n i attempts url hdrs ri (backoff j) last w = (r, w') ->
    files w' = files w /\ net w' = net w
    /\ exists m,
         (m <= n)%nat /\ (1 <= n -> 1 <= m)%nat
         /\ trace w' = trace w ++ retry_events url hdrs j m
         /\ requests w' = (requests w + m)%nat.
Proof.
  induction n as [|n IH]; intros i j last w r w' Hinv H; cbn [fetch_loop] in H.
  - inversion H; subst. repeat split.
    exists O. cbn [retry_events]. rewrite app_nil_r.
    repeat split; lia.
  - destruct Hinv as [Hinv|Hinv]; [discriminate|].
    unfold urlopen in H.
    assert (Hone : forall r0,
      (r0, log (EvRequest url hdrs)
             {| files := files w; net := net w; requests := S (requests w);
                trace := trace w |}) = (r, w') ->
      files w' = files w /\ net w' = net w
      /\ exists m,
           (m <= S n)%nat /\ (1 <= S n -> 1 <= m)%nat
           /\ trace w' = trace w ++ retry_events url hdrs j m
           /\ requests w' = (requests w + m)%nat).
    { intros r0 E. inversion E; subst. unfold log. cbn [files net trace requests].
      repeat split. exists 1%nat. cbn [retry_events].
      repeat split; lia. }
    destruct (net w (requests w) url hdrs) as [data info|e].
    + now apply Hone in H.
    + destruct (caught_by_fetch e); [|now apply Hone in H].
      destruct (i >=? attempts)%Z eqn:Hi; [now apply Hone in H|].
      rewrite backoff_double in H.
      apply IH in H; [|right; lia].
      unfold log in H. cbn [files net trace requests] in H.
      destruct H as [Hf [Hn [m [Hm [Hpos [Ht Hr]]]]]].
      assert (Hn1 : (1 <= n)%nat) by lia. specialize (Hpos Hn1).
      repeat split; try assumption.
      exists (S m). destruct m as [|m]; [lia|].
      rewrite retry_events_S.
      repeat split; try lia.
      rewrite Ht, <- !app_assoc. reflexivity.
Qed.

(** X3: whatever the network answers, [fetch] leaves the files alone and
    does nothing but this: some number of requests, at most [attempts] (none
    when [attempts] is not positive, one at least otherwise), all to the
    given URL with the same headers, with exactly one sleep between two
    consecutive requests, of half a second doubled each time. *)
Theorem fetch_footprint (url : str) (referer : option str) (attempts : Z)
    (return_info : bool) (w : world) :
  let w' := snd (fetch url referer attempts return_info w) in
  files w' = files w /\ net w' = net w
  /\ exists n,
       (Z.of_nat n <= Z.max 0 attempts)%Z
       /\ ((1 <= attempts)%Z -> (1 <= n)%nat)
       /\ trace w' = trace w ++ retry_events url (fetch_headers referer) 0 n
       /\ requests w' = (requests w + n)%nat
       /\ request_count (retry_events url (fetch_headers referer) 0 n) = n
       /\ sleeps (retry_events url (fetch_headers referer) 0 n)
          = map backoff (seq 0 (n - 1)).
Proof.
  cbv zeta. unfold fetch.
  destruct (fetch_loop (Z.to_nat attempts) 1 attempts url
              (fetch_headers referer) return_info (1 # 2)%Q None w)
    as [r w'] eqn:H.
  cbn [snd]. change (1 # 2)%Q with (backoff 0) in H.
  apply fetch_loop_trace in H.
  - destruct H as [Hf [Hn [m [Hm [Hpos [Ht Hr]]]]]].
    repeat split; try assumption.
    exists m. repeat split; try assumption; try lia.
    + apply retry_events_requests.
    + apply retry_events_sleeps.
  - destruct (Z.to_nat attempts) eqn:E; [now left|right; lia].
Qed.

(** The outcome of the loop is the answer to its last request. *)
Lemma fetch_loop_outcome url hdrs ri attempts :
  forall n i d last w r w',
    (Z.of_nat n + i = attempts + 1)%Z -> (1 <= n)%nat ->
    fetch_loop n i attempts url hdrs ri d last w = (r, w') ->
    (requests w < requests w')%nat
    /\ match r with
       | Ok (data, info) =>
           exists info',
             net w (requests w' - 1)%nat url hdrs = Response data info'
             /\ info = if ri then Some info' else None
       | Raise e => net w (requests w' - 1)%nat url hdrs = Fails e
       end.
Proof.
  induction n as [|n IH]; intros i d last w r w' Hinv Hn H; [lia|].
  cbn [fetch_loop] in H. unfold urlopen in H.
  destruct (net w (requests w) url hdrs) as [data info|e] eqn:Hnet.
  - inversion H; subst. unfold log. cbn [requests].
    replace (S (requests w) - 1)%nat with (requests w) by lia.
    split; [lia|]. exists info. auto.
  - destruct (caught_by_fetch e).
    + destruct (i >=? attempts)%Z eqn:Hi.
      * inversion H; subst. unfold log. cbn [requests fetch_give_up].
        replace (S (requests w) - 1)%nat with (requests w) by lia.
        split; [lia|assumption].
      * apply IH in H; [|lia|lia].
        unfold log in H. cbn [requests net] in H.
        destruct H as [Hlt H]. split; [lia|exact H].
    + inversion H; subst. unfold log. cbn [requests].
      replace (S (requests w) - 1)%nat with (requests w) by lia.
      split; [lia|assumption].
Qed.

(** X4: when [attempts] is positive, [fetch] makes at least one request and
    its outcome is the answer to the last request it made: the body and,
    with [return_info], the headers of that response, or the exception of
    that failure. *)
Theorem fetch_outcome_is_last_answer (url : str) (referer : option str)
    (attempts : Z) (return_info : bool) (w : world)
    (r : result (bytes * option dict)) (w' : world) :
  (1 <= attempts)%Z ->
  fetch url referer attempts return_info w = (r, w') ->
  (requests w < requests w')%nat
  /\ match r with
     | Ok (data, info) =>
         exists info',
           net w (requests w' - 1)%nat url (fetch_headers referer)
           = Response data info'
           /\ info = if return_info then Some info' else None
     | Raise e =>
         net w (requests w' - 1)%nat url (fetch_headers referer) = Fails e
     end.
Proof.
  intros Ha H. unfold fetch in H.
  apply fetch_loop_outcome in H; [exact H|lia|lia].
Qed.

Lemma fetch_outcome_is_last_answer_witness :
  (requests dead_network
   < requests (snd (fetch mobile_url None 3 false dead_network)))%nat
  /\ net dead_network
       (requests (snd (fetch mobile_url None 3 false dead_network)) - 1)%nat
       mobile_url (fetch_headers None)
     = Fails TimeoutError.
Proof.
  apply (fetch_outcome_is_last_answer mobile_url None 3 false dead_network
           (Raise TimeoutError)
           (snd (fetch mobile_url None 3 false dead_network))).
  - lia.
  - reflexivity.
Defined.

(** X5: with no attempt to make ([attempts] zero or negative), [fetch]
    raises [RuntimeError] at once: no request, no sleep, the world as it
    was. *)
Theorem fetch_without_attempts (url : str) (referer : option str)
    (attempts : Z) (return_info : bool) (w : world) :
  (attempts <= 0)%Z ->
  fetch url referer attempts return_info w = (Raise no_attempt_error, w).
Proof.
  intros H. unfold fetch.
  replace (Z.to_nat attempts) with O by lia. reflexivity.
Qed.

Lemma fetch_without_attempts_witness :
  fetch mobile_url None 0 true dead_network
  = (Raise no_attempt_error, dead_network).
Proof. apply fetch_without_attempts. lia. Defined.

(** A failure [fetch] does not catch ends the loop at once. *)
Lemma fetch_loop_uncaught url hdrs ri attempts e :
  forall k n i j last w,
    (Z.of_nat n + i = attempts + 1)%Z -> (k < n)%nat ->
    (forall a, (a < k)%nat -> exists e',
        net w (requests w + a)%nat url hdrs = Fails e'
        /\ caught_by_fetch e' = true) ->
    net w (requests w + k)%nat url hdrs = Fails e ->
    caught_by_fetch e = false ->
    exists w',
      fetch_loop n i attempts url hdrs ri (backoff j) last w = (Raise e, w')
      /\ trace w' = trace w ++ retry_events url hdrs j (S k).
Proof.
  induction k as [|k IH]; intros n i j last w Hi Hn Hfail Hbad Hun.
  - destruct n as [|n]; [lia|].
    rewrite Nat.add_0_r in Hbad.
    cbn [fetch_loop]. unfold urlopen. rewrite Hbad, Hun.
    eexists. split; reflexivity.
  - destruct n as [|n]; [lia|].
    destruct (Hfail O ltac:(lia)) as [e0 [He Hc]].
    rewrite Nat.add_0_r in He.
    cbn [fetch_loop]. unfold urlopen. rewrite He, Hc.
    assert (Hlt : (i >=? attempts)%Z = false) by lia.
    rewrite Hlt, backoff_double.
    match goal with
    | |- context [fetch_loop _ _ _ _ _ _ _ _ ?w1] => set (w1' := w1)
    end.
    destruct (IH n (i + 1)%Z (S j) (Some e0) w1') as [w' [Hrun Htr]].
    + lia.
    + lia.
    + intros a Ha. destruct (Hfail (S a) ltac:(lia)) as [e2 [He2 Hc2]].
      exists e2. split; [|assumption]. subst w1'. unfold log.
      cbn [trace requests files net].
      replace (S (requests w) + a)%nat with (requests w + S a)%nat by lia.
      assumption.
    + subst w1'. unfold log. cbn [trace requests files net].
      replace (S (requests w) + k)%nat with (requests w + S k)%nat by lia.
      assumption.
    + assumption.
    + exists w'. split; [exact Hrun|].
      subst w1'. unfold log in Htr. cbn [trace] in Htr.
      rewrite Htr, retry_events_S, <- !app_assoc. reflexivity.
Qed.

(** X6: an exception outside the four kinds [fetch] catches is not retried:
    when request [k] (after [k] caught failures, with attempts left) fails
    with it, [fetch] raises it at once, after [k + 1] requests and [k]
    sleeps, however many attempts remain. *)
Theorem fetch_uncaught_error_not_retried (url : str) (referer : option str)
    (attempts : Z) (return_info : bool) (w : world) (k : nat) (e : exn) :
  (k < Z.to_nat attempts)%nat ->
  (forall a, (a < k)%nat -> exists e',
      net w (requests w + a)%nat url (fetch_headers referer) = Fails e'
      /\ caught_by_fetch e' = true) ->
  net w (requests w + k)%nat url (fetch_headers referer) = Fails e ->
  caught_by_fetch e = false ->
  exists w',
    fetch url referer attempts return_info w = (Raise e, w')
    /\ trace w' = trace w ++ retry_events url (fetch_headers referer) 0 (S k)
    /\ request_count (retry_events url (fetch_headers referer) 0 (S k)) = S k
    /\ length (sleeps (retry_events url (fetch_headers referer) 0 (S k))) = k.
Proof.
  intros Hk Hfail Hbad Hun. unfold fetch.
  destruct (fetch_loop_uncaught url (fetch_headers referer) return_info
              attempts e k (Z.to_nat attempts) 1%Z O None w)
    as [w' [Hrun Htr]]; try assumption; [lia|].
  exists w'. change (backoff 0) with (1 # 2)%Q in Hrun.
  split; [exact Hrun|]. split; [exact Htr|].
  split; [apply retry_events_requests|].
  rewrite retry_events_sleeps, length_map, length_seq. lia.
Qed.

Lemma fetch_uncaught_error_not_retried_witness :
  exists w',
    fetch (u "ftp//x") None 3 false refusing_network
    = (Raise (ValueError (u "unknown url type")), w')
    /\ trace w'
       = trace refusing_network
         ++ retry_events (u "ftp//x") (fetch_headers None) 0 1
    /\ request_count (retry_events (u "ftp//x") (fetch_headers None) 0 1)
       = 1%nat
    /\ length (sleeps (retry_events (u "ftp//x") (fetch_headers None) 0 1))
       = O.
Proof.
  apply (fetch_uncaught_error_not_retried (u "ftp//x") None 3 false
           refusing_network O (ValueError (u "unknown url type"))).
  - vm_compute. lia.
  - intros a Ha. lia.
  - reflexivity.
  - reflexivity.
Defined.

(** ** File names of [download_images] *)

Lemma path_eqb_eq a : forall b, path_eqb a b = true <-> a = b.
Proof.
  induction a as [|x a IH]; intros [|y b]; cbn; split; try easy.
  - intros H. apply andb_true_iff in H. destruct H as [H1 H2].
    apply str_eqb_eq in H1. apply IH in H2. congruence.
  - intros [= -> ->]. apply andb_true_iff. split.
    + now apply str_eqb_eq.
    + now apply IH.
Qed.

Lemma uint_chars_inj d : forall d', uint_chars d = uint_chars d' -> d = d'.
Proof.
  induction d; intros d'; destruct d'; cbn; intros H;
    try discriminate; try reflexivity;
    injection H as H; f_equal; auto.
Qed.

Lemma uint_chars_digits d : Forall (fun c => ascii_digit c = true) (uint_chars d).
Proof. induction d; cbn; constructor; auto. Qed.

Lemma uint_chars_zeros k d :
  uint_chars (Nat.iter k Decimal.D0 d) = repeat 48 k ++ uint_chars d.
Proof.
  induction k as [|k IH]; [reflexivity|].
  change (Nat.iter (S k) Decimal.D0 d)
    with (Decimal.D0 (Nat.iter k Decimal.D0 d)).
  cbn [uint_chars repeat app]. now rewrite IH.
Qed.

Lemma of_uint_zeros k d :
  Nat.of_uint (Nat.iter k Decimal.D0 d) = Nat.of_uint d.
Proof.
  induction k as [|k IH]; [reflexivity|].
  change (Nat.iter (S k) Decimal.D0 d)
    with (Decimal.D0 (Nat.iter k Decimal.D0 d)).
  exact IH.
Qed.

Lemma zero_pad_uint pad n :
  zero_pad pad n
  = uint_chars (Nat.iter (pad - length (str_of_nat n)) Decimal.D0
                  (Nat.to_uint n)).
Proof. unfold zero_pad, str_of_nat. now rewrite uint_chars_zeros. Qed.

(** The number is read back from the padded text. *)
Lemma zero_pad_inj pad i j : zero_pad pad i = zero_pad pad j -> i = j.
Proof.
  rewrite !zero_pad_uint. intros H. apply uint_chars_inj in H.
  apply (f_equal Nat.of_uint) in H.
  now rewrite !of_uint_zeros, !Unsigned.of_to in H.
Qed.

Lemma zero_pad_digits pad n :
  Forall (fun c => ascii_digit c = true) (zero_pad pad n).
Proof. rewrite zero_pad_uint. apply uint_chars_digits. Qed.

Lemma zero_pad_length pad n :
  length (zero_pad pad n) = Nat.max pad (length (str_of_nat n)).
Proof.
  unfold zero_pad. cbv zeta. rewrite length_app, repeat_length.
  unfold str, char.
  match goal with
  | |- (_ - ?k + _ = _)%nat => generalize k
  end.
  intros k. destruct (Nat.max_spec pad k) as [[H ->]|[H ->]]; lia.
Qed.

Lemma prefix_unique {A} (P : A -> Prop) :
  forall a b x y r r',
    Forall P a -> Forall P b -> ~ P x -> ~ P y ->
    a ++ x :: r = b ++ y :: r' -> a = b.
Proof.
  induction a as [|c a IH]; intros [|d b] x y r r' Ha Hb Hx Hy H; cbn in H.
  - reflexivity.
  - injection H as -> _. inversion Hb; contradiction.
  - injection H as -> _. inversion Ha; contradiction.
  - injection H as -> H. inversion Ha; inversion Hb; subst.
    f_equal. apply (IH b x y r r'); assumption.
Qed.

Lemma known_ext_dot ext :
  In ext known_exts -> exists r, ext = 46 :: r.
Proof.
  intros [<-|[<-|[<-|[<-|[]]]]]; eexists; reflexivity.
Qed.

(** The index is read back from the file name. *)
Lemma file_name_inj pad i j e e' :
  In e known_exts -> In e' known_exts ->
  zero_pad pad i ++ e = zero_pad pad j ++ e' -> i = j.
Proof.
  intros He He' H.
  destruct (known_ext_dot _ He) as [r ->].
  destruct (known_ext_dot _ He') as [r' ->].
  apply (zero_pad_inj pad).
  eapply (prefix_unique (fun c => ascii_digit c = true)); [| | | |exact H];
    try apply zero_pad_digits; cbn; discriminate.
Qed.

Lemma infer_ext_in_known L url ext :
  infer_ext L url = Ok ext -> In ext known_exts.
Proof.
  unfold infer_ext. destruct (Url.urlparse L url []) as [p|e]; [|discriminate].
  cbn [bind]. intros [= <-].
  generalize (lower L (Url.path p)). intros q.
  cbn [first_suffix].
  repeat match goal with
  | |- context [endswith q ?e] => destruct (endswith q e)
  end; cbn; auto 6.
Qed.

(** ** What [download_images] does to the world *)

Lemma fetch_effects url referer attempts ri w r w' :
  fetch url referer attempts ri w = (r, w') ->
  files w' = files w /\ net w' = net w
  /\ (requests w <= requests w' <= requests w + Z.to_nat attempts)%nat.
Proof.
  unfold fetch. intros H. apply fetch_loop_footprint in H.
  - destruct H as [Hf [Hn [evs [_ [_ [Hc [_ [Hr _]]]]]]]].
    repeat split; try assumption; lia.
  - destruct (Z.to_nat attempts) eqn:E; [now left|right; lia].
Qed.

Section Items.
Variable L : Lib.
Variable dest_dir : path.
Variable referer : str.
Variable overwrite : bool.
Variable pad : nat.

Local Abbreviation item := (download_item L dest_dir referer overwrite pad).
Local Abbreviation loop := (download_loop L dest_dir referer overwrite pad).

(** One turn of the loop raises exactly when [infer_ext] does, before any
    effect. *)
Lemma download_item_raises idx url w :
  match infer_ext L url with
  | Raise e => item idx url w = (Raise e, w)
  | Ok _ => exists kept w', item idx url w = (Ok kept, w')
  end.
Proof.
  unfold download_item, bindM, lift, path_exists, stat_size, catch, ret.
  destruct (infer_ext L url) as [ext|e]; [|reflexivity].
  destruct (_ && _); [eauto|].
  destruct (fetch url (Some referer) 3 true w) as [[[data info]|err] w1];
    [|eauto].
  destruct (negb _); [eauto|].
  unfold write_bytes, write_file, sleep. eauto.
Qed.

(** What one turn of the loop changes. *)
Lemma download_item_effects idx url w kept w' :
  item idx url w = (Ok kept, w') ->
  net w' = net w
  /\ (requests w <= requests w' <= requests w + 3)%nat
  /\ match kept with
     | None => files w' = files w
     | Some (out, m) =>
         exists ext,
           infer_ext L url = Ok ext
           /\ meta_index m = idx
           /\ meta_filename m = zero_pad pad idx ++ ext
           /\ meta_image_url m = url
           /\ out = path_join dest_dir (zero_pad pad idx ++ ext)
           /\ ((w' = w /\ overwrite = false
                /\ exists c, files w out = Some c
                             /\ meta_size m = content_size c)
               \/ exists data,
                    (forall p, files w' p
                               = if path_eqb p out then Some (Binary data)
                                 else files w p)
                    /\ meta_size m = length data)
     end.
Proof.
  unfold download_item, bindM, lift, path_exists, stat_size, catch, ret.
  destruct (infer_ext L url) as [ext|e]; [|discriminate].
  destruct (files w (path_join dest_dir (zero_pad pad idx ++ ext)))
    as [c|] eqn:Hc; cbn [andb].
  - destruct overwrite eqn:Ho; cbn [negb].
    + destruct (fetch url (Some referer) 3 true w) as [[[data info]|err] w1]
        eqn:Hf; apply fetch_effects in Hf; destruct Hf as [Hf [Hn Hr]].
      * destruct (negb _).
        -- intros [= <- <-]. repeat split; try assumption; lia.
        -- unfold write_bytes, write_file, sleep, log.
           intros [= <- <-]. cbn [net requests files].
           repeat split; try assumption; try lia.
           exists ext. repeat split. right. exists data.
           split; [|reflexivity]. intros p. now rewrite Hf.
      * intros [= <- <-]. repeat split; try assumption; lia.
    + intros [= <- <-]. repeat split; try lia.
      exists ext. repeat split. left. repeat split.
      exists c. split; [exact Hc|]. cbn [meta_size]. now rewrite Hc.
  - destruct (fetch url (Some referer) 3 true w) as [[[data info]|err] w1]
      eqn:Hf; apply fetch_effects in Hf; destruct Hf as [Hf [Hn Hr]].
    + destruct (negb _).
      * intros [= <- <-]. repeat split; try assumption; lia.
      * unfold write_bytes, write_file, sleep, log.
        intros [= <- <-]. cbn [net requests files].
        repeat split; try assumption; try lia.
        exists ext. repeat split. right. exists data.
        split; [|reflexivity]. intros p. now rewrite Hf.
    + intros [= <- <-]. repeat split; try assumption; lia.
Qed.

(** The loop raises exactly when one of its URLs does not parse. *)
Lemma download_loop_returns urls :
  forall idx s m w,
    Forall (fun url => exists ext, infer_ext L url = Ok ext) urls ->
    exists res w', loop urls idx s m w = (Ok res, w').
Proof.
  induction urls as [|url rest IH]; intros idx s m w H.
  - cbn. unfold ret. eauto.
  - inversion H as [|? ? [ext Hext] Hrest]; subst.
    cbn [download_loop]. unfold bindM.
    pose proof (download_item_raises idx url w) as Hitem.
    rewrite Hext in Hitem. destruct Hitem as [kept [w1 ->]].
    destruct kept as [[out m1]|]; apply IH; assumption.
Qed.

Lemma download_loop_raises urls :
  forall idx s m w e w',
    loop urls idx s m w = (Raise e, w') ->
    Exists (fun url => infer_ext L url = Raise e) urls.
Proof.
  induction urls as [|url rest IH]; intros idx s m w e w' H.
  - cbn in H. discriminate.
  - cbn [download_loop] in H. unfold bindM in H.
    pose proof (download_item_raises idx url w) as Hitem.
    destruct (infer_ext L url) as [ext|e0] eqn:Hext.
    + destruct Hitem as [kept [w1 Hitem]]. rewrite Hitem in H.
      apply Exists_cons_tl.
      destruct kept as [[out m1]|]; eapply IH; exact H.
    + rewrite Hitem in H. injection H as <- _.
      apply Exists_cons_hd. exact Hext.
Qed.

(** Three requests at most for each URL, whatever the outcome. *)
Lemma download_loop_requests urls :
  forall idx s m w r w',
    loop urls idx s m w = (r, w') ->
    net w' = net w
    /\ (requests w <= requests w' <= requests w + 3 * length urls)%nat.
Proof.
  induction urls as [|url rest IH]; intros idx s m w r w' H.
  - cbn in H. inversion H; subst. split; [reflexivity|lia].
  - cbn [download_loop] in H. unfold bindM in H.
    destruct (item idx url w) as [[kept|e] w1] eqn:Hitem.
    + apply download_item_effects in Hitem.
      destruct Hitem as [Hn [Hr _]].
      assert (Hrest : net w' = net w1
                      /\ (requests w1 <= requests w'
                          <= requests w1 + 3 * length rest)%nat)
        by (destruct kept as [[out m1]|]; eapply IH; exact H).
      destruct Hrest as [Hn' Hr']. cbn [length].
      split; [congruence|lia].
    + pose proof (download_item_raises idx url w) as Hr.
      destruct (infer_ext L url) as [ext|e0].
      * destruct Hr as [k [w2 Hr]]. congruence.
      * rewrite Hr in Hitem. inversion Hitem; subst.
        inversion H; subst. split; [reflexivity|lia].
Qed.

Lemma out_of_named_inj r1 r2 :
  named_by_index L pad r1 -> named_by_index L pad r2 ->
  out_of dest_dir r1 = out_of dest_dir r2 ->
  meta_index r1 = meta_index r2.
Proof.
  intros [e1 [H1 N1]] [e2 [H2 N2]] H.
  unfold out_of, path_join in H. apply app_inv_head in H.
  injection H as H. rewrite N1, N2 in H.
  eapply file_name_inj; [| |exact H]; eapply infer_ext_in_known; eassumption.
Qed.

(** The files of the loop: every record is named by its index, its file is
    on disk with the recorded size when the loop ends, and no other file
    has changed. *)
Lemma download_loop_files urls :
  forall idx w s m w',
    loop urls idx [] [] w = (Ok (s, m), w') ->
    Forall (named_by_index L pad) m
    /\ (forall p, ~ In p s -> files w' p = files w p)
    /\ Forall (on_disk dest_dir w') m.
Proof.
  induction urls as [|url rest IH]; intros idx w s m w' H.
  - cbn in H. inversion H; subst. repeat split; constructor.
  - pose proof (download_loop_inv L dest_dir referer overwrite pad _ _ _ _ _ _ H)
      as [_ [Hsorted _]].
    cbn [download_loop] in H. unfold bindM in H.
    destruct (item idx url w) as [[kept|e] w1] eqn:Hitem; [|discriminate].
    apply download_item_effects in Hitem. destruct Hitem as [_ [_ Hk]].
    destruct kept as [[out m1]|].
    + rewrite download_loop_acc in H.
      destruct (loop rest (S idx) [] [] w1) as [[[s0 m0]|e] w2] eqn:Hrest;
        [|discriminate].
      inversion H; subst; clear H. cbn [app] in *.
      pose proof (download_loop_inv L dest_dir referer overwrite pad _ _ _ _ _ _ Hrest)
        as [Hs0 _].
      destruct (IH _ _ _ _ _ Hrest) as [Hnamed [Hsame Hdisk]].
      destruct Hk as [ext [Hext [Hi [Hname [Hurl [Hout Hcase]]]]]].
      assert (Hm1 : named_by_index L pad m1).
      { exists ext. rewrite Hurl, Hi. auto. }
      assert (Hout1 : out = out_of dest_dir m1).
      { unfold out_of. now rewrite Hname. }
      assert (Hfresh : ~ In out s0).
      { rewrite Hs0, Hout1. intros Hin. apply in_map_iff in Hin.
        destruct Hin as [r [Hr Hin]].
        rewrite Forall_forall in Hnamed.
        apply out_of_named_inj in Hr; [|now apply Hnamed|exact Hm1].
        cbn [map] in Hsorted. apply StronglySorted_inv in Hsorted.
        destruct Hsorted as [_ Hlt]. rewrite Forall_map, Forall_forall in Hlt.
        specialize (Hlt r Hin). lia. }
      split; [now constructor|]. split.
      * intros p Hp. cbn [In] in Hp.
        rewrite Hsame by tauto.
        destruct Hcase as [[-> _]|[data [Hw _]]]; [reflexivity|].
        rewrite Hw. destruct (path_eqb p out) eqn:E; [|reflexivity].
        apply path_eqb_eq in E. subst p. tauto.
      * constructor; [|exact Hdisk].
        unfold on_disk. rewrite <- Hout1, (Hsame _ Hfresh).
        destruct Hcase as [[-> [_ [c [Hc Hsz]]]]|[data [Hw Hsz]]].
        -- exists c. auto.
        -- exists (Binary data). rewrite Hw.
           rewrite (proj2 (path_eqb_eq out out) eq_refl). auto.
    + destruct (IH _ _ _ _ _ H) as [Hnamed [Hsame Hdisk]].
      repeat split; try assumption.
      intros p Hp. rewrite Hsame by assumption. now rewrite Hk.
Qed.

End Items.

Lemma infer_ext_parses L url :
  (exists ext, infer_ext L url = Ok ext) <-> parses L url.
Proof.
  unfold infer_ext, parses.
  destruct (Url.urlparse L url []) as [p|e]; cbn [bind]; split;
    intros [x H]; try discriminate; eauto.
Qed.

Lemma listing_written_files urls dest_dir meta_dir w p :
  files (listing_written urls dest_dir meta_dir w) p
  = if path_eqb p (listing_path dest_dir meta_dir)
    then Some (Text (join [10] urls ++ [10]))
    else files w p.
Proof. reflexivity. Qed.

(** A target of the loop is not the listing: its name starts with a
    digit. *)
Lemma target_not_listing dest_dir meta_dir pad idx ext :
  path_eqb (path_join dest_dir (zero_pad pad idx ++ ext))
    (listing_path dest_dir meta_dir) = false.
Proof.
  destruct (path_eqb _ _) eqn:E; [|reflexivity]. exfalso.
  apply path_eqb_eq in E. unfold listing_path, path_join in E.
  apply app_inj_tail in E. destruct E as [_ E].
  pose proof (zero_pad_digits pad idx) as Hd.
  pose proof (zero_pad_length pad idx) as Hl.
  assert (Hpos : (1 <= length (str_of_nat idx))%nat).
  { unfold str_of_nat. destruct (Nat.to_uint idx) eqn:Eu; cbn; try lia.
    exfalso. pose proof (Unsigned.to_of (Nat.to_uint idx)) as Hn.
    rewrite Unsigned.of_to, Eu in Hn. discriminate. }
  destruct (zero_pad pad idx) as [|c rest].
  - cbn [length] in Hl. lia.
  - inversion Hd as [|? ? Hc _]; subst. cbn in E. injection E as -> _.
    discriminate.
Qed.

(** With every target on disk and overwriting off, the loop only reads. *)
Lemma download_loop_resumes L dest_dir referer pad urls :
  forall idx w,
    (forall k url, nth_error urls k = Some url ->
       exists ext c,
         infer_ext L url = Ok ext
         /\ files w (path_join dest_dir (zero_pad pad (idx + k) ++ ext))
            = Some c) ->
    exists metas,
      download_loop L dest_dir referer false pad urls idx [] [] w
      = (Ok (map (out_of dest_dir) metas, metas), w)
      /\ map meta_image_url metas = urls
      /\ map meta_index metas = seq idx (length urls)
      /\ Forall (on_disk dest_dir w) metas.
Proof.
  induction urls as [|url rest IH]; intros idx w H.
  - exists []. cbn. repeat split. constructor.
  - destruct (H O url eq_refl) as [ext [c [Hext Hc]]].
    rewrite Nat.add_0_r in Hc.
    destruct (IH (S idx) w) as [metas [Hrun [Hurls [Hidx Hdisk]]]].
    { intros k url' Hk. destruct (H (S k) url' Hk) as [ext' [c' [He' Hc']]].
      exists ext', c'. split; [exact He'|].
      now replace (S idx + k)%nat with (idx + S k)%nat by lia. }
    set (m1 := {| meta_index := idx; meta_filename := zero_pad pad idx ++ ext;
                  meta_image_url := url; meta_size := content_size c |}).
    exists (m1 :: metas).
    cbn [download_loop]. unfold bindM.
    assert (Hitem : download_item L dest_dir referer false pad idx url w
                    = (Ok (Some (out_of dest_dir m1, m1)), w)).
    { unfold download_item, bindM, lift, path_exists, stat_size, ret.
      rewrite Hext. unfold out_of, m1, path_join in *. cbn [meta_filename].
      cbv beta iota zeta. rewrite Hc. cbn [andb negb]. cbv beta iota.
      rewrite Hc. reflexivity. }
    rewrite Hitem, download_loop_acc, Hrun.
    subst m1. cbn [app map length seq meta_image_url meta_index].
    split; [reflexivity|]. split; [now rewrite Hurls|].
    split; [now rewrite Hidx|].
    constructor; [|exact Hdisk].
    exists c. split; [exact Hc|reflexivity].
Qed.

(** ** [download_images] *)

(** X7: network failures and payloads that are not images never make
    [download_images] raise: it returns whenever every URL goes through
    [urlparse], and when it raises, the exception is the one [urlparse]
    raises on one of the URLs (the call of [infer_ext] stands outside the
    [try]).  File-system errors are not part of the model. *)
Theorem download_images_raises_only_on_unparsable (L : Lib)
    (urls : list str) (dest_dir : path) (referer : str) (overwrite : bool)
    (meta_dir : option path) (w : world) :
  (Forall (parses L) urls ->
   exists res w',
     download_images L urls dest_dir referer overwrite meta_dir w
     = (Ok res, w'))
  /\ (forall e w',
        download_images L urls dest_dir referer overwrite meta_dir w
        = (Raise e, w') ->
        Exists (fun url => Url.urlparse L url [] = Raise e) urls).
Proof.
  rewrite download_images_unfold. split.
  - intros H. apply download_loop_returns.
    eapply Forall_impl; [|exact H]. intros url. apply infer_ext_parses.
  - intros e w' H. apply download_loop_raises in H.
    eapply Exists_impl; [|exact H]. intros url. unfold infer_ext.
    destruct (Url.urlparse L url []); cbn [bind]; congruence.
Qed.

Lemma download_images_raises_only_on_unparsable_witness :
  exists res w',
    download_images ascii_lib [page12_url; page3_url] sample_dest mobile_url
      true None dead_network
    = (Ok res, w').
Proof.
  apply (proj1 (download_images_raises_only_on_unparsable ascii_lib
                  [page12_url; page3_url] sample_dest mobile_url true None
                  dead_network)).
  repeat constructor; eexists; vm_compute; reflexivity.
Defined.

(** X8: a second run over a finished chapter only reads.  When overwriting
    is off and the target of every URL is on disk, [download_images] makes
    its two directories, writes the listing and returns one record for each
    URL, in order, with the size found on disk: no request is made and no
    image is written. *)
Theorem download_images_resume (L : Lib) (urls : list str) (dest_dir : path)
    (referer : str) (meta_dir : option path) (w : world) :
  (forall k url, nth_error urls k = Some url ->
     exists ext c,
       infer_ext L url = Ok ext
       /\ files w (target dest_dir (pad_of urls) k ext) = Some c) ->
  exists metas,
    download_images L urls dest_dir referer false meta_dir w
    = (Ok (map (out_of dest_dir) metas, metas),
       listing_written urls dest_dir meta_dir w)
    /\ map meta_image_url metas = urls
    /\ map meta_index metas = seq 1 (length urls)
    /\ Forall (on_disk dest_dir w) metas
    /\ requests (listing_written urls dest_dir meta_dir w) = requests w.
Proof.
  intros H. rewrite download_images_unfold.
  destruct (download_loop_resumes L dest_dir referer (pad_of urls) urls 1
              (listing_written urls dest_dir meta_dir w))
    as [metas [Hrun [Hurls [Hidx Hdisk]]]].
  - intros k url Hk. destruct (H k url Hk) as [ext [c [Hext Hc]]].
    exists ext, c. split; [exact Hext|].
    rewrite listing_written_files, target_not_listing. exact Hc.
  - exists metas. repeat split; try assumption.
    pose proof (download_loop_files L dest_dir referer false (pad_of urls)
                  _ _ _ _ _ _ Hrun) as [Hnamed _].
    rewrite Forall_forall in *. intros r Hr.
    destruct (Hdisk r Hr) as [c [Hc Hsz]].
    destruct (Hnamed r Hr) as [ext [_ Hname]].
    exists c. split; [|exact Hsz].
    rewrite listing_written_files in Hc. unfold out_of in *.
    rewrite Hname in *. now rewrite target_not_listing in Hc.
Qed.

Lemma download_images_resume_witness :
  exists metas,
    download_images ascii_lib [repeated_url] sample_dest mobile_url false
      None resumed_world
    = (Ok (map (out_of sample_dest) metas, metas),
       listing_written [repeated_url] sample_dest None resumed_world)
    /\ map meta_image_url metas = [repeated_url]
    /\ map meta_index metas = seq 1 (length [repeated_url])
    /\ Forall (on_disk sample_dest resumed_world) metas
    /\ requests (listing_written [repeated_url] sample_dest None
                   resumed_world)
       = requests resumed_world.
Proof.
  apply (download_images_resume ascii_lib [repeated_url] sample_dest
           mobile_url None resumed_world).
  intros [|k] url Hk; cbn in Hk.
  - injection Hk as <-. exists (u ".jpg"), (Binary [255; 216; 255; 224]).
    split; vm_compute; reflexivity.
  - destruct k; discriminate.
Defined.

Lemma named_paths_distinct L dest_dir pad metas :
  StronglySorted lt (map meta_index metas) ->
  Forall (named_by_index L pad) metas ->
  NoDup (map (out_of dest_dir) metas)
  /\ NoDup (map meta_filename metas).
Proof.
  induction metas as [|r metas IH]; intros Hs Hn; cbn [map].
  - split; constructor.
  - cbn [map] in Hs. apply StronglySorted_inv in Hs. destruct Hs as [Hs Hlt].
    inversion Hn as [|? ? Hr Hrest]; subst.
    destruct (IH Hs Hrest) as [IH1 IH2].
    rewrite Forall_map, Forall_forall in Hlt.
    rewrite Forall_forall in Hrest.
    assert (Hfresh : forall r', In r' metas ->
                                out_of dest_dir r' <> out_of dest_dir r).
    { intros r' Hin E.
      apply (out_of_named_inj L dest_dir pad) in E;
        [|now apply Hrest|exact Hr].
      specialize (Hlt r' Hin). lia. }
    split; constructor; try assumption.
    + intros Hin. apply in_map_iff in Hin. destruct Hin as [r' [E Hin]].
      exact (Hfresh r' Hin E).
    + intros Hin. apply in_map_iff in Hin. destruct Hin as [r' [E Hin]].
      apply (Hfresh r' Hin). unfold out_of. now rewrite E.
Qed.

(** X9: the records of [download_images] never share a file.  Each file
    name is the index of the URL in the list, zero-padded, followed by the
    extension [infer_ext] gives for the URL; the index is read back from the
    name, so the returned paths are pairwise distinct. *)
Theorem download_images_paths_distinct (L : Lib) (urls : list str)
    (dest_dir : path) (referer : str) (overwrite : bool)
    (meta_dir : option path) (w : world) (saved : list path)
    (metas : list image_meta) (w' : world) :
  download_images L urls dest_dir referer overwrite meta_dir w
  = (Ok (saved, metas), w') ->
  Forall (named_by_index L (pad_of urls)) metas
  /\ NoDup saved
  /\ NoDup (map meta_filename metas).
Proof.
  rewrite download_images_unfold. intros H.
  pose proof (download_loop_inv L dest_dir referer overwrite _ _ _ _ _ _ _ H)
    as [Hs [Hsorted _]].
  pose proof (download_loop_files L dest_dir referer overwrite _ _ _ _ _ _ _ H)
    as [Hnamed _].
  split; [exact Hnamed|]. subst saved.
  now apply (named_paths_distinct L dest_dir (pad_of urls)).
Qed.

Lemma download_images_paths_distinct_witness :
  Forall (named_by_index ascii_lib (pad_of [page12_url; page3_url]))
    (snd (match fst (download_images ascii_lib [page12_url; page3_url]
                       sample_dest mobile_url true None serving_network)
          with Ok res => res | Raise _ => ([], []) end))
  /\ NoDup [path_join sample_dest (u "001.jpg");
            path_join sample_dest (u "002.jpg")]
  /\ NoDup (map meta_filename
              (snd (match fst (download_images ascii_lib
                                 [page12_url; page3_url] sample_dest
                                 mobile_url true None serving_network)
                    with Ok res => res | Raise _ => ([], []) end))).
Proof.
  apply (download_images_paths_distinct ascii_lib [page12_url; page3_url]
           sample_dest mobile_url true None serving_network
           [path_join sample_dest (u "001.jpg");
            path_join sample_dest (u "002.jpg")]
           (snd (match fst (download_images ascii_lib [page12_url; page3_url]
                              sample_dest mobile_url true None
                              serving_network)
                 with Ok res => res | Raise _ => ([], []) end))
           (snd (download_images ascii_lib [page12_url; page3_url]
                   sample_dest mobile_url true None serving_network))).
  vm_compute. reflexivity.
Defined.

(** X10: when [download_images] returns, the file of every record is on
    disk with the size the record states, whether it was found there or
    written during the run: no later item overwrites it. *)
Theorem download_images_files_on_disk (L : Lib) (urls : list str)
    (dest_dir : path) (referer : str) (overwrite : bool)
    (meta_dir : option path) (w : world) (saved : list path)
    (metas : list image_meta) (w' : world) :
  download_images L urls dest_dir referer overwrite meta_dir w
  = (Ok (saved, metas), w') ->
  Forall (on_disk dest_dir w') metas.
Proof.
  rewrite download_images_unfold. intros H.
  now apply download_loop_files in H.
Qed.

Lemma download_images_files_on_disk_witness :
  Forall (on_disk sample_dest
            (snd (download_images ascii_lib [page12_url; page3_url]
                    sample_dest mobile_url true None serving_network)))
    (snd (match fst (download_images ascii_lib [page12_url; page3_url]
                       sample_dest mobile_url true None serving_network)
          with Ok res => res | Raise _ => ([], []) end)).
Proof.
  apply (download_images_files_on_disk ascii_lib [page12_url; page3_url]
           sample_dest mobile_url true None serving_network
           [path_join sample_dest (u "001.jpg");
            path_join sample_dest (u "002.jpg")]).
  vm_compute. reflexivity.
Defined.

(** X11: [download_images] changes no file but the listing and the paths it
    returns. *)
Theorem download_images_touches_only_outputs (L : Lib) (urls : list str)
    (dest_dir : path) (referer : str) (overwrite : bool)
    (meta_dir : option path) (w : world) (saved : list path)
    (metas : list image_meta) (w' : world) (p : path) :
  download_images L urls dest_dir referer overwrite meta_dir w
  = (Ok (saved, metas), w') ->
  p <> listing_path dest_dir meta_dir ->
  ~ In p saved ->
  files w' p = files w p.
Proof.
  rewrite download_images_unfold. intros H Hp Hin.
  apply download_loop_files in H. destruct H as [_ [Hsame _]].
  rewrite (Hsame p Hin), listing_written_files.
  destruct (path_eqb p (listing_path dest_dir meta_dir)) eqn:E;
    [|reflexivity].
  apply path_eqb_eq in E. contradiction.
Qed.

Lemma download_images_touches_only_outputs_witness :
  files (snd (download_images ascii_lib [page12_url; page3_url] sample_dest
                mobile_url true None serving_network))
    (path_join sample_dest (u "003.jpg"))
  = files serving_network (path_join sample_dest (u "003.jpg")).
Proof.
  apply (download_images_touches_only_outputs ascii_lib
           [page12_url; page3_url] sample_dest mobile_url true None
           serving_network
           [path_join sample_dest (u "001.jpg");
            path_join sample_dest (u "002.jpg")]
           (snd (match fst (download_images ascii_lib [page12_url; page3_url]
                              sample_dest mobile_url true None
                              serving_network)
                 with Ok res => res | Raise _ => ([], []) end))).
  - vm_compute. reflexivity.
  - vm_compute. discriminate.
  - vm_compute. intros [H|[H|[]]]; discriminate.
Defined.

(** X12: [download_images] makes at most three requests for each URL,
    whatever the network answers and whatever the outcome, and none at all
    for an empty list. *)
Theorem download_images_request_budget (L : Lib) (urls : list str)
    (dest_dir : path) (referer : str) (overwrite : bool)
    (meta_dir : option path) (w : world) :
  let w' := snd (download_images L urls dest_dir referer overwrite meta_dir w)
  in
  net w' = net w
  /\ (requests w <= requests w' <= requests w + 3 * length urls)%nat.
Proof.
  cbv zeta. rewrite download_images_unfold.
  destruct (download_loop L dest_dir referer overwrite (pad_of urls) urls 1
              [] [] (listing_written urls dest_dir meta_dir w))
    as [r w'] eqn:H.
  apply download_loop_requests in H. exact H.
Qed.

(** ** [download_images]: why a record is there *)

Section Causes.
Variable L : Lib.
Variable dest_dir : path.
Variable referer : str.
Variable overwrite : bool.
Variable pad : nat.

Local Abbreviation item := (download_item L dest_dir referer overwrite pad).
Local Abbreviation loop := (download_loop L dest_dir referer overwrite pad).

Ltac fetch_branch ext Hgo :=
  let data := fresh "data" in
  let info := fresh "info" in
  let err := fresh "err" in
  let w1 := fresh "w1" in
  let Hf := fresh "Hf" in
  let Hfiles := fresh "Hfiles" in
  let Himg := fresh "Himg" in
  match goal with
  | |- context [fetch ?url ?r ?a ?i ?w] =>
      destruct (fetch url r a i w) as [[[data info]|err] w1] eqn:Hf;
      pose proof (fetch_effects _ _ _ _ _ _ _ Hf) as [Hfiles _];
      [ destruct (is_image_bytes L data (content_type info)) eqn:Himg;
        cbn [negb];
        [ unfold write_bytes, write_file, sleep, log;
          intros [= <- <-]; right; split; [exact Hgo|];
          exists data, info, w1; cbn [meta_image_url meta_size trace files];
          unfold out_of; cbn [meta_filename];
          repeat split; try assumption;
          [ now rewrite <- app_assoc
          | now rewrite (proj2 (path_eqb_eq _ _) eq_refl) ]
        | intros [= <- <-]; exists ext; repeat split; try assumption;
          right; exists data, info; auto ]
      | intros [= <- <-]; exists ext; repeat split; try assumption;
        left; exists err; exact Hf ]
  end.

(** Why one turn of the loop appends a record, or none. *)
Lemma download_item_cause idx url w kept w' :
  item idx url w = (Ok kept, w') ->
  match kept with
  | Some (out, r) => record_cause L dest_dir referer overwrite w w' r
  | None => item_dropped L dest_dir referer overwrite pad idx url w w'
  end.
Proof.
  unfold download_item, bindM, lift, path_exists, stat_size, catch, ret.
  destruct (infer_ext L url) as [ext|e] eqn:Hext; [|discriminate].
  destruct (files w (path_join dest_dir (zero_pad pad idx ++ ext)))
    as [c|] eqn:Hc; cbn [andb].
  - destruct overwrite eqn:Ho; cbn [negb].
    + assert (Hgo : true = true
                    \/ files w (path_join dest_dir (zero_pad pad idx ++ ext))
                       = None) by now left.
      fetch_branch ext Hgo.
    + intros [= <- <-]. left. unfold skipped_existing, out_of.
      cbn [meta_filename meta_size]. repeat split.
      exists c. rewrite Hc. auto.
  - assert (Hgo : overwrite = true
                  \/ files w (path_join dest_dir (zero_pad pad idx ++ ext))
                     = None) by now right.
    fetch_branch ext Hgo.
Qed.

(** The world after the first [k + 1] items, through the first item. *)
Lemma download_loop_step url rest idx w kept w1 k :
  item idx url w = (Ok kept, w1) ->
  snd (loop (firstn (S k) (url :: rest)) idx [] [] w)
  = snd (loop (firstn k rest) (S idx) [] [] w1).
Proof.
  intros Hitem. cbn [firstn download_loop]. unfold bindM. rewrite Hitem.
  destruct kept as [[out m1]|]; [|reflexivity].
  rewrite download_loop_acc.
  now destruct (loop (firstn k rest) (S idx) [] [] w1) as [[[s2 m2]|e2] w2].
Qed.

(** Every record has its cause in the world its item ran in, and every URL
    without a record was dropped there. *)
Lemma download_loop_cause urls :
  forall idx w s m w',
    loop urls idx [] [] w = (Ok (s, m), w') ->
    Forall (fun r =>
      record_cause L dest_dir referer overwrite
        (snd (loop (firstn (meta_index r - idx) urls) idx [] [] w))
        (snd (loop (firstn (S (meta_index r - idx)) urls) idx [] [] w))
        r) m
    /\ (forall k url,
          nth_error urls k = Some url ->
          ~ In (idx + k)%nat (map meta_index m) ->
          item_dropped L dest_dir referer overwrite pad (idx + k) url
            (snd (loop (firstn k urls) idx [] [] w))
            (snd (loop (firstn (S k) urls) idx [] [] w))).
Proof.
  induction urls as [|url rest IH]; intros idx w s m w' H.
  - cbn in H. inversion H; subst. split; [constructor|].
    intros [|k] url Hk; discriminate.
  - pose proof (download_loop_inv L dest_dir referer overwrite pad _ _ _ _ _ _ H)
      as [_ [_ Hbounds]].
    cbn [download_loop] in H. unfold bindM in H.
    destruct (item idx url w) as [[kept|e] w1] eqn:Hitem; [|discriminate].
    pose proof (download_item_cause _ _ _ _ _ Hitem) as Hcause.
    pose proof (download_item_effects L dest_dir referer overwrite pad
                  _ _ _ _ _ Hitem) as [_ [_ Hkept]].
    assert (Hfirst : snd (loop (firstn 1 (url :: rest)) idx [] [] w) = w1).
    { rewrite (download_loop_step _ _ _ _ _ _ O Hitem). reflexivity. }
    assert (Hlater : forall s0 m0,
               loop rest (S idx) [] [] w1 = (Ok (s0, m0), w') ->
               Forall (fun r =>
                 record_cause L dest_dir referer overwrite
                   (snd (loop (firstn (meta_index r - idx) (url :: rest))
                           idx [] [] w))
                   (snd (loop (firstn (S (meta_index r - idx)) (url :: rest))
                           idx [] [] w))
                   r) m0
               /\ (forall k url0,
                     nth_error rest k = Some url0 ->
                     ~ In (S idx + k)%nat (map meta_index m0) ->
                     item_dropped L dest_dir referer overwrite pad
                       (idx + S k) url0
                       (snd (loop (firstn (S k) (url :: rest)) idx [] [] w))
                       (snd (loop (firstn (S (S k)) (url :: rest))
                               idx [] [] w)))).
    { intros s0 m0 H0.
      pose proof (download_loop_inv L dest_dir referer overwrite pad
                    _ _ _ _ _ _ H0) as [_ [_ Hb0]].
      destruct (IH _ _ _ _ _ H0) as [Hc0 Hg0]. split.
      - rewrite Forall_forall in *. intros r Hr.
        specialize (Hc0 r Hr). destruct (Hb0 r Hr) as [Hidx _].
        replace (meta_index r - idx)%nat with (S (meta_index r - S idx))
          by lia.
        rewrite !(download_loop_step _ _ _ _ _ _ _ Hitem). exact Hc0.
      - intros k url0 Hk Hnot.
        rewrite !(download_loop_step _ _ _ _ _ _ _ Hitem).
        replace (idx + S k)%nat with (S idx + k)%nat by lia.
        now apply Hg0. }
    destruct kept as [[out m1]|].
    + rewrite download_loop_acc in H.
      destruct (loop rest (S idx) [] [] w1) as [[[s0 m0]|e] w2] eqn:Hrest;
        [|discriminate].
      injection H as <- <- <-. cbn [app].
      destruct (Hlater _ _ eq_refl) as [Hc0 Hg0].
      destruct Hkept as [ext [_ [Hi _]]].
      split.
      * constructor; [|exact Hc0].
        rewrite Hi, Nat.sub_diag, Hfirst. cbn [firstn download_loop ret snd].
        exact Hcause.
      * intros [|k] url0 Hk Hnot.
        -- exfalso. apply Hnot. cbn [map]. left. rewrite Hi. lia.
        -- cbn [nth_error] in Hk. apply Hg0; [exact Hk|].
           intros Hin. apply Hnot. cbn [map]. right.
           now replace (idx + S k)%nat with (S idx + k)%nat by lia.
    + destruct (Hlater _ _ H) as [Hc0 Hg0]. split; [exact Hc0|].
      intros [|k] url0 Hk Hnot.
      * cbn [nth_error] in Hk. injection Hk as <-.
        rewrite Nat.add_0_r, Hfirst. cbn [firstn download_loop ret snd].
        exact Hcause.
      * cbn [nth_error] in Hk. apply Hg0; [exact Hk|].
        intros Hin. apply Hnot.
        now replace (idx + S k)%nat with (S idx + k)%nat by lia.
Qed.

End Causes.

(** C10: the two lists that [download_images] returns go together, record
    [k] naming path [k]; the indices of the records are 1-based positions in
    [urls], strictly increasing; each record was appended either because its
    target existed while overwriting is off (and then nothing was fetched or
    written for it), or after a fetch whose payload passed [is_image_bytes]
    and was written to the record's path; and a URL without a record is one
    whose fetch raised or whose payload was rejected, nothing being written
    for it. *)
Theorem download_images_records (L : Lib) (urls : list str) (dest_dir : path)
    (referer : str) (overwrite : bool) (meta_dir : option path) (w : world)
    (saved : list path) (metas : list image_meta) (w' : world) :
  download_images L urls dest_dir referer overwrite meta_dir w
  = (Ok (saved, metas), w') ->
  length saved = length metas
  /\ saved = map (out_of dest_dir) metas
  /\ StronglySorted lt (map meta_index metas)
  /\ Forall (fun r =>
       (1 <= meta_index r <= length urls)%nat
       /\ nth_error urls (meta_index r - 1) = Some (meta_image_url r)
       /\ justified L dest_dir referer overwrite
            (world_before L urls dest_dir referer overwrite meta_dir w
               (meta_index r - 1))
            r
       /\ record_cause L dest_dir referer overwrite
            (world_before L urls dest_dir referer overwrite meta_dir w
               (meta_index r - 1))
            (world_before L urls dest_dir referer overwrite meta_dir w
               (meta_index r))
            r) metas
  /\ (forall k url,
        nth_error urls k = Some url ->
        ~ In (S k) (map meta_index metas) ->
        item_dropped L dest_dir referer overwrite (pad_of urls) (S k) url
          (world_before L urls dest_dir referer overwrite meta_dir w k)
          (world_before L urls dest_dir referer overwrite meta_dir w (S k)))
  /\ w' = world_before L urls dest_dir referer overwrite meta_dir w
            (length urls).
Proof.
  rewrite download_images_unfold. intros H.
  pose proof (download_loop_inv _ _ _ _ _ _ _ _ _ _ _ H)
    as [Hs [Hsorted Hall]].
  pose proof (download_loop_cause _ _ _ _ _ _ _ _ _ _ _ H) as [Hcause Hgaps].
  split; [subst saved; now rewrite length_map|].
  split; [exact Hs|]. split; [exact Hsorted|]. split; [|split].
  - rewrite Forall_forall in *. intros r Hr.
    destruct (Hall r Hr) as [Hidx [Hnth Hj]]. specialize (Hcause r Hr).
    split; [lia|]. split; [exact Hnth|]. split; [exact Hj|].
    assert (E : S (meta_index r - 1) = meta_index r) by lia.
    rewrite E in Hcause. exact Hcause.
  - intros k url Hk Hnot. unfold world_before.
    apply (Hgaps k url Hk). exact Hnot.
  - unfold world_before. rewrite firstn_all, H. reflexivity.
Qed.

Lemma download_images_records_witness :
  length [path_join sample_dest (u "001.jpg");
          path_join sample_dest (u "003.jpg")]
  = length mixed_records
  /\ [path_join sample_dest (u "001.jpg");
      path_join sample_dest (u "003.jpg")]
     = map (out_of sample_dest) mixed_records
  /\ StronglySorted lt (map meta_index mixed_records)
  /\ Forall (fun r =>
       (1 <= meta_index r <= length mixed_urls)%nat
       /\ nth_error mixed_urls (meta_index r - 1) = Some (meta_image_url r)
       /\ justified ascii_lib sample_dest mobile_url false
            (world_before ascii_lib mixed_urls sample_dest mobile_url false
               None mixed_world (meta_index r - 1))
            r
       /\ record_cause ascii_lib sample_dest mobile_url false
            (world_before ascii_lib mixed_urls sample_dest mobile_url false
               None mixed_world (meta_index r - 1))
            (world_before ascii_lib mixed_urls sample_dest mobile_url false
               None mixed_world (meta_index r))
            r) mixed_records
  /\ (forall k url,
        nth_error mixed_urls k = Some url ->
        ~ In (S k) (map meta_index mixed_records) ->
        item_dropped ascii_lib sample_dest mobile_url false
          (pad_of mixed_urls) (S k) url
          (world_before ascii_lib mixed_urls sample_dest mobile_url false
             None mixed_world k)
          (world_before ascii_lib mixed_urls sample_dest mobile_url false
             None mixed_world (S k)))
  /\ snd (download_images ascii_lib mixed_urls sample_dest mobile_url false
            None mixed_world)
     = world_before ascii_lib mixed_urls sample_dest mobile_url false None
         mixed_world (length mixed_urls).
Proof.
  apply (download_images_records ascii_lib mixed_urls sample_dest mobile_url
           false None mixed_world).
  vm_compute. reflexivity.
Defined.

(** ** [extract_image_urls]: what it keeps *)

Lemma candidates_of_In f ms :
  forall cs x,
    candidates_of f ms = Ok cs -> In x cs ->
    exists m, In m ms /\ f m = Ok (Some x).
Proof.
  induction ms as [|m ms IH]; intros cs x H Hx; cbn [candidates_of] in H.
  - injection H as <-. destruct Hx.
  - destruct (f m) as [c|e] eqn:Hf; [|discriminate]. cbn [bind] in H.
    destruct (candidates_of f ms) as [cs0|e]; [|discriminate].
    cbn [bind] in H. injection H as <-.
    destruct c as [y|].
    + destruct Hx as [<-|Hx].
      * exists m. split; [now left|exact Hf].
      * destruct (IH cs0 x eq_refl Hx) as [m' [Hin Hm']].
        exists m'. split; [now right|exact Hm'].
    + destruct (IH cs0 x eq_refl Hx) as [m' [Hin Hm']].
      exists m'. split; [now right|exact Hm'].
Qed.

Lemma trusted_host_nonempty host : trusted_host host = true -> host <> [].
Proof. intros H ->. vm_compute in H. discriminate. Qed.

Lemma attr_candidate_hosted L base m x :
  attr_candidate L base m = Ok (Some x) -> hosted_image L x.
Proof.
  unfold attr_candidate. destruct (startswith _ _); [discriminate|].
  destruct (Url.urljoin L base _) as [url|e]; [|discriminate]. cbn [bind].
  destruct (Url.urlparse L url []) as [p|e] eqn:Hp; [|discriminate].
  cbn [bind].
  destruct (Url.netloc p) as [|c host] eqn:Hn; [discriminate|].
  cbn [is_empty].
  destruct (trusted_host (c :: host)) eqn:Ht; cbn [negb andb].
  - intros [= <-]. exists p. rewrite Hn. repeat split; auto. discriminate.
  - destruct (Re.search content_path_pattern url) as [m0|] eqn:Hs;
      [|discriminate].
    intros [= <-]. exists p. rewrite Hn. repeat split; eauto. discriminate.
Qed.

Lemma bare_candidate_hosted L m x :
  bare_candidate L m = Ok (Some x) -> hosted_image L x.
Proof.
  unfold bare_candidate.
  destruct (Url.urlparse L (Re.m_text m) []) as [p|e] eqn:Hp; [|discriminate].
  cbn [bind]. destruct (trusted_host (Url.netloc p)) eqn:Ht; [|discriminate].
  intros [= <-]. exists p. repeat split; auto.
  now apply trusted_host_nonempty.
Qed.

Lemma candidates_hosted L html base cs :
  candidates L html base = Ok cs -> Forall (hosted_image L) cs.
Proof.
  unfold candidates.
  destruct (candidates_of (attr_candidate L base) _) as [cs1|e] eqn:H1;
    [|discriminate].
  cbn [bind].
  destruct (candidates_of (bare_candidate L) _) as [cs2|e] eqn:H2;
    [|discriminate].
  cbn [bind]. intros [= <-]. apply Forall_forall. intros x Hx.
  apply in_app_or in Hx. destruct Hx as [Hx|Hx].
  - destruct (candidates_of_In _ _ _ _ H1 Hx) as [m [_ Hm]].
    eapply attr_candidate_hosted; exact Hm.
  - destruct (candidates_of_In _ _ _ _ H2 Hx) as [m [_ Hm]].
    eapply bare_candidate_hosted; exact Hm.
Qed.

Lemma extract_image_urls_all_hosted L html base out :
  extract_image_urls L html base = Ok out -> Forall (hosted_image L) out.
Proof.
  intros H.
  destruct (extract_image_urls_spec _ _ _ _ H) as [cs [Hc [_ [Hp _]]]].
  apply candidates_hosted in Hc. rewrite Forall_forall in *.
  intros x Hx. apply Hc. apply fromkeys_In.
  eapply Permutation_in; eassumption.
Qed.

(** X13: every URL [extract_image_urls] returns goes through [urlparse] and
    has a host, and either the host is a trusted one ([pstatic.net],
    [comic.naver.net] or [naver.net] somewhere in it) or the URL holds one
    of the markers [/webtoon/], [/episode/], [/content/], [/image/]: a
    reference without a host is never returned. *)
Theorem extract_image_urls_keeps_hosted_images (L : Lib) (html base : str)
    (out : list str) :
  extract_image_urls L html base = Ok out ->
  Forall (hosted_image L) out.
Proof. apply extract_image_urls_all_hosted. Qed.

Lemma extract_image_urls_keeps_hosted_images_witness :
  Forall (hosted_image ascii_lib) [page3_url; page12_url].
Proof.
  apply (extract_image_urls_keeps_hosted_images ascii_lib numbered_page
           mobile_url).
  vm_compute. reflexivity.
Defined.

(** X14: what the extractor returns, the downloader takes: on the output
    of [extract_image_urls], [download_images] returns, whatever the
    network answers and whatever is on disk (file-system errors are not
    part of the model). *)
Theorem download_images_takes_extracted (L : Lib) (html base : str)
    (urls : list str) (dest_dir : path) (referer : str) (overwrite : bool)
    (meta_dir : option path) (w : world) :
  extract_image_urls L html base = Ok urls ->
  exists saved metas w',
    download_images L urls dest_dir referer overwrite meta_dir w
    = (Ok (saved, metas), w')
    /\ (length metas <= length urls)%nat.
Proof.
  intros H. apply extract_image_urls_all_hosted in H.
  rewrite download_images_unfold.
  destruct (download_loop_returns L dest_dir referer overwrite (pad_of urls)
              urls 1 [] [] (listing_written urls dest_dir meta_dir w))
    as [[saved metas] [w' Hrun]].
  - eapply Forall_impl; [|exact H].
    intros url [p [Hp _]]. apply infer_ext_parses. exists p. exact Hp.
  - exists saved, metas, w'. split; [exact Hrun|].
    pose proof (download_loop_inv L dest_dir referer overwrite _ _ _ _ _ _ _
                  Hrun) as [_ [Hsorted Hall]].
    clear -Hsorted Hall.
    assert (Hb : forall (l : list nat) lo n,
               StronglySorted lt l ->
               Forall (fun i => lo <= i < lo + n)%nat l ->
               (length l <= n)%nat).
    { induction l as [|i l IHl]; intros lo n Hs Hf; cbn [length]; [lia|].
      apply StronglySorted_inv in Hs. destruct Hs as [Hs Hlt].
      inversion Hf as [|? ? Hi Hrest]; subst.
      destruct n as [|n]; [lia|].
      specialize (IHl (S i) (lo + n - i)%nat Hs).
      assert (Hf' : Forall (fun j => S i <= j < S i + (lo + n - i))%nat l).
      { rewrite Forall_forall in *. intros j Hj.
        specialize (Hlt j Hj). specialize (Hrest j Hj). lia. }
      specialize (IHl Hf'). lia. }
    rewrite <- (length_map meta_index).
    apply (Hb _ 1%nat); [exact Hsorted|].
    rewrite Forall_map. eapply Forall_impl; [|exact Hall].
    intros r [Hr _]. exact Hr.
Qed.

Lemma download_images_takes_extracted_witness :
  exists saved metas w',
    download_images ascii_lib [page3_url; page12_url] sample_dest mobile_url
      false None dead_network
    = (Ok (saved, metas), w')
    /\ (length metas <= length [page3_url; page12_url])%nat.
Proof.
  apply (download_images_takes_extracted ascii_lib numbered_page mobile_url).
  vm_compute. reflexivity.
Defined.

(** ** [extract_image_urls]: the order without page numbers *)

Lemma sorted_id key l :
  StronglySorted (key_leP key) l -> sorted key l = l.
Proof.
  induction 1 as [|x l Hs IH Hall]; cbn; [reflexivity|].
  unfold sorted in IH. rewrite IH.
  destruct l as [|y l]; [reflexivity|]. cbn [insert_by].
  inversion Hall as [|? ? Hxy _]; subst. unfold key_leP in Hxy.
  now rewrite Hxy.
Qed.

Lemma index_of_app_notin x pre l :
  ~ In x pre -> index_of x (pre ++ l) = (length pre + index_of x l)%nat.
Proof.
  induction pre as [|y pre IH]; intros H; cbn; [reflexivity|].
  destruct (str_eqb y x) eqn:E.
  - apply str_eqb_eq in E. subst y. exfalso. apply H. now left.
  - rewrite IH; [reflexivity|]. intros Hin. apply H. now right.
Qed.

(** A list without duplicates is sorted by the positions of its elements. *)
Lemma positions_sorted l :
  forall pre,
    NoDup (pre ++ l) ->
    StronglySorted
      (fun a b => (index_of a (pre ++ l) <= index_of b (pre ++ l))%nat) l.
Proof.
  induction l as [|x l IH]; intros pre Hnd; [constructor|].
  constructor.
  - specialize (IH (pre ++ [x])). rewrite <- app_assoc in IH. now apply IH.
  - apply Forall_forall. intros b Hb.
    assert (Hx : ~ In x pre).
    { intros Hin. apply NoDup_remove_2 in Hnd. apply Hnd.
      apply in_or_app. now left. }
    assert (Hbp : ~ In b pre).
    { intros Hin. clear -Hnd Hb Hin. induction pre as [|y pre IH].
      - destruct Hin.
      - cbn in Hnd. inversion Hnd; subst. destruct Hin as [->|Hin].
        + apply H1. apply in_or_app. right. now right.
        + now apply IH. }
    rewrite !index_of_app_notin by assumption.
    cbn [index_of]. rewrite str_eqb_refl. lia.
Qed.

Lemma StronglySorted_weaken {A} (R S : A -> A -> Prop) l :
  (forall a b, In a l -> In b l -> R a b -> S a b) ->
  StronglySorted R l -> StronglySorted S l.
Proof.
  intros H Hs. induction Hs as [|x l0 Hs IH Hall]; constructor.
  - apply IH. intros a b Ha Hb. apply H; now right.
  - rewrite Forall_forall in *. intros y Hy.
    apply H; [now left|now right|now apply Hall].
Qed.

(** X15: when the URLs of a page carry no distinguishing page number (all
    sort keys equal, in particular when no URL has a numeric hint), the
    extractor returns them in the order it met them: the candidates of the
    attribute scan in document order, then those of the bare-URL scan, each
    at its first occurrence. *)
Theorem extract_image_urls_ties_keep_page_order (L : Lib) (html base : str)
    (out : list str) :
  extract_image_urls L html base = Ok out ->
  (forall a b, In a out -> In b out -> sort_key L a = sort_key L b) ->
  exists cs, candidates L html base = Ok cs /\ out = fromkeys cs.
Proof.
  intros H Hties.
  destruct (extract_image_urls_spec _ _ _ _ H) as [cs [Hc [_ [Hp _]]]].
  exists cs. split; [exact Hc|].
  assert (Hties' : forall a b, In a (fromkeys cs) -> In b (fromkeys cs) ->
                               sort_key L a = sort_key L b).
  { intros a b Ha Hb.
    apply Hties; eapply Permutation_in; try (symmetry; exact Hp); assumption. }
  clear Hties Hp.
  unfold extract_image_urls in H. rewrite collect_urls_fromkeys, Hc in H.
  cbn [bind] in H. injection H as <-.
  unfold order_urls. rewrite (fromkeys_id _ (fromkeys_NoDup cs)).
  apply sorted_id.
  pose proof (positions_sorted (fromkeys cs) [] (fromkeys_NoDup cs)) as Hs.
  cbn [app] in Hs.
  eapply StronglySorted_weaken; [|exact Hs].
  intros a b Ha Hb Hab. unfold key_leP. apply key_le_spec. right.
  cbn [fst snd]. split; [now apply Hties'|exact Hab].
Qed.

Lemma extract_image_urls_ties_keep_page_order_witness :
  exists cs,
    candidates ascii_lib unnumbered_page mobile_url = Ok cs
    /\ [image_b_url; image_a_url] = fromkeys cs.
Proof.
  apply (extract_image_urls_ties_keep_page_order ascii_lib
           unnumbered_page mobile_url [image_b_url; image_a_url]).
  - vm_compute. reflexivity.
  - intros a b [<-|[<-|[]]] [<-|[<-|[]]]; vm_compute; reflexivity.
Defined.

(** ** [slugify] *)

(** With a continuation that always answers, greedy repetition takes the
    whole run. *)
Lemma rep_greedy_whole {A} p (k : str -> option A) :
  (forall t, k t <> None) ->
  forall s, Re.rep_greedy p 0 None s k = k (drop_while p s).
Proof.
  intros Hk. induction s as [|x s IH]; cbn; [reflexivity|].
  destruct (p x); [|reflexivity].
  rewrite IH. destruct (k (drop_while p s)) eqn:E; [reflexivity|].
  now apply Hk in E.
Qed.

Lemma drop_while_length p s : (length (drop_while p s) <= length s)%nat.
Proof.
  induction s as [|x s IH]; cbn; [lia|]. destruct (p x); cbn; lia.
Qed.

Lemma match_plus_run p x s :
  p x = true ->
  exists m,
    Re.match_here (Re.plus p) (x :: s) = Some m
    /\ length (Re.m_text m)
       = S (length s - length (drop_while p s)).
Proof.
  intros Hx. unfold Re.match_here, Re.plus.
  cbn [Re.rmatch Re.rep_greedy pred option_map]. rewrite Hx.
  rewrite rep_greedy_whole by discriminate. cbn [Re.or_else].
  eexists. split; [reflexivity|]. cbn [Re.m_text].
  pose proof (drop_while_length p s) as Hl.
  rewrite length_firstn. cbn [length]. lia.
Qed.

Lemma sub_from_skip r repl :
  forall n s, (n <= length s)%nat ->
              Re.sub_from r repl s n = Re.sub_from r repl (skipn n s) 0.
Proof.
  induction n as [|n IH]; intros s Hn; [reflexivity|].
  destruct s as [|x s]; cbn in Hn; [lia|].
  cbn [Re.sub_from skipn]. apply IH. lia.
Qed.

Lemma skipn_drop_while p s :
  skipn (length s - length (drop_while p s)) s = drop_while p s.
Proof.
  induction s as [|x s IH]; cbn [drop_while]; [reflexivity|].
  destruct (p x).
  - pose proof (drop_while_length p s) as Hl. cbn [length].
    replace (S (length s) - length (drop_while p s))%nat
      with (S (length s - length (drop_while p s))) by lia.
    cbn [skipn]. exact IH.
  - now rewrite Nat.sub_diag.
Qed.

Lemma squeeze_in_run p repl s :
  squeeze p repl s true = squeeze p repl (drop_while p s) false.
Proof.
  induction s as [|x s IH]; cbn; [reflexivity|].
  destruct (p x) eqn:Hx; [exact IH|]. cbn. now rewrite Hx.
Qed.

(** [re.sub(class+, repl, s)] replaces each maximal run of the class. *)
Lemma sub_plus_squeeze p repl s :
  Re.sub (Re.plus p) repl s = squeeze p repl s false.
Proof.
  unfold Re.sub.
  remember (length s) as n eqn:Hn.
  revert s Hn. induction n as [n IH] using lt_wf_ind. intros s Hn.
  destruct s as [|x s].
  - reflexivity.
  - cbn [squeeze]. destruct (p x) eqn:Hx.
    + destruct (match_plus_run p x s Hx) as [m [Hm Hl]].
      cbn [Re.sub_from]. rewrite Hm, Hl.
      pose proof (drop_while_length p s) as Hd.
      rewrite sub_from_skip by lia.
      rewrite skipn_drop_while, squeeze_in_run. f_equal.
      apply (IH (length (drop_while p s))); [|reflexivity].
      subst n. cbn [length]. lia.
    + cbn [Re.sub_from].
      destruct (Re.match_here (Re.plus p) (x :: s)) as [m|] eqn:Hm.
      * exfalso. unfold Re.match_here, Re.plus in Hm.
        cbn [Re.rmatch Re.rep_greedy] in Hm. rewrite Hx in Hm. discriminate.
      * f_equal. apply (IH (length s)); [|reflexivity].
        subst n. cbn [length]. lia.
Qed.

Lemma slugify_squeeze s :
  slugify s
  = firstn 80
      (strip_by (Re.chr_is 45)
         (squeeze (Re.chr_is 45) (u "-")
            (squeeze (fun c => negb (ascii_letter c || ascii_digit c
                                     || (c =? 45))) []
               (squeeze (fun c => is_space c || (c =? 95)) (u "-")
                  (strip_by is_space s) false) false) false)).
Proof. unfold slugify. now rewrite !sub_plus_squeeze. Qed.

Lemma drop_while_suffix p s : exists pre, s = pre ++ drop_while p s.
Proof.
  induction s as [|x s [pre IH]]; cbn; [now exists []|].
  destruct (p x); [|now exists []].
  exists (x :: pre). cbn. now f_equal.
Qed.

Lemma strip_by_infix p s : exists pre post, s = pre ++ strip_by p s ++ post.
Proof.
  unfold strip_by, rstrip_by, lstrip_by.
  destruct (drop_while_suffix p s) as [pre Hpre].
  destruct (drop_while_suffix p (rev (drop_while p s))) as [post Hpost].
  exists pre, (rev post).
  rewrite <- rev_app_distr, <- Hpost, rev_involutive. exact Hpre.
Qed.

Lemma drop_while_head p s x t : drop_while p s = x :: t -> p x = false.
Proof.
  induction s as [|y s IH]; cbn; [discriminate|].
  destruct (p y) eqn:Hy; [exact IH|]. now intros [= <- _].
Qed.

Lemma drop_while_keeps_last p x :
  p x = false -> forall l, exists v, drop_while p (l ++ [x]) = v ++ [x].
Proof.
  intros Hx. induction l as [|y l [v IH]]; cbn.
  - rewrite Hx. now exists [].
  - destruct (p y); [now exists v|]. now exists (y :: l).
Qed.

(** What is left of a strip does not start with a stripped character. *)
Lemma strip_by_head p s x t : strip_by p s = x :: t -> p x = false.
Proof.
  unfold strip_by, rstrip_by, lstrip_by.
  destruct (drop_while p s) as [|y s'] eqn:Hd; [discriminate|].
  pose proof (drop_while_head _ _ _ _ Hd) as Hy.
  cbn [rev]. destruct (drop_while_keeps_last p y Hy (rev s')) as [v ->].
  rewrite rev_app_distr. cbn. now intros [= <- _].
Qed.

Lemma single_hyphens_tail x s :
  single_hyphens (x :: s) = true -> single_hyphens s = true.
Proof.
  destruct s as [|y s]; [reflexivity|]. cbn [single_hyphens].
  intros H. apply andb_true_iff in H. tauto.
Qed.

Lemma single_hyphens_app a : forall b,
  single_hyphens (a ++ b) = true ->
  single_hyphens a = true /\ single_hyphens b = true.
Proof.
  induction a as [|x a IH]; intros b H; [auto|].
  destruct (IH b (single_hyphens_tail _ _ H)) as [Ha Hb].
  split; [|exact Hb].
  destruct a as [|y a]; [reflexivity|].
  cbn [app single_hyphens] in *.
  apply andb_true_iff in H. destruct H as [H _].
  now rewrite H, Ha.
Qed.

Lemma squeeze_single_hyphens s : forall b,
  single_hyphens (squeeze (Re.chr_is 45) (u "-") s b) = true
  /\ (b = true ->
      forall t, squeeze (Re.chr_is 45) (u "-") s b <> 45 :: t).
Proof.
  induction s as [|x s IH]; intros b; cbn [squeeze].
  - split; [reflexivity|discriminate].
  - destruct (Re.chr_is 45 x) eqn:Hx; unfold Re.chr_is in Hx.
    + destruct b.
      * apply IH.
      * destruct (IH true) as [Hs Hh]. split; [|discriminate].
        specialize (Hh eq_refl).
        revert Hs Hh. generalize (squeeze (Re.chr_is 45) (u "-") s true).
        intros q Hs Hh. change (u "-" ++ q) with (45 :: q).
        destruct q as [|y t]; [reflexivity|].
        change (negb ((45 =? 45) && (y =? 45)) && single_hyphens (y :: t)
                = true).
        rewrite Hs.
        destruct (N.eqb_spec y 45) as [->|Hy].
        -- exfalso. exact (Hh t eq_refl).
        -- reflexivity.
    + destruct (IH false) as [Hs _]. split.
      * revert Hs. generalize (squeeze (Re.chr_is 45) (u "-") s false).
        intros q Hs. destruct q as [|y t]; [reflexivity|].
        change (negb ((x =? 45) && (y =? 45)) && single_hyphens (y :: t)
                = true).
        now rewrite Hs, Hx.
      * intros _ t [= E _]. subst x. discriminate.
Qed.

Lemma slugify_hyphens (s : str) :
  (forall t, slugify s <> 45 :: t) /\ single_hyphens (slugify s) = true.
Proof.
  rewrite slugify_squeeze.
  match goal with
  | |- context [strip_by ?p ?x] =>
      destruct (strip_by_infix p x) as [pre [post Hs]];
      pose proof (fun c t => strip_by_head p x c t) as Hhead;
      assert (H3 : single_hyphens x = true)
        by apply (proj1 (squeeze_single_hyphens _ false));
      revert Hs Hhead H3; generalize (strip_by p x); generalize x
  end.
  intros S3 T Hs Hhead H3. split.
  - intros t H.
    destruct T as [|c T']; [discriminate|].
    cbn [firstn] in H. injection H as -> _.
    specialize (Hhead 45 T' eq_refl). discriminate.
  - rewrite Hs in H3. apply single_hyphens_app in H3.
    destruct H3 as [_ H3]. apply single_hyphens_app in H3.
    destruct H3 as [H3 _].
    rewrite <- (firstn_skipn 80 T) in H3.
    now apply single_hyphens_app in H3.
Qed.

(** X16: the shape of a slug.  [slugify] returns at most 80 characters, all
    of them ASCII letters, digits or hyphens; the slug does not start with a
    hyphen and holds no two hyphens side by side. *)
Theorem slugify_shape (s : str) :
  (length (slugify s) <= 80)%nat
  /\ Forall (fun c => slug_char c = true) (slugify s)
  /\ (forall t, slugify s <> 45 :: t)
  /\ single_hyphens (slugify s) = true.
Proof.
  split; [unfold slugify; apply firstn_le_length|].
  split; [apply slugify_chars|apply slugify_hyphens].
Qed.

Lemma filter_drop_while (q p : char -> bool) s :
  (forall c, p c = true -> q c = false) ->
  filter q (drop_while p s) = filter q s.
Proof.
  intros H. induction s as [|x s IH]; cbn; [reflexivity|].
  destruct (p x) eqn:Hx; [|reflexivity]. now rewrite (H x Hx).
Qed.

Lemma filter_strip_by (q p : char -> bool) s :
  (forall c, p c = true -> q c = false) ->
  filter q (strip_by p s) = filter q s.
Proof.
  intros H. unfold strip_by, rstrip_by, lstrip_by.
  rewrite filter_rev, filter_drop_while, <- filter_rev, rev_involutive
    by exact H.
  now apply filter_drop_while.
Qed.

Lemma filter_squeeze (q p : char -> bool) repl s :
  (forall c, p c = true -> q c = false) -> filter q repl = [] ->
  forall b, filter q (squeeze p repl s b) = filter q s.
Proof.
  intros H Hr. induction s as [|x s IH]; intros b; cbn; [reflexivity|].
  destruct (p x) eqn:Hx.
  - rewrite (H x Hx). destruct b; [apply IH|].
    now rewrite filter_app, Hr, IH.
  - cbn. now rewrite IH.
Qed.

Lemma alnum_not_space c : is_space c = true -> ascii_alnum c = false.
Proof.
  intros H. destruct (ascii_alnum c) eqn:E; [exfalso|reflexivity].
  unfold ascii_alnum, ascii_letter, ascii_upper_letter, ascii_lower_letter,
    ascii_digit, in_range in E.
  unfold is_space, in_range in H.
  rewrite !orb_true_iff, !andb_true_iff, !N.leb_le in E.
  rewrite !orb_true_iff, !andb_true_iff, !N.leb_le, !N.eqb_eq in H.
  lia.
Qed.

Lemma alnum_not_hyphen c : Re.chr_is 45 c = true -> ascii_alnum c = false.
Proof.
  unfold Re.chr_is. intros H. apply N.eqb_eq in H. now subst c.
Qed.

Lemma slug_char_cases c :
  slug_char c = true -> ascii_alnum c = true \/ c = 45.
Proof.
  unfold slug_char, ascii_alnum. rewrite !orb_true_iff, N.eqb_eq. tauto.
Qed.

(** X17: the slug is the first 80 characters of a text that holds the ASCII
    letters and digits of the argument, all of them and in their order, and
    nothing else but hyphens: a letter or digit is lost only beyond the
    80-character cut.  The slug is empty exactly when the argument holds no
    ASCII letter or digit (a title in Hangul alone gives the empty slug). *)
Theorem slugify_keeps_alnum (s : str) :
  (exists full,
     slugify s = firstn 80 full
     /\ filter ascii_alnum full = filter ascii_alnum s
     /\ Forall (fun c => ascii_alnum c = true \/ c = 45) full)
  /\ (slugify s = [] <-> filter ascii_alnum s = []).
Proof.
  pose proof (proj1 (slugify_hyphens s)) as Hhead.
  revert Hhead. rewrite slugify_squeeze.
  match goal with
  | |- context [strip_by ?p ?x] =>
      assert (HT : filter ascii_alnum (strip_by p x) = filter ascii_alnum s);
      [|assert (HC : Forall (fun c => slug_char c = true) (strip_by p x));
        [|revert HT HC; generalize (strip_by p x)]]
  end.
  { rewrite filter_strip_by by apply alnum_not_hyphen.
    rewrite filter_squeeze;
      [|apply alnum_not_hyphen|reflexivity].
    rewrite filter_squeeze; [| |reflexivity].
    - rewrite filter_squeeze; [| |reflexivity].
      + apply filter_strip_by, alnum_not_space.
      + intros c Hc. apply orb_true_iff in Hc. destruct Hc as [Hc|Hc].
        * now apply alnum_not_space.
        * apply N.eqb_eq in Hc. now subst c.
    - intros c Hc. apply negb_true_iff in Hc. unfold ascii_alnum.
      apply orb_false_iff in Hc. tauto. }
  { apply strip_by_Forall. rewrite <- !sub_plus_squeeze.
    apply sub_from_chars; [repeat constructor|].
    eapply Forall_impl; [|apply sub_plus_removes].
    intros c Hc. cbv beta in Hc. apply negb_false_iff in Hc. exact Hc. }
  intros T HT HC Hhead. split.
  - exists T. split; [reflexivity|]. split; [exact HT|].
    eapply Forall_impl; [|exact HC]. intros c. apply slug_char_cases.
  - split.
    + intros E. destruct T as [|c T']; [now rewrite <- HT|discriminate].
    + intros E. rewrite <- HT in E.
      destruct T as [|c T']; [reflexivity|]. exfalso.
      inversion HC as [|? ? Hc _]; subst.
      apply slug_char_cases in Hc. destruct Hc as [Hc| ->].
      * cbn [filter] in E. rewrite Hc in E. discriminate.
      * exact (Hhead _ eq_refl).
Qed.

(** ** [parse_chapter_label] *)

Lemma compose_label_head site title_id chapter_no slug :
  (forall s, slug = Some s -> Forall (fun c => slug_char c = true) s) ->
  (exists c rest, site = c :: rest /\ c <> 46 /\ separator c = false) ->
  exists c rest,
    compose_label site title_id chapter_no slug = c :: rest
    /\ c <> 46 /\ separator c = false.
Proof.
  intros Hslug [c0 [rest0 [-> [Hc0 Hs0]]]]. unfold compose_label.
  destruct (negb (is_empty title_id) || negb (is_empty chapter_no)).
  - destruct (truthy slug); cbn [app]; eauto.
  - unfold or_opt. destruct slug as [[|c s]|]; cbn [truthy is_empty negb].
    + exists 101. eexists. repeat split; [discriminate].
    + specialize (Hslug _ eq_refl). inversion Hslug as [|? ? Hc _]; subst.
      exists c. eexists. cbn [app]. split; [reflexivity|].
      apply slug_char_cases in Hc. unfold ascii_alnum, ascii_letter,
        ascii_upper_letter, ascii_lower_letter, ascii_digit, in_range in Hc.
      rewrite !orb_true_iff, !andb_true_iff, !N.leb_le in Hc.
      unfold separator. split; [lia|].
      apply orb_false_iff. rewrite !N.eqb_neq. lia.
    + exists 101. eexists. repeat split; [discriminate].
Qed.

(** X18: when [parse_chapter_label] returns, the label is not empty and does
    not start with a dot or a path separator (so it is neither [.] nor
    [..]); and it holds no path separator at all as soon as the [titleId]
    and the [no] of the URL hold none: whatever the page says, the slug and
    the number read from the page bring none in. *)
Theorem parse_chapter_label_single_component (L : Lib) (url : str)
    (html : option str) (label : str) (meta : chapter_meta) :
  parse_chapter_label L url html = Ok (label, meta) ->
  (exists c rest, label = c :: rest /\ c <> 46 /\ separator c = false)
  /\ (Forall (fun c => separator c = false) (meta_titleId meta) ->
      Forall (fun c => separator c = false) (meta_no meta) ->
      Forall (fun c => separator c = false) label).
Proof.
  intros H. split; [|now apply (parse_chapter_label_separators L url html)].
  revert H. unfold parse_chapter_label.
  destruct (Url.urlparse L url []) as [p|e]; [|discriminate]. cbn [bind].
  destruct (page_titles L html) as [[[ep_title ep_main] ep_sub] ep_no].
  intros [= <- _].
  apply compose_label_head.
  - intros s Hs. eapply chapter_slug_chars; exact Hs.
  - exists 110. eexists. repeat split; discriminate.
Qed.

Lemma parse_chapter_label_single_component_witness :
  (exists c rest, u "naver_765804_127_News-Table" = c :: rest
                  /\ c <> 46 /\ separator c = false)
  /\ (Forall (fun c => separator c = false) (meta_titleId chapter_page_meta) ->
      Forall (fun c => separator c = false) (meta_no chapter_page_meta) ->
      Forall (fun c => separator c = false) (u "naver_765804_127_News-Table")).
Proof.
  apply (parse_chapter_label_single_component ascii_lib chapter_url
           (Some chapter_page)).
  vm_compute. reflexivity.
Defined.

(** X19: [parse_chapter_label] raises exactly when [urlparse] raises on the
    URL, with the same exception; and without a page ([html] absent or
    empty) the label comes from the query alone: [naver_<titleId>_<no>] when
    one of the two is there, [episode] when the URL has neither, with no
    title and no number in the metadata. *)
Theorem parse_chapter_label_without_page (L : Lib) (url : str)
    (html : option str) :
  (forall e, parse_chapter_label L url html = Raise e
             <-> Url.urlparse L url [] = Raise e)
  /\ (truthy html = false ->
      forall p, Url.urlparse L url [] = Ok p ->
        let title_id := qget (Url.parse_qs L (Url.query p)) (u "titleId") in
        let no := qget (Url.parse_qs L (Url.query p)) (u "no") in
        parse_chapter_label L url html
        = Ok (if negb (is_empty title_id) || negb (is_empty no)
              then u "naver_" ++ title_id ++ u "_" ++ no
              else u "episode",
              {| meta_site := u "naver"; meta_titleId := title_id;
                 meta_no := no; meta_episode_title := None;
                 meta_episode_title_main := None;
                 meta_episode_subtitle := None;
                 meta_episode_no_extracted := None; meta_url := url |})).
Proof.
  split.
  - intros e. unfold parse_chapter_label.
    destruct (Url.urlparse L url []) as [p|e0]; cbn [bind].
    + destruct (page_titles L html) as [[[a b] c] d].
      split; discriminate.
    + split; intros [= ->]; reflexivity.
  - intros Hh p Hp. cbv zeta. unfold parse_chapter_label.
    rewrite Hp. cbn [bind]. unfold page_titles. rewrite Hh.
    unfold chapter_slug, compose_label, or_opt.
    cbn [truthy andb option_map is_empty negb].
    destruct (negb (is_empty (qget _ (u "titleId")))
              || negb (is_empty (qget _ (u "no")))) eqn:E.
    + destruct (qget (Url.parse_qs L (Url.query p)) (u "no")) as [|c t] eqn:En;
        reflexivity.
    + reflexivity.
Qed.

Lemma parse_chapter_label_without_page_witness :
  exists meta,
    parse_chapter_label ascii_lib chapter_url None
    = Ok (u "naver_765804_126", meta).
Proof.
  eexists.
  apply (proj2 (parse_chapter_label_without_page ascii_lib chapter_url None)
           eq_refl
           {| Url.scheme := u "https"; Url.netloc := u "m.comic.naver.com";
              Url.path := u "/webtoon/detail"; Url.params := [];
              Url.query := u "titleId=765804&no=126"; Url.fragment := [] |}).
  vm_compute. reflexivity.
Defined.
